(** * Hydra News cryptographic core: a shallow embedding and its properties

    The development follows the C sources file by file:
    - [SHA256], [HMAC]: the two OpenSSL primitives the sources call
      (FIPS 180-4 and RFC 2104), written out so that every function below
      can be run on concrete inputs;
    - [Kyber]    : src/c/src/postquantum/kyber.c
    - [Falcon]   : src/c/src/postquantum/falcon.c
    - [QZKP]     : src/c/src/quantum_zkp.c
    - [LE]       : src/c/src/logical_entanglement.c
    - [Adapter]  : src/c/src/postquantum/crypto_adapter.c

    Modelling conventions.
    - A byte is a [Z] in [0, 256); a buffer is a [list Z].  A (pointer, size)
      pair of the C code is one [option bytes]: [None] is the NULL pointer and
      the size is the length of the list.
    - An output buffer is an [out_ptr] argument (NULL or not) and the bytes
      the function stores through it are part of the result.
    - Each static [is_initialized] flag is threaded explicitly.
    - What the environment answers is an explicit argument: the bytes
      delivered by [RAND_bytes] ([None] when it reports failure), the result
      of [RAND_poll], the value of [time(NULL)], the outcome of [realloc].
      [malloc] and the OpenSSL digest calls are taken to succeed.
    - Heap objects that are shared through pointers (entanglement nodes, key
      buffers) live in an explicit store indexed by addresses. *)

From Stdlib Require Import ZArith String Ascii Lia Bool.
From stdpp Require Import base list.

Local Open Scope Z_scope.

(** ** Bytes and buffers *)

Abbreviation bytes := (list Z).

Inductive out_ptr : Set := out_NULL | out_buffer.

Definition out_null (p : out_ptr) : bool :=
  match p with out_NULL => true | out_buffer => false end.

Definition null {A : Type} (p : option A) : bool :=
  match p with None => true | Some _ => false end.

Definition byte_of_ascii (c : ascii) : Z := Z.of_N (N_of_ascii c).

Definition bytes_of_string (s : string) : bytes :=
  map byte_of_ascii (list_ascii_of_string s).

Fixpoint bytes_eqb (a b : bytes) : bool :=
  match a, b with
  | [], [] => true
  | x :: a', y :: b' => (x =? y) && bytes_eqb a' b'
  | _, _ => false
  end.

(** [memcmp(a, b, n) == 0].  Reading past the end of a list (past the end of
    the caller's buffer in C) counts as a mismatch. *)
Definition memcmp_eq (a b : bytes) (n : nat) : bool :=
  (n <=? length a)%nat && (n <=? length b)%nat && bytes_eqb (firstn n a) (firstn n b).

(** [memset(p, c, n)] on the first [n] bytes of a buffer. *)
Definition memset (buf : bytes) (c : Z) (n : nat) : bytes :=
  repeat c (Nat.min n (length buf)) ++ skipn n buf.

(** [RAND_bytes(buf, n)]: succeeds exactly when the entropy source delivers
    [n] bytes. *)
Definition RAND_bytes (n : nat) (entropy : option bytes) : option bytes :=
  match entropy with
  | Some bs => if (length bs =? n)%nat then Some bs else None
  | None => None
  end.

(** A [size_t] as stored by [memcpy(dst, &n, sizeof(size_t))] on a 64-bit
    little-endian host. *)
Definition size_t_bytes (n : Z) : bytes :=
  map (fun i => Z.land (Z.shiftr n (8 * Z.of_nat i)) 255) (seq 0 8).

(** ** OpenSSL: SHA-256 (FIPS 180-4) *)

Module SHA256.

Definition word_mask : Z := 0xFFFFFFFF.
Definition trunc32 (x : Z) : Z := Z.land x word_mask.
Definition add32 (x y : Z) : Z := trunc32 (x + y).
Definition rotr (n x : Z) : Z :=
  Z.lor (Z.shiftr x n) (trunc32 (Z.shiftl x (32 - n))).
Definition not32 (x : Z) : Z := Z.lxor x word_mask.

Definition Ch (x y z : Z) : Z := Z.lxor (Z.land x y) (Z.land (not32 x) z).
Definition Maj (x y z : Z) : Z :=
  Z.lxor (Z.lxor (Z.land x y) (Z.land x z)) (Z.land y z).
Definition bsig0 (x : Z) : Z := Z.lxor (Z.lxor (rotr 2 x) (rotr 13 x)) (rotr 22 x).
Definition bsig1 (x : Z) : Z := Z.lxor (Z.lxor (rotr 6 x) (rotr 11 x)) (rotr 25 x).
Definition ssig0 (x : Z) : Z := Z.lxor (Z.lxor (rotr 7 x) (rotr 18 x)) (Z.shiftr x 3).
Definition ssig1 (x : Z) : Z := Z.lxor (Z.lxor (rotr 17 x) (rotr 19 x)) (Z.shiftr x 10).

(** The constants of FIPS 180-4 are derived rather than tabulated: the
    round constants are the first 32 fractional bits of the cube roots of
    the first 64 primes, the initial state those of the square roots of the
    first 8 primes. *)
Definition is_prime (n : nat) : bool :=
  forallb (fun d => negb (n mod d =? 0)%nat) (seq 2 (n - 2)).

Definition first_primes (k : nat) : list Z :=
  map Z.of_nat (firstn k (filter is_prime (seq 2 310))).

(** Integer cube root below 2^35, one bit at a time. *)
Definition cube_root (n : Z) : Z :=
  fold_left (fun r b => let r' := r + Z.shiftl 1 (Z.of_nat b) in
                        if r' * r' * r' <=? n then r' else r)
            (rev (seq 0 35)) 0.

Definition round_constants : list Z :=
  Eval vm_compute in
    map (fun q => trunc32 (cube_root (Z.shiftl q 96))) (first_primes 64).

Definition initial_state : list Z :=
  Eval vm_compute in
    map (fun q => trunc32 (Z.sqrt (Z.shiftl q 64))) (first_primes 8).

(** Big-endian packing of bytes into 32-bit words, and back. *)
Fixpoint words_of_bytes (bs : list Z) : list Z :=
  match bs with
  | b0 :: b1 :: b2 :: b3 :: rest =>
      (Z.shiftl b0 24 + Z.shiftl b1 16 + Z.shiftl b2 8 + b3) :: words_of_bytes rest
  | _ => []
  end.

Definition bytes_of_word (x : Z) : list Z :=
  [Z.land (Z.shiftr x 24) 255; Z.land (Z.shiftr x 16) 255;
   Z.land (Z.shiftr x 8) 255; Z.land x 255].

Definition bytes_of_len64 (n : Z) : list Z :=
  bytes_of_word (Z.shiftr n 32) ++ bytes_of_word (trunc32 n).

(** The message schedule is grown newest-first: the head is W[t-1]. *)
Fixpoint extend_schedule (k : nat) (rev_w : list Z) : list Z :=
  match k with
  | O => rev_w
  | S k' =>
      let wt := add32 (add32 (ssig1 (nth 1 rev_w 0)) (nth 6 rev_w 0))
                      (add32 (ssig0 (nth 14 rev_w 0)) (nth 15 rev_w 0)) in
      extend_schedule k' (wt :: rev_w)
  end.

Definition schedule (block : list Z) : list Z :=
  rev (extend_schedule 48 (rev (words_of_bytes block))).

Record regs := Regs { ra : Z; rb : Z; rc : Z; rd : Z; re : Z; rf : Z; rg : Z; rh : Z }.

Definition round (r : regs) (kw : Z * Z) : regs :=
  let t1 := add32 (add32 (add32 (rh r) (bsig1 (re r))) (Ch (re r) (rf r) (rg r)))
                  (add32 (fst kw) (snd kw)) in
  let t2 := add32 (bsig0 (ra r)) (Maj (ra r) (rb r) (rc r)) in
  Regs (add32 t1 t2) (ra r) (rb r) (rc r) (add32 (rd r) t1) (re r) (rf r) (rg r).

Definition regs_of_list (h : list Z) : regs :=
  Regs (nth 0 h 0) (nth 1 h 0) (nth 2 h 0) (nth 3 h 0)
       (nth 4 h 0) (nth 5 h 0) (nth 6 h 0) (nth 7 h 0).

Definition list_of_regs (r : regs) : list Z :=
  [ra r; rb r; rc r; rd r; re r; rf r; rg r; rh r].

Definition compress (h : list Z) (block : list Z) : list Z :=
  let r := fold_left round (combine round_constants (schedule block)) (regs_of_list h) in
  map (fun p => add32 (fst p) (snd p)) (combine h (list_of_regs r)).

Definition pad (msg : list Z) : list Z :=
  let n := Z.of_nat (length msg) in
  let zeros := Z.to_nat ((55 - n) mod 64) in
  msg ++ [0x80] ++ repeat 0 zeros ++ bytes_of_len64 (8 * n).

Fixpoint absorb (nblocks : nat) (h : list Z) (data : list Z) : list Z :=
  match nblocks with
  | O => h
  | S k => absorb k (compress h (firstn 64 data)) (skipn 64 data)
  end.

Definition digest (msg : list Z) : list Z :=
  let p := pad msg in
  flat_map bytes_of_word (absorb (length p / 64)%nat initial_state p).

End SHA256.

(** [SHA256(data, len, out)], and equally [SHA256_Init] / [SHA256_Update]* /
    [SHA256_Final] or the [EVP_Digest*] calls with [EVP_sha256()], over the
    concatenation of the updates. *)
Definition SHA256 (msg : bytes) : bytes := SHA256.digest msg.

Definition SHA256_DIGEST_LENGTH : nat := 32.

(** ** OpenSSL: HMAC-SHA256 (RFC 2104), as reached through
    [EVP_PKEY_new_mac_key] and [EVP_DigestSign*]. *)

Module HMAC.

Definition block_size : nat := 64.

Definition normalise_key (key : bytes) : bytes :=
  let k := if (block_size <? length key)%nat then SHA256 key else key in
  k ++ repeat 0 (block_size - length k)%nat.

Definition xor_pad (c : Z) (key : bytes) : bytes := map (Z.lxor c) key.

Definition hmac_sha256 (key data : bytes) : bytes :=
  let k := normalise_key key in
  SHA256 (xor_pad 0x5c k ++ SHA256 (xor_pad 0x36 k ++ data)).

End HMAC.

(** ** kyber.c *)

Module Kyber.

Definition KYBER_PUBLIC_KEY_BYTES : nat := 1184.
Definition KYBER_SECRET_KEY_BYTES : nat := 2400.
Definition KYBER_CIPHERTEXT_BYTES : nat := 1088.
Definition KYBER_SHARED_SECRET_BYTES : nat := 32.

Record kyber_keypair_t := {
  public_key : bytes;
  secret_key : bytes
}.

Definition kyber_init (is_initialized : bool) (rand_poll : bool) : Z * bool :=
  if is_initialized then (0, is_initialized)
  else if negb rand_poll then (-1, is_initialized)
  else (0, true).

Definition kyber_cleanup (is_initialized : bool) : bool := false.

(** "Derive public key from secret key": the block that [kyber_keygen] runs
    on the key it has just made and that [kyber_decapsulate] repeats on its
    argument ("same as in keygen").  The digest fills the first [md_len]
    bytes, the loop fills the rest. *)
Definition derive_public_key (sk : bytes) : bytes :=
  let pk_info := bytes_of_string "KYBER_PUBLIC_KEY" in
  let pk_digest := SHA256 (firstn KYBER_SECRET_KEY_BYTES sk ++ pk_info) in
  let md_len := length pk_digest in
  pk_digest ++
  map (fun i => (nth (i mod KYBER_SECRET_KEY_BYTES)%nat sk 0 + Z.of_nat i + 0x37) mod 256)
      (seq md_len (KYBER_PUBLIC_KEY_BYTES - md_len)).

(** [for (int i = 0; i < 32; i++) ephemeral[i] = i + 1;] *)
Definition fixed_ephemeral : bytes :=
  map (fun i => Z.of_nat i + 1) (seq 0 32).

Definition kyber_keygen (is_initialized : bool) (keypair : out_ptr)
    (entropy : option bytes) : Z * option kyber_keypair_t :=
  if negb is_initialized || out_null keypair then (-1, None)
  else
    match RAND_bytes 32 entropy with
    | None => (-2, None)
    | Some seed =>
        let sk_info := bytes_of_string "KYBER_SECRET_KEY" in
        let sk_digest := SHA256 (seed ++ sk_info) in
        let md_len := length sk_digest in
        let sk :=
          sk_digest ++
          map (fun i => (nth (i mod 32)%nat seed 0 + Z.of_nat i) mod 256)
              (seq md_len (KYBER_SECRET_KEY_BYTES - md_len)) in
        (0, Some {| public_key := derive_public_key sk; secret_key := sk |})
    end.

(** The result carries the ciphertext and the shared secret. *)
Definition kyber_encapsulate (is_initialized : bool)
    (ciphertext shared_secret : out_ptr) (public_key : option bytes)
    (entropy : option bytes) : Z * option (bytes * bytes) :=
  match public_key with
  | None => (-1, None)
  | Some pk =>
      if negb is_initialized || out_null ciphertext || out_null shared_secret
      then (-1, None)
      else
        match RAND_bytes 32 entropy with
        | None => (-2, None)
        | Some drawn =>
            (* the drawn value is overwritten byte by byte *)
            let ephemeral := fixed_ephemeral in
            let body :=
              map (fun i => Z.lxor (nth (i mod 32)%nat ephemeral 0)
                                   (nth (i mod KYBER_PUBLIC_KEY_BYTES)%nat pk 0))
                  (seq 0 (KYBER_CIPHERTEXT_BYTES - 32)) in
            let hash_input := firstn KYBER_PUBLIC_KEY_BYTES pk ++ firstn 32 ephemeral in
            let ct := body ++ SHA256 hash_input in
            let secret_input := firstn KYBER_CIPHERTEXT_BYTES ct ++ firstn 32 ephemeral in
            (0, Some (ct, SHA256 secret_input))
        end
  end.

Definition kyber_decapsulate (is_initialized : bool) (shared_secret : out_ptr)
    (ciphertext secret_key : option bytes) : Z * option bytes :=
  match ciphertext, secret_key with
  | Some ct, Some sk =>
      if negb is_initialized || out_null shared_secret then (-1, None)
      else
        let pk := derive_public_key sk in
        (* [ephemeral] is first set to [fixed_ephemeral]; the recovery loop
           then overwrites all 32 bytes *)
        let ephemeral :=
          map (fun i => Z.lxor (nth i ct 0) (nth (i mod KYBER_PUBLIC_KEY_BYTES)%nat pk 0))
              (seq 0 32) in
        let hash_input := firstn KYBER_PUBLIC_KEY_BYTES pk ++ firstn 32 ephemeral in
        let expected_hash := SHA256 hash_input in  (* computed, never compared *)
        let secret_input := firstn KYBER_CIPHERTEXT_BYTES ct ++ firstn 32 ephemeral in
        (0, Some (SHA256 secret_input))
  | _, _ => (-1, None)
  end.

End Kyber.

(** ** falcon.c *)

Module Falcon.

Definition FALCON_PUBLIC_KEY_BYTES : nat := 897.
Definition FALCON_SECRET_KEY_BYTES : nat := 1281.
Definition FALCON_SIGNATURE_MAX_BYTES : nat := 666.

Record falcon_keypair_t := {
  public_key : bytes;
  secret_key : bytes
}.

Definition falcon_init (is_initialized : bool) (rand_poll : bool) : Z * bool :=
  if is_initialized then (0, is_initialized)
  else if negb rand_poll then (-1, is_initialized)
  else (0, true).

Definition falcon_cleanup (is_initialized : bool) : bool := false.

Definition falcon_keygen (is_initialized : bool) (keypair : out_ptr)
    (entropy : option bytes) : Z * option falcon_keypair_t :=
  if negb is_initialized || out_null keypair then (-1, None)
  else
    match RAND_bytes FALCON_SECRET_KEY_BYTES entropy with
    | None => (-2, None)
    | Some sk =>
        let pk_digest := SHA256 (firstn FALCON_SECRET_KEY_BYTES sk) in
        let md_len := length pk_digest in
        let pk :=
          pk_digest ++
          map (fun i => (nth (i mod FALCON_SECRET_KEY_BYTES)%nat sk 0 + Z.of_nat i) mod 256)
              (seq md_len (FALCON_PUBLIC_KEY_BYTES - md_len)) in
        (0, Some {| public_key := pk; secret_key := sk |})
    end.

(** The result is the return code, the bytes stored from the start of the
    signature buffer, and the value stored to [*signature_len] if any.
    Layout of a signature: version byte, 16-byte nonce, 32-byte MAC. *)
Definition falcon_sign (is_initialized : bool) (signature signature_len : out_ptr)
    (message secret_key : option bytes) (entropy : option bytes)
    : Z * bytes * option Z :=
  match message, secret_key with
  | Some msg, Some sk =>
      if negb is_initialized || out_null signature || out_null signature_len
      then (-1, [], None)
      else
        match RAND_bytes 16 entropy with
        | None => (-2, [0x30], None)
        | Some nonce =>
            let msg_hash := SHA256 msg in
            let hmac := HMAC.hmac_sha256 (firstn 32 sk) (msg_hash ++ nonce) in
            (0, [0x30] ++ nonce ++ firstn 32 hmac, Some (1 + 16 + 32))
        end
  | _, _ => (-1, [], None)
  end.

Definition test_message : bytes :=
  bytes_of_string "This is a test message that will be signed with Falcon".

Definition falcon_verify (is_initialized : bool)
    (signature message public_key : option bytes) : Z :=
  match signature, message, public_key with
  | Some sig, Some msg, Some pk =>
      if negb is_initialized then -1
      else if (50 <? length msg)%nat && memcmp_eq msg test_message 51 then 1
      else if (50 <? length msg)%nat
              && memcmp_eq msg (bytes_of_string "This is a test message that will be") 35
              && memcmp_eq (skipn 35 msg) (bytes_of_string " aigned with Falcon") 19
      then 0
      else if (length sig <? 1 + 16 + 32)%nat then 0
      else if negb (nth 0 sig 0 =? 0x30) then 0
      else
        let nonce := firstn 16 (skipn 1 sig) in
        let hmac_sig := skipn 16 (skipn 1 sig) in
        let msg_hash := SHA256 msg in
        let verification_key := SHA256 (firstn 32 pk) in
        let expected_hmac := HMAC.hmac_sha256 (firstn 32 verification_key) (msg_hash ++ nonce) in
        if negb (memcmp_eq hmac_sig expected_hmac 32) then 0 else 1
  | _, _, _ => -1
  end.

End Falcon.

(** ** quantum_zkp.c *)

Module QZKP.

Record qzkp_proof_t := {
  commitment : option bytes;
  challenge : option bytes;
  response : option bytes
}.

(** [epsilon] is a C double that no function reads; only [sample_count] is
    represented. *)
Record qzkp_verify_params_t := {
  sample_count : Z
}.

Definition qzkp_init (is_initialized : bool) (rand_poll : bool) : Z * bool :=
  if is_initialized then (0, is_initialized)
  else if negb rand_poll then (-1, is_initialized)
  else (0, true).

Definition qzkp_cleanup (is_initialized : bool) : bool := false.

(** [None] is the NULL result. *)
Definition qzkp_generate_proof (is_initialized : bool)
    (secret entropy : option bytes) (rand : option bytes) : option qzkp_proof_t :=
  match secret with
  | None => None
  | Some s =>
      if negb is_initialized || (length s =? 0)%nat then None
      else
        let commit_data := s ++ match entropy with Some e => e | None => [] end in
        let commit := SHA256 commit_data in
        match RAND_bytes 32 rand with
        | None => None
        | Some chal =>
            let response_data := s ++ chal in
            Some {| commitment := Some commit;
                    challenge := Some chal;
                    response := Some (SHA256 response_data) |}
        end
  end.

Definition qzkp_verify_proof (is_initialized : bool) (proof : option qzkp_proof_t)
    (public_input : option bytes) (params : option qzkp_verify_params_t) : bool :=
  match proof, params with
  | Some p, Some _ =>
      match commitment p, challenge p, response p with
      | Some _, Some chal, Some resp =>
          if negb is_initialized then false
          else
            (* assembled and freed again; the result does not depend on it *)
            let verify_data := match public_input with Some i => i | None => [] end ++ chal in
            (length resp =? SHA256_DIGEST_LENGTH)%nat
      | _, _, _ => false
      end
  | _, _ => false
  end.

(** The inner loop of [qzkp_apply_entanglement] for one state:
    [xor_result[j] ^= states[i][j]] for every [j < state_size].  A state
    shorter than [state_size] reads as zero past its end. *)
Definition xor_state (state_size : nat) (xor_result state : bytes) : bytes :=
  map (fun j => Z.lxor (nth j xor_result 0) (nth j state 0)) (seq 0 state_size).

(** [states] is the array of state pointers, [state_count] its length;
    [None] is the NULL result. *)
Definition qzkp_apply_entanglement (is_initialized : bool)
    (states : option (list bytes)) (state_size : nat) : option bytes :=
  match states with
  | None => None
  | Some sts =>
      if negb is_initialized || (length sts =? 0)%nat || (state_size =? 0)%nat then None
      else
        let xor_result := fold_left (xor_state state_size) sts (repeat 0 state_size) in
        Some (SHA256 xor_result)
  end.

(** One iteration of the sampling loop of [qzkp_probabilistic_encode], on
    the pair of the output buffer and the running hash.  [rand_byte i] is
    the byte the local variable holds after the [i]-th one-byte
    [RAND_bytes] call, whose return value the code does not look at. *)
Definition encode_sample (rand_byte : nat -> Z) (st : bytes * bytes) (i : nat)
    : bytes * bytes :=
  let '(encoded, hash) := st in
  let prob_byte := Z.lxor (nth (i mod SHA256_DIGEST_LENGTH) hash 0) (rand_byte i) in
  let encoded' :=
    if 127 <? prob_byte
    then <[(i / 8)%nat := Z.lor (nth (i / 8) encoded 0) (Z.shiftl 1 (Z.of_nat (i mod 8)))]>
           encoded
    else encoded in
  let hash' := if (i mod 16 =? 15)%nat then SHA256 hash else hash in
  (encoded', hash').

(** [samples] is a [size_t] small enough for [samples + 7] not to wrap. *)
Definition qzkp_probabilistic_encode (is_initialized : bool) (data : option bytes)
    (samples : nat) (rand_nonce : option bytes) (rand_byte : nat -> Z) : option bytes :=
  match data with
  | None => None
  | Some d =>
      if negb is_initialized || (length d =? 0)%nat || (samples =? 0)%nat then None
      else
        let encoded_size := ((samples + 7) / 8)%nat in
        let encoded := repeat 0 encoded_size in
        match RAND_bytes 16 rand_nonce with
        | None => None
        | Some nonce =>
            let hash := SHA256 (d ++ nonce) in
            Some (fst (fold_left (encode_sample rand_byte) (seq 0 samples) (encoded, hash)))
        end
  end.

End QZKP.

(** ** logical_entanglement.c *)

Module LE.

(** A node pointer is an address into the store; [deps] is the dependency
    array, [dep_count] its length, [hash_size] the length of [hash]. *)
Record entanglement_node_t := {
  data : option bytes;
  hash : option bytes;
  deps : list nat
}.

Record entanglement_graph_t := {
  nodes : option (list nat);
  root_hash : option bytes
}.

Abbreviation store := (list entanglement_node_t).

Definition set_hash (n : entanglement_node_t) (h : option bytes) : entanglement_node_t :=
  {| data := data n; hash := h; deps := deps n |}.

Definition set_data (n : entanglement_node_t) (d : option bytes) : entanglement_node_t :=
  {| data := d; hash := hash n; deps := deps n |}.

Definition set_deps (n : entanglement_node_t) (ds : list nat) : entanglement_node_t :=
  {| data := data n; hash := hash n; deps := ds |}.

Definition le_init (is_initialized : bool) : Z * bool :=
  if is_initialized then (0, is_initialized) else (0, true).

Definition le_cleanup (is_initialized : bool) : bool := false.

Definition le_create_node (is_initialized : bool) (s : store) (payload : option bytes)
    : option nat * store :=
  match payload with
  | None => (None, s)
  | Some d =>
      if negb is_initialized || (length d =? 0)%nat then (None, s)
      else (Some (length s), s ++ [{| data := Some d; hash := None; deps := [] |}])
  end.

(** A pointer that is not in the store is treated like NULL. *)
Definition le_add_dependency (is_initialized : bool) (realloc_ok : bool) (s : store)
    (node dependency : option nat) : Z * store :=
  match node, dependency with
  | Some p, Some d =>
      match s !! p with
      | None => (-1, s)
      | Some n =>
          if negb is_initialized then (-1, s)
          else if negb realloc_ok then (-2, s)
          else (0, <[p := set_deps n (deps n ++ [d])]> s)
      end
  | _, _ => (-1, s)
  end.

Definition le_create_graph (is_initialized : bool) (node_array : option (list nat))
    : option entanglement_graph_t :=
  match node_array with
  | None => None
  | Some ns =>
      if negb is_initialized || (length ns =? 0)%nat then None
      else Some {| nodes := Some ns; root_hash := None |}
  end.

(** [node->hash != NULL] for the node at address [p]. *)
Definition has_hash (s : store) (p : nat) : bool :=
  match s !! p with
  | Some n => negb (null (hash n))
  | None => false
  end.

(** The loop shared by both hash functions:
    [for (i...) if (!x[i]->hash) { r = le_calculate_node_hash(x[i]); if (r != 0) return r; }] *)
Fixpoint ensure_hashes (calc : store -> option nat -> option (Z * store))
    (ptrs : list nat) (s : store) : option (Z * store) :=
  match ptrs with
  | [] => Some (0, s)
  | p :: rest =>
      if has_hash s p then ensure_hashes calc rest s
      else
        match calc s (Some p) with
        | None => None
        | Some (r, s') => if r =? 0 then ensure_hashes calc rest s' else Some (r, s')
        end
  end.

(** The bytes fed by [SHA256_Update(&ctx, x[i]->hash, x[i]->hash_size)] over
    all [i]. *)
Definition hashes_of (s : store) (ptrs : list nat) : bytes :=
  flat_map (fun p => match s !! p with
                     | Some n => match hash n with Some h => h | None => [] end
                     | None => []
                     end) ptrs.

(** [fuel] bounds the recursion depth ([None]: out of fuel); [junk] is the
    indeterminate content of the 32 bytes [malloc] has just returned. *)
Fixpoint le_calculate_node_hash (fuel : nat) (is_initialized : bool) (junk : bytes)
    (s : store) (node : option nat) {struct fuel} : option (Z * store) :=
  match fuel with
  | O => None
  | S fuel' =>
      match node with
      | None => Some (-1, s)
      | Some p =>
          match s !! p with
          | None => Some (-1, s)
          | Some n =>
              match data n with
              | None => Some (-1, s)
              | Some d =>
                  if negb is_initialized then Some (-1, s)
                  else
                    let s1 := <[p := set_hash n (Some junk)]> s in
                    if (length (deps n) =? 0)%nat
                    then Some (0, <[p := set_hash n (Some (SHA256 d))]> s1)
                    else
                      match ensure_hashes (le_calculate_node_hash fuel' is_initialized junk)
                                          (deps n) s1 with
                      | None => None
                      | Some (r, s2) =>
                          if negb (r =? 0) then Some (r, s2)
                          else
                            let n2 := match s2 !! p with Some m => m | None => n end in
                            let d2 := match data n2 with Some x => x | None => [] end in
                            let h := SHA256 (d2 ++ hashes_of s2 (deps n2)) in
                            Some (0, <[p := set_hash n2 (Some h)]> s2)
                      end
              end
          end
      end
  end.

Definition le_calculate_root_hash (fuel : nat) (is_initialized : bool) (junk : bytes)
    (s : store) (graph : option entanglement_graph_t)
    : option (Z * store * option entanglement_graph_t) :=
  match graph with
  | None => Some (-1, s, graph)
  | Some g =>
      match nodes g with
      | None => Some (-1, s, graph)
      | Some ns =>
          if negb is_initialized || (length ns =? 0)%nat then Some (-1, s, graph)
          else
            let g0 := {| nodes := nodes g; root_hash := None |} in
            match ensure_hashes (le_calculate_node_hash fuel is_initialized junk) ns s with
            | None => None
            | Some (r, s1) =>
                if negb (r =? 0) then Some (r, s1, Some g0)
                else
                  Some (0, s1, Some {| nodes := nodes g;
                                       root_hash := Some (SHA256 (hashes_of s1 ns)) |})
            end
      end
  end.

Definition le_verify_graph (fuel : nat) (is_initialized : bool) (junk : bytes)
    (s : store) (graph : option entanglement_graph_t) : option (bool * store) :=
  match graph with
  | None => Some (false, s)
  | Some g =>
      match nodes g, root_hash g with
      | Some ns, Some root =>
          if negb is_initialized || (length ns =? 0)%nat then Some (false, s)
          else
            let temp_graph := {| nodes := nodes g; root_hash := None |} in
            match le_calculate_root_hash fuel is_initialized junk s (Some temp_graph) with
            | None => None
            | Some (r, s1, temp) =>
                if negb (r =? 0) then Some (false, s1)
                else
                  match temp with
                  | Some {| root_hash := Some trial |} =>
                      Some ((length root =? length trial)%nat
                            && memcmp_eq root trial (length root), s1)
                  | _ => Some (false, s1)
                  end
            end
      | _, _ => Some (false, s)
      end
  end.

(** [temp_node] is a local variable: it sits at the first unused address
    for the duration of the call and is dropped afterwards.  It shares the
    payload and the dependency array of [node] and starts without a hash. *)
Definition le_verify_node (fuel : nat) (is_initialized : bool) (junk : bytes)
    (s : store) (node : option nat) : option (bool * store) :=
  match node with
  | None => Some (false, s)
  | Some p =>
      match s !! p with
      | None => Some (false, s)
      | Some n =>
          match data n, hash n with
          | Some _, Some _ =>
              if negb is_initialized then Some (false, s)
              else
                let temp_node := {| data := data n; hash := None; deps := deps n |} in
                let temp := length s in
                match le_calculate_node_hash fuel is_initialized junk
                        (s ++ [temp_node]) (Some temp) with
                | None => None
                | Some (r, s1) =>
                    let s' := firstn temp s1 in
                    if negb (r =? 0) then Some (false, s')
                    else
                      match hash <$> (s1 !! p), hash <$> (s1 !! temp) with
                      | Some (Some h), Some (Some trial) =>
                          Some ((length h =? length trial)%nat
                                && memcmp_eq h trial (length h), s')
                      | _, _ => Some (false, s')
                      end
                end
          | _, _ => Some (false, s)
          end
      end
  end.

End LE.

(** ** crypto_adapter.c *)

Module Adapter.

Inductive key_type_t : Set :=
| KEY_TYPE_SYMMETRIC
| KEY_TYPE_KYBER
| KEY_TYPE_FALCON.

Definition key_type_eqb (a b : key_type_t) : bool :=
  match a, b with
  | KEY_TYPE_SYMMETRIC, KEY_TYPE_SYMMETRIC => true
  | KEY_TYPE_KYBER, KEY_TYPE_KYBER => true
  | KEY_TYPE_FALCON, KEY_TYPE_FALCON => true
  | _, _ => false
  end.

(** The [key_data] union, tagged by [type]: the symmetric variant holds a
    heap pointer and a size, the other two hold their keypair inline. *)
Inductive key_data_t : Type :=
| symmetric (key : option nat) (key_size : nat)
| kyber (kp : Kyber.kyber_keypair_t)
| falcon (kp : Falcon.falcon_keypair_t).

Record crypto_key_t := {
  key_id : option nat;
  key_id_size : nat;
  creation_time : Z;
  expiration_time : Z;
  key_data : key_data_t
}.

Definition type (k : crypto_key_t) : key_type_t :=
  match key_data k with
  | symmetric _ _ => KEY_TYPE_SYMMETRIC
  | kyber _ => KEY_TYPE_KYBER
  | falcon _ => KEY_TYPE_FALCON
  end.

(** The key structure after [memset(key, 0, sizeof(crypto_key_t))]. *)
Definition zeroed_key : crypto_key_t :=
  {| key_id := None; key_id_size := 0; creation_time := 0; expiration_time := 0;
     key_data := symmetric None 0 |}.

Record crypto_adapter_params_t := {
  use_pq_crypto : bool;
  use_hybrid : bool;
  key_storage_path : option string
}.

(** The static [adapter_state]. *)
Record adapter_state_t := {
  is_initialized : bool;
  state_use_pq_crypto : bool;
  state_use_hybrid : bool;
  state_key_storage_path : option string
}.

Definition adapter_state_initial : adapter_state_t :=
  {| is_initialized := false; state_use_pq_crypto := true;
     state_use_hybrid := true; state_key_storage_path := None |}.

(** Calls the adapter makes into the subsystems, in program order. *)
Inductive subsystem_call : Set :=
| call_qzkp_init | call_kyber_init | call_falcon_init
| call_qzkp_cleanup | call_kyber_cleanup | call_falcon_cleanup.

(** The process-wide state: the four subsystem flags, the adapter's own
    state, and the log of subsystem calls made so far. *)
Record world := {
  qzkp_initialized : bool;
  le_initialized : bool;
  kyber_initialized : bool;
  falcon_initialized : bool;
  adapter_state : adapter_state_t;
  calls : list subsystem_call
}.

Definition world_initial : world :=
  {| qzkp_initialized := false; le_initialized := false;
     kyber_initialized := false; falcon_initialized := false;
     adapter_state := adapter_state_initial; calls := [] |}.

(** What [RAND_poll] answers inside each of the three [*_init] functions. *)
Record rand_polls := {
  poll_qzkp : bool;
  poll_kyber : bool;
  poll_falcon : bool
}.

Definition qzkp_init (poll : bool) (w : world) : Z * world :=
  let '(r, f) := QZKP.qzkp_init (qzkp_initialized w) poll in
  (r, {| qzkp_initialized := f; le_initialized := le_initialized w;
         kyber_initialized := kyber_initialized w;
         falcon_initialized := falcon_initialized w;
         adapter_state := adapter_state w;
         calls := calls w ++ [call_qzkp_init] |}).

Definition kyber_init (poll : bool) (w : world) : Z * world :=
  let '(r, f) := Kyber.kyber_init (kyber_initialized w) poll in
  (r, {| qzkp_initialized := qzkp_initialized w; le_initialized := le_initialized w;
         kyber_initialized := f;
         falcon_initialized := falcon_initialized w;
         adapter_state := adapter_state w;
         calls := calls w ++ [call_kyber_init] |}).

Definition falcon_init (poll : bool) (w : world) : Z * world :=
  let '(r, f) := Falcon.falcon_init (falcon_initialized w) poll in
  (r, {| qzkp_initialized := qzkp_initialized w; le_initialized := le_initialized w;
         kyber_initialized := kyber_initialized w;
         falcon_initialized := f;
         adapter_state := adapter_state w;
         calls := calls w ++ [call_falcon_init] |}).

Definition qzkp_cleanup (w : world) : world :=
  {| qzkp_initialized := QZKP.qzkp_cleanup (qzkp_initialized w);
     le_initialized := le_initialized w;
     kyber_initialized := kyber_initialized w;
     falcon_initialized := falcon_initialized w;
     adapter_state := adapter_state w;
     calls := calls w ++ [call_qzkp_cleanup] |}.

Definition kyber_cleanup (w : world) : world :=
  {| qzkp_initialized := qzkp_initialized w;
     le_initialized := le_initialized w;
     kyber_initialized := Kyber.kyber_cleanup (kyber_initialized w);
     falcon_initialized := falcon_initialized w;
     adapter_state := adapter_state w;
     calls := calls w ++ [call_kyber_cleanup] |}.

Definition falcon_cleanup (w : world) : world :=
  {| qzkp_initialized := qzkp_initialized w;
     le_initialized := le_initialized w;
     kyber_initialized := kyber_initialized w;
     falcon_initialized := Falcon.falcon_cleanup (falcon_initialized w);
     adapter_state := adapter_state w;
     calls := calls w ++ [call_falcon_cleanup] |}.

Definition set_adapter_state (w : world) (a : adapter_state_t) : world :=
  {| qzkp_initialized := qzkp_initialized w;
     le_initialized := le_initialized w;
     kyber_initialized := kyber_initialized w;
     falcon_initialized := falcon_initialized w;
     adapter_state := a;
     calls := calls w |}.

Definition crypto_adapter_init (params : option crypto_adapter_params_t)
    (polls : rand_polls) (w : world) : Z * world :=
  if is_initialized (adapter_state w) then (0, w)
  else
    match params with
    | None => (-1, w)
    | Some p =>
        let store_configuration (w' : world) : Z * world :=
          (0, set_adapter_state w'
                {| is_initialized := true;
                   state_use_pq_crypto := use_pq_crypto p;
                   state_use_hybrid := use_hybrid p;
                   state_key_storage_path := key_storage_path p |}) in
        let '(result, w1) := qzkp_init (poll_qzkp polls) w in
        if negb (result =? 0) then (result, w1)
        else if use_pq_crypto p then
          let '(result, w2) := kyber_init (poll_kyber polls) w1 in
          if negb (result =? 0) then (result, qzkp_cleanup w2)
          else
            let '(result, w3) := falcon_init (poll_falcon polls) w2 in
            if negb (result =? 0) then (result, qzkp_cleanup (kyber_cleanup w3))
            else store_configuration w3
        else store_configuration w1
    end.

Definition crypto_adapter_cleanup (w : world) : world :=
  if negb (is_initialized (adapter_state w)) then w
  else
    let w1 := if state_use_pq_crypto (adapter_state w)
              then kyber_cleanup (falcon_cleanup w) else w in
    set_adapter_state (qzkp_cleanup w1) adapter_state_initial.

(** [key->expiration_time > 0 && key->expiration_time < (uint64_t)time(NULL)] *)
Definition expired (k : crypto_key_t) (now : Z) : bool :=
  (0 <? expiration_time k) && (expiration_time k <? now mod 2 ^ 64).

Definition falcon_keypair_of (k : crypto_key_t) : Falcon.falcon_keypair_t :=
  match key_data k with
  | falcon kp => kp
  | _ => {| Falcon.public_key := []; Falcon.secret_key := [] |}
  end.

Definition kyber_keypair_of (k : crypto_key_t) : Kyber.kyber_keypair_t :=
  match key_data k with
  | kyber kp => kp
  | _ => {| Kyber.public_key := []; Kyber.secret_key := [] |}
  end.

(** [signature_len] is read and written: [Some n] is a pointer to the value
    [n].  The result is the return code, the bytes stored in the signature
    buffer and the value stored to [*signature_len], if any. *)
Definition crypto_sign_message (w : world) (signature : out_ptr) (signature_len : option Z)
    (message : option bytes) (key : option crypto_key_t) (now : Z)
    (entropy : option bytes) : Z * bytes * option Z :=
  match signature_len, message, key with
  | Some len, Some _, Some k =>
      if negb (is_initialized (adapter_state w)) || out_null signature then (-1, [], None)
      else if negb (key_type_eqb (type k) KEY_TYPE_FALCON) then (-2, [], None)
      else if expired k now then (-3, [], None)
      else if len <? Z.of_nat Falcon.FALCON_SIGNATURE_MAX_BYTES then (-4, [], None)
      else
        Falcon.falcon_sign (falcon_initialized w) signature out_buffer message
          (Some (Falcon.secret_key (falcon_keypair_of k))) entropy
  | _, _, _ => (-1, [], None)
  end.

Definition crypto_verify_signature (w : world) (signature message : option bytes)
    (key : option crypto_key_t) (now : Z) : Z :=
  match signature, message, key with
  | Some _, Some msg, Some k =>
      if negb (is_initialized (adapter_state w)) then -1
      else if negb (key_type_eqb (type k) KEY_TYPE_FALCON) then -2
      else if expired k now then -3
      else if (10 <? length msg)%nat
              && memcmp_eq msg (bytes_of_string "This is a test message for the crypto adapter") 44
      then 1
      else
        Falcon.falcon_verify (falcon_initialized w) signature message
          (Some (Falcon.public_key (falcon_keypair_of k)))
  | _, _, _ => -1
  end.

(** What [crypto_establish_key] returns and stores through its four output
    pointers ([None]: nothing stored). *)
Record establish_result := {
  est_code : Z;
  est_shared_secret : option bytes;
  est_shared_secret_len : option Z;
  est_ciphertext : option bytes;
  est_ciphertext_len : option Z
}.

Definition establish_failed (code : Z) : establish_result :=
  {| est_code := code; est_shared_secret := None; est_shared_secret_len := None;
     est_ciphertext := None; est_ciphertext_len := None |}.

Definition crypto_establish_key (w : world)
    (shared_secret shared_secret_len ciphertext ciphertext_len : out_ptr)
    (recipient_key : option crypto_key_t) (now : Z) (entropy : option bytes)
    : establish_result :=
  match recipient_key with
  | None => establish_failed (-1)
  | Some k =>
      if negb (is_initialized (adapter_state w)) || out_null shared_secret
         || out_null shared_secret_len
      then establish_failed (-1)
      else if negb (key_type_eqb (type k) KEY_TYPE_KYBER) then establish_failed (-2)
      else if expired k now then establish_failed (-3)
      else
        (* a NULL ciphertext pointer is replaced by a temporary buffer *)
        let '(result, out) :=
          Kyber.kyber_encapsulate (kyber_initialized w) out_buffer shared_secret
            (Some (Kyber.public_key (kyber_keypair_of k))) entropy in
        {| est_code := result;
           est_shared_secret := option_map snd out;
           est_shared_secret_len := Some (Z.of_nat Kyber.KYBER_SHARED_SECRET_BYTES);
           est_ciphertext := if out_null ciphertext then None else option_map fst out;
           est_ciphertext_len :=
             if out_null ciphertext_len then None
             else Some (Z.of_nat Kyber.KYBER_CIPHERTEXT_BYTES) |}
  end.

Definition crypto_receive_key (w : world) (shared_secret shared_secret_len : out_ptr)
    (ciphertext : option bytes) (recipient_key : option crypto_key_t) (now : Z)
    : Z * option bytes * option Z :=
  match ciphertext, recipient_key with
  | Some ct, Some k =>
      if negb (is_initialized (adapter_state w)) || out_null shared_secret
         || out_null shared_secret_len
      then (-1, None, None)
      else if negb (key_type_eqb (type k) KEY_TYPE_KYBER) then (-2, None, None)
      else if expired k now then (-3, None, None)
      else if negb (length ct =? Kyber.KYBER_CIPHERTEXT_BYTES)%nat then (-4, None, None)
      else
        let '(result, out) :=
          Kyber.kyber_decapsulate (kyber_initialized w) shared_secret ciphertext
            (Some (Kyber.secret_key (kyber_keypair_of k))) in
        (result, out, Some (Z.of_nat Kyber.KYBER_SHARED_SECRET_BYTES))
  | _, _ => (-1, None, None)
  end.

(** The placeholder proof built when [qzkp_generate_proof] returns NULL. *)
Definition mock_proof : QZKP.qzkp_proof_t :=
  {| QZKP.commitment := Some (repeat 0xAA 32);
     QZKP.challenge := Some (repeat 0xBB 16);
     QZKP.response := Some (repeat 0xCC 64) |}.

Definition field (f : option bytes) : bytes :=
  match f with Some b => b | None => [] end.

(** [adapter_state.use_pq_crypto && key && key->type == KEY_TYPE_FALCON]:
    the guard of the signature branch in both proof functions. *)
Definition signing_mode (w : world) (key : option crypto_key_t) : bool :=
  state_use_pq_crypto (adapter_state w)
  && match key with
     | Some k => key_type_eqb (type k) KEY_TYPE_FALCON
     | None => false
     end.

(** [rand_challenge] feeds [qzkp_generate_proof], [rand_nonce] feeds
    [falcon_sign].  The result is the return code and [*proof]. *)
Definition crypto_generate_zkproof (w : world) (proof : out_ptr)
    (secret public_input : option bytes) (key : option crypto_key_t)
    (rand_challenge rand_nonce : option bytes) : Z * option QZKP.qzkp_proof_t :=
  if negb (is_initialized (adapter_state w)) || out_null proof
     || null secret || null public_input
  then (-1, None)
  else
    let p :=
      match QZKP.qzkp_generate_proof (qzkp_initialized w) secret public_input rand_challenge with
      | Some p => p
      | None => mock_proof
      end in
    if signing_mode w key then
      let to_hash := field (QZKP.commitment p) ++ field (QZKP.challenge p)
                     ++ field (QZKP.response p) in
      let proof_hash := SHA256 to_hash in
      let original_response := field (QZKP.response p) in
      let sk := match key with
                | Some k => Falcon.secret_key (falcon_keypair_of k)
                | None => []
                end in
      let '(result, written, len) :=
        Falcon.falcon_sign (falcon_initialized w) out_buffer out_buffer
          (Some proof_hash) (Some sk) rand_nonce in
      let '(signature_len, signature) :=
        if negb (result =? 0) then (32, repeat 0xDD 32)
        else (match len with Some n => n | None => 0 end, written) in
      (0, Some {| QZKP.commitment := QZKP.commitment p;
                  QZKP.challenge := QZKP.challenge p;
                  QZKP.response :=
                    Some (original_response ++ size_t_bytes signature_len
                          ++ firstn (Z.to_nat signature_len) signature) |})
    else (0, Some p).

Definition test_public_input : bytes :=
  bytes_of_string "public_input_for_verification".

Definition crypto_verify_zkproof (w : world) (proof : option QZKP.qzkp_proof_t)
    (public_input : option bytes) (key : option crypto_key_t)
    (params : option QZKP.qzkp_verify_params_t) : Z :=
  match proof, public_input, params with
  | Some p, Some input, Some _ =>
      if negb (is_initialized (adapter_state w)) then -1
      else
        match QZKP.commitment p, QZKP.challenge p, QZKP.response p with
        | Some commit, Some chal, Some resp =>
            if (length commit =? 0)%nat || (length chal =? 0)%nat || (length resp =? 0)%nat
            then 0
            else
              let test_input_len := length test_public_input in
              if (length input =? test_input_len)%nat
                 && negb (memcmp_eq input test_public_input test_input_len)
              then 0
              else if signing_mode w key then
                if (length resp <? 32)%nat then 0
                else
                  let original_response_size := (length resp / 2)%nat in
                  let signature_len := (length resp - original_response_size)%nat in
                  let to_hash := commit ++ chal ++ firstn original_response_size resp in
                  (* hashed, and the digest is not used afterwards *)
                  let proof_hash := SHA256 to_hash in
                  if (length input =? length test_public_input)%nat
                     && memcmp_eq input test_public_input (length input)
                  then 1
                  else 1
              else 1
        | _, _, _ => 0
        end
  | _, _, _ => -1
  end.

(** A heap block: still allocated, or released by [free] together with the
    bytes it held at that moment. *)
Inductive block : Type :=
| Live (contents : bytes)
| Released (last_contents : bytes).

Abbreviation heap := (list block).

Definition free (h : heap) (a : nat) : heap :=
  match h !! a with
  | Some (Live c) => <[a := Released c]> h
  | _ => h
  end.

(** [memset(p, c, n)] through a pointer into the heap. *)
Definition heap_memset (h : heap) (a : nat) (c : Z) (n : nat) : heap :=
  match h !! a with
  | Some (Live b) => <[a := Live (memset b c n)]> h
  | _ => h
  end.

(** The result is the heap and the key structure after the call. *)
Definition crypto_free_key (h : heap) (key : option crypto_key_t)
    : heap * option crypto_key_t :=
  match key with
  | None => (h, None)
  | Some k =>
      let h1 := match key_id k with
                | Some a => free h a
                | None => h
                end in
      let h2 := match key_data k with
                | symmetric (Some a) key_size => free (heap_memset h1 a 0 key_size) a
                | symmetric None _ => h1
                | kyber _ => h1
                | falcon _ => h1
                end in
      (h2, Some zeroed_key)
  end.

(** [malloc(n)]: a new block at the first unused address, holding the first
    [n] bytes of [junk], the indeterminate content of fresh memory.  The
    allocation is taken to succeed. *)
Definition malloc (h : heap) (junk : bytes) (n : nat) : nat * heap :=
  (length h, h ++ [Live (firstn n junk)]).

(** The result is the return code, the heap, [*key_id] and [*key_id_size]. *)
Definition generate_key_id (h : heap) (junk : bytes) (entropy : option bytes)
    : Z * heap * option nat * nat :=
  let key_id_size := 16%nat in
  let '(a, h1) := malloc h junk key_id_size in
  match RAND_bytes key_id_size entropy with
  | None => (-2, free h1 a, None, key_id_size)
  | Some id => (0, <[a := Live id]> h1, Some a, key_id_size)
  end.

(** The key structure after [memset(key, 0, sizeof(crypto_key_t))] and
    [key->type = key_type]. *)
Definition blank_key (key_type : key_type_t) : crypto_key_t :=
  {| key_id := None; key_id_size := 0; creation_time := 0; expiration_time := 0;
     key_data :=
       match key_type with
       | KEY_TYPE_SYMMETRIC => symmetric None 0
       | KEY_TYPE_KYBER =>
           kyber {| Kyber.public_key := repeat 0 Kyber.KYBER_PUBLIC_KEY_BYTES;
                    Kyber.secret_key := repeat 0 Kyber.KYBER_SECRET_KEY_BYTES |}
       | KEY_TYPE_FALCON =>
           falcon {| Falcon.public_key := repeat 0 Falcon.FALCON_PUBLIC_KEY_BYTES;
                     Falcon.secret_key := repeat 0 Falcon.FALCON_SECRET_KEY_BYTES |}
       end |}.

Definition with_key_data (k : crypto_key_t) (d : key_data_t) : crypto_key_t :=
  {| key_id := key_id k; key_id_size := key_id_size k;
     creation_time := creation_time k; expiration_time := expiration_time k;
     key_data := d |}.

(** [key_type] ranges over the three enumerators, so the [default] branch
    of the switch is not reached.  [expires_in_seconds] is a [uint64_t],
    [now] is what [time(NULL)] answers, [rand_id] feeds the key id and
    [rand_key] the key material.  The result is the return code, the heap
    and the key structure ([None]: not written). *)
Definition crypto_generate_key (w : world) (h : heap) (key_type : key_type_t)
    (key : out_ptr) (expires_in_seconds : Z) (now : Z) (junk : bytes)
    (rand_id rand_key : option bytes) : Z * heap * option crypto_key_t :=
  if negb (is_initialized (adapter_state w)) || out_null key then (-1, h, None)
  else
    let k0 := blank_key key_type in
    let '(result, h1, id, id_size) := generate_key_id h junk rand_id in
    let k1 := {| key_id := id; key_id_size := id_size;
                 creation_time := 0; expiration_time := 0;
                 key_data := key_data k0 |} in
    if negb (result =? 0) then (result, h1, Some k1)
    else
      let creation := now mod 2 ^ 64 in
      let k2 := {| key_id := id; key_id_size := id_size;
                   creation_time := creation;
                   expiration_time :=
                     if 0 <? expires_in_seconds
                     then (creation + expires_in_seconds) mod 2 ^ 64
                     else 0;
                   key_data := key_data k0 |} in
      let free_key_id (h' : heap) : heap :=
        match id with Some a => free h' a | None => h' end in
      match key_type with
      | KEY_TYPE_SYMMETRIC =>
          let '(a, h2) := malloc h1 junk 32 in
          let k3 := with_key_data k2 (symmetric (Some a) 32) in
          match RAND_bytes 32 rand_key with
          | None => (-3, free_key_id (free h2 a), Some k3)
          | Some material => (0, <[a := Live material]> h2, Some k3)
          end
      | KEY_TYPE_KYBER =>
          if negb (state_use_pq_crypto (adapter_state w)) then (-4, free_key_id h1, Some k2)
          else
            match Kyber.kyber_keygen (kyber_initialized w) out_buffer rand_key with
            | (result, Some kp) =>
                if negb (result =? 0) then (result, free_key_id h1, Some k2)
                else (0, h1, Some (with_key_data k2 (kyber kp)))
            | (result, None) =>
                if negb (result =? 0) then (result, free_key_id h1, Some k2)
                else (0, h1, Some k2)
            end
      | KEY_TYPE_FALCON =>
          if negb (state_use_pq_crypto (adapter_state w)) then (-4, free_key_id h1, Some k2)
          else
            match Falcon.falcon_keygen (falcon_initialized w) out_buffer rand_key with
            | (result, Some kp) =>
                if negb (result =? 0) then (result, free_key_id h1, Some k2)
                else (0, h1, Some (with_key_data k2 (falcon kp)))
            | (result, None) =>
                if negb (result =? 0) then (result, free_key_id h1, Some k2)
                else (0, h1, Some k2)
            end
      end.

End Adapter.

(** ** hydra_cgo.c *)

Module Hydra.

(** The static [hydra_initialized] beside the state of the modules below. *)
Record hydra_state := {
  hydra_initialized : bool;
  engines : Adapter.world
}.

Definition hydra_state_initial : hydra_state :=
  {| hydra_initialized := false; engines := Adapter.world_initial |}.

(** [le_init] and [le_cleanup] on the process-wide state.  The call log has
    no entry for the entanglement engine. *)
Definition le_init (w : Adapter.world) : Z * Adapter.world :=
  let '(r, f) := LE.le_init (Adapter.le_initialized w) in
  (r, {| Adapter.qzkp_initialized := Adapter.qzkp_initialized w;
         Adapter.le_initialized := f;
         Adapter.kyber_initialized := Adapter.kyber_initialized w;
         Adapter.falcon_initialized := Adapter.falcon_initialized w;
         Adapter.adapter_state := Adapter.adapter_state w;
         Adapter.calls := Adapter.calls w |}).

Definition le_cleanup (w : Adapter.world) : Adapter.world :=
  {| Adapter.qzkp_initialized := Adapter.qzkp_initialized w;
     Adapter.le_initialized := LE.le_cleanup (Adapter.le_initialized w);
     Adapter.kyber_initialized := Adapter.kyber_initialized w;
     Adapter.falcon_initialized := Adapter.falcon_initialized w;
     Adapter.adapter_state := Adapter.adapter_state w;
     Adapter.calls := Adapter.calls w |}.

(** The parameters [hydra_init] passes to [crypto_adapter_init]. *)
Definition params : Adapter.crypto_adapter_params_t :=
  {| Adapter.use_pq_crypto := true; Adapter.use_hybrid := true;
     Adapter.key_storage_path := None |}.

(** [polls] is what [RAND_poll] answers in the three [*_init] calls made
    here, [adapter_polls] what it answers inside [crypto_adapter_init].
    The calls made here enter the call log like those of the adapter. *)
Definition hydra_init (polls adapter_polls : Adapter.rand_polls) (st : hydra_state)
    : Z * hydra_state :=
  if hydra_initialized st then (0, st)
  else
    let failed (r : Z) (w : Adapter.world) : Z * hydra_state :=
      (r, {| hydra_initialized := false; engines := w |}) in
    let '(result, w1) := Adapter.qzkp_init (Adapter.poll_qzkp polls) (engines st) in
    if negb (result =? 0) then failed result w1
    else
      let '(result, w2) := le_init w1 in
      if negb (result =? 0) then failed result (Adapter.qzkp_cleanup w2)
      else
        let '(result, w3) := Adapter.kyber_init (Adapter.poll_kyber polls) w2 in
        if negb (result =? 0) then failed result (Adapter.qzkp_cleanup (le_cleanup w3))
        else
          let '(result, w4) := Adapter.falcon_init (Adapter.poll_falcon polls) w3 in
          if negb (result =? 0)
          then failed result (Adapter.qzkp_cleanup (le_cleanup (Adapter.kyber_cleanup w4)))
          else
            let '(result, w5) := Adapter.crypto_adapter_init (Some params) adapter_polls w4 in
            if negb (result =? 0)
            then failed result
                   (Adapter.qzkp_cleanup
                      (le_cleanup (Adapter.kyber_cleanup (Adapter.falcon_cleanup w5))))
            else (0, {| hydra_initialized := true; engines := w5 |}).

Definition hydra_cleanup (st : hydra_state) : hydra_state :=
  if negb (hydra_initialized st) then st
  else
    {| hydra_initialized := false;
       engines :=
         Adapter.qzkp_cleanup
           (le_cleanup
              (Adapter.kyber_cleanup
                 (Adapter.falcon_cleanup (Adapter.crypto_adapter_cleanup (engines st))))) |}.

(** The [n] bytes a [memcpy] reads from a caller's buffer; a buffer shorter
    than [n] reads as zero past its end. *)
Definition read_bytes (n : nat) (src : bytes) : bytes :=
  firstn n src ++ repeat 0 (n - length src).

(** The bytes of a C string, up to its terminating NUL. *)
Fixpoint c_str (s : string) : bytes :=
  match s with
  | EmptyString => []
  | String c rest => if Ascii.eqb c zero then [] else byte_of_ascii c :: c_str rest
  end.

(** [latitude] and [longitude] are the 8 bytes of each [double] as
    [memcpy(data, &latitude, 8)] reads them.  The result is the return code
    and the 32 bytes stored to [output]. *)
Definition hydra_create_geolocation_commitment (st : hydra_state)
    (latitude longitude : bytes) (country_code region_code : option string)
    (output : out_ptr) : Z * option bytes :=
  match country_code, region_code with
  | Some cc, Some rc =>
      if negb (hydra_initialized st) || out_null output then (-1, None)
      else
        let cc_len := length (c_str cc) in
        let rc_len := length (c_str rc) in
        let data_size := (16 + cc_len + rc_len)%nat in
        let data := read_bytes 8 latitude ++ read_bytes 8 longitude ++ c_str cc ++ c_str rc in
        match QZKP.qzkp_apply_entanglement (Adapter.qzkp_initialized (engines st))
                (Some [data]) data_size with
        | None => (-3, None)
        | Some commitment => (0, Some (read_bytes 32 commitment))
        end
  | _, _ => (-1, None)
  end.

(** The result is the return code and the bytes stored to [public_key] and
    [secret_key]. *)
Definition hydra_generate_kyber_key (st : hydra_state) (public_key secret_key : out_ptr)
    (entropy : option bytes) : Z * option (bytes * bytes) :=
  if negb (hydra_initialized st) || out_null public_key || out_null secret_key
  then (-1, None)
  else
    match Kyber.kyber_keygen (Adapter.kyber_initialized (engines st)) out_buffer entropy with
    | (result, keypair) =>
        if negb (result =? 0) then (result, None)
        else
          match keypair with
          | Some kp =>
              (0, Some (read_bytes Kyber.KYBER_PUBLIC_KEY_BYTES (Kyber.public_key kp),
                        read_bytes Kyber.KYBER_SECRET_KEY_BYTES (Kyber.secret_key kp)))
          | None => (0, None)
          end
    end.

Definition hydra_generate_falcon_key (st : hydra_state) (public_key secret_key : out_ptr)
    (entropy : option bytes) : Z * option (bytes * bytes) :=
  if negb (hydra_initialized st) || out_null public_key || out_null secret_key
  then (-1, None)
  else
    match Falcon.falcon_keygen (Adapter.falcon_initialized (engines st)) out_buffer entropy with
    | (result, keypair) =>
        if negb (result =? 0) then (result, None)
        else
          match keypair with
          | Some kp =>
              (0, Some (read_bytes Falcon.FALCON_PUBLIC_KEY_BYTES (Falcon.public_key kp),
                        read_bytes Falcon.FALCON_SECRET_KEY_BYTES (Falcon.secret_key kp)))
          | None => (0, None)
          end
    end.

(** The local [crypto_key_t] the four wrappers below fill in: zeroed, typed,
    with one half of the keypair copied in. *)
Definition falcon_key (public_key secret_key : bytes) : Adapter.crypto_key_t :=
  {| Adapter.key_id := None; Adapter.key_id_size := 0;
     Adapter.creation_time := 0; Adapter.expiration_time := 0;
     Adapter.key_data :=
       Adapter.falcon {| Falcon.public_key := public_key; Falcon.secret_key := secret_key |} |}.

Definition kyber_key (public_key secret_key : bytes) : Adapter.crypto_key_t :=
  {| Adapter.key_id := None; Adapter.key_id_size := 0;
     Adapter.creation_time := 0; Adapter.expiration_time := 0;
     Adapter.key_data :=
       Adapter.kyber {| Kyber.public_key := public_key; Kyber.secret_key := secret_key |} |}.

(** [message_len] is the length of [message], [now] what [time(NULL)]
    answers inside the adapter.  The result is as for
    [crypto_sign_message]. *)
Definition hydra_sign_message (st : hydra_state) (message secret_key : option bytes)
    (signature : out_ptr) (signature_len : option Z) (now : Z) (entropy : option bytes)
    : Z * bytes * option Z :=
  match message, secret_key, signature_len with
  | Some msg, Some sk, Some _ =>
      if negb (hydra_initialized st) || (length msg =? 0)%nat || out_null signature
      then (-1, [], None)
      else
        let key := falcon_key (repeat 0 Falcon.FALCON_PUBLIC_KEY_BYTES)
                              (read_bytes Falcon.FALCON_SECRET_KEY_BYTES sk) in
        Adapter.crypto_sign_message (engines st) signature signature_len message
          (Some key) now entropy
  | _, _, _ => (-1, [], None)
  end.

Definition hydra_verify_signature (st : hydra_state) (message signature public_key : option bytes)
    (now : Z) : Z :=
  match message, signature, public_key with
  | Some msg, Some sig, Some pk =>
      if negb (hydra_initialized st) || (length msg =? 0)%nat || (length sig =? 0)%nat
      then -1
      else
        let key := falcon_key (read_bytes Falcon.FALCON_PUBLIC_KEY_BYTES pk)
                              (repeat 0 Falcon.FALCON_SECRET_KEY_BYTES) in
        Adapter.crypto_verify_signature (engines st) signature message (Some key) now
  | _, _, _ => -1
  end.

(** The result is the return code and the bytes stored to [shared_secret]
    and to [ciphertext]. *)
Definition hydra_establish_shared_key (st : hydra_state) (public_key : option bytes)
    (shared_secret ciphertext : out_ptr) (now : Z) (entropy : option bytes)
    : Z * option bytes * option bytes :=
  match public_key with
  | Some pk =>
      if negb (hydra_initialized st) || out_null shared_secret || out_null ciphertext
      then (-1, None, None)
      else
        let key := kyber_key (read_bytes Kyber.KYBER_PUBLIC_KEY_BYTES pk)
                             (repeat 0 Kyber.KYBER_SECRET_KEY_BYTES) in
        let r := Adapter.crypto_establish_key (engines st) shared_secret out_buffer
                   ciphertext out_buffer (Some key) now entropy in
        (Adapter.est_code r, Adapter.est_shared_secret r, Adapter.est_ciphertext r)
  | None => (-1, None, None)
  end.

(** The ciphertext is handed on with the constant length
    [KYBER_CIPHERTEXT_BYTES].  The result is the return code and the bytes
    stored to [shared_secret]. *)
Definition hydra_receive_shared_key (st : hydra_state) (secret_key ciphertext : option bytes)
    (shared_secret : out_ptr) (now : Z) : Z * option bytes :=
  match secret_key, ciphertext with
  | Some sk, Some ct =>
      if negb (hydra_initialized st) || out_null shared_secret then (-1, None)
      else
        let key := kyber_key (repeat 0 Kyber.KYBER_PUBLIC_KEY_BYTES)
                             (read_bytes Kyber.KYBER_SECRET_KEY_BYTES sk) in
        let '(result, secret, _) :=
          Adapter.crypto_receive_key (engines st) shared_secret out_buffer
            (Some (read_bytes Kyber.KYBER_CIPHERTEXT_BYTES ct)) (Some key) now in
        (result, secret)
  | _, _ => (-1, None)
  end.

(** The [size_t] read back from 8 bytes of a buffer (64-bit little-endian
    host), the converse of [size_t_bytes]. *)
Definition size_t_of_bytes (b : bytes) : Z :=
  fold_right (fun x acc => x + 256 * acc) 0 (read_bytes 8 b).

(** The layout [hydra_generate_zkproof] writes to [proof_out]: the three
    sizes, then the three fields. *)
Definition serialized (proof : QZKP.qzkp_proof_t) : bytes :=
  let commitment := Adapter.field (QZKP.commitment proof) in
  let challenge := Adapter.field (QZKP.challenge proof) in
  let response := Adapter.field (QZKP.response proof) in
  size_t_bytes (Z.of_nat (length commitment))
  ++ size_t_bytes (Z.of_nat (length challenge))
  ++ size_t_bytes (Z.of_nat (length response))
  ++ commitment ++ challenge ++ response.

(** [proof_len] is read and written: [Some n] is a pointer to the value
    [n].  [rand] feeds the challenge.  The result is the return code, the
    bytes stored to [proof_out] and the value stored to [*proof_len]. *)
Definition hydra_generate_zkproof (st : hydra_state) (secret public_input : option bytes)
    (proof_out : out_ptr) (proof_len : option Z) (rand : option bytes)
    : Z * option bytes * option Z :=
  match secret, public_input, proof_len with
  | Some s, Some _, Some len =>
      if negb (hydra_initialized st) || (length s =? 0)%nat || out_null proof_out
      then (-1, None, None)
      else
        match QZKP.qzkp_generate_proof (Adapter.qzkp_initialized (engines st))
                secret public_input rand with
        | None => (-2, None, None)
        | Some proof =>
            let total_size :=
              Z.of_nat (8 * 3
                        + length (Adapter.field (QZKP.commitment proof))
                        + length (Adapter.field (QZKP.challenge proof))
                        + length (Adapter.field (QZKP.response proof))) in
            if len <? total_size then (-3, None, Some total_size)
            else (0, Some (serialized proof), Some total_size)
        end
  | _, _, _ => (-1, None, None)
  end.

(** [proof_len] is the length of [proof_data].  The three sizes come from
    the buffer and their sum is formed in [size_t]; allocations are taken to
    succeed.  [None]: the sizes run past the end of [proof_data], the copies
    read outside the caller's buffer. *)
Definition hydra_verify_zkproof (st : hydra_state) (proof_data public_input : option bytes)
    : option Z :=
  match proof_data, public_input with
  | Some buf, Some _ =>
      if negb (hydra_initialized st) || (length buf <? 3 * 8)%nat then Some (-1)
      else
        let commit_size := size_t_of_bytes buf in
        let challenge_size := size_t_of_bytes (skipn 8 buf) in
        let response_size := size_t_of_bytes (skipn 16 buf) in
        let expected_size :=
          (3 * 8 + commit_size + challenge_size + response_size) mod 2 ^ 64 in
        if Z.of_nat (length buf) <? expected_size then Some (-2)
        else if Z.of_nat (length buf) <? 3 * 8 + commit_size + challenge_size + response_size
        then None
        else
          let data := skipn (3 * 8) buf in
          let commitment := firstn (Z.to_nat commit_size) data in
          let data := skipn (Z.to_nat commit_size) data in
          let challenge := firstn (Z.to_nat challenge_size) data in
          let data := skipn (Z.to_nat challenge_size) data in
          let response := firstn (Z.to_nat response_size) data in
          let proof := {| QZKP.commitment := Some commitment;
                          QZKP.challenge := Some challenge;
                          QZKP.response := Some response |} in
          let params := {| QZKP.sample_count := 100 |} in
          let result :=
            QZKP.qzkp_verify_proof (Adapter.qzkp_initialized (engines st))
              (Some proof) public_input (Some params) in
          Some (if result then 1 else 0)
  | _, _ => Some (-1)
  end.

(** The first loop of [hydra_create_entanglement]: one node per data item;
    [None] as soon as [le_create_node] returns NULL.  An item is [None] when
    its pointer is NULL. *)
Fixpoint create_nodes (le_initialized : bool) (s : LE.store) (items : list (option bytes))
    : option (list nat) * LE.store :=
  match items with
  | [] => (Some [], s)
  | item :: rest =>
      match LE.le_create_node le_initialized s item with
      | (None, s') => (None, s')
      | (Some node, s') =>
          match create_nodes le_initialized s' rest with
          | (Some nodes, s'') => (Some (node :: nodes), s'')
          | (None, s'') => (None, s'')
          end
      end
  end.

(** The second loop: [le_add_dependency(nodes[i], nodes[i-1])] for
    [i = 1 .. count-1], stopping at the first failure; [realloc] is taken to
    succeed. *)
Fixpoint chain_dependencies (le_initialized : bool) (s : LE.store) (nodes : list nat)
    : Z * LE.store :=
  match nodes with
  | previous :: rest =>
      match rest with
      | node :: _ =>
          let '(r, s') :=
            LE.le_add_dependency le_initialized true s (Some node) (Some previous) in
          if negb (r =? 0) then (r, s') else chain_dependencies le_initialized s' rest
      | [] => (0, s)
      end
  | [] => (0, s)
  end.

(** [data_items], [data_lengths] and [count] together are the list of
    items ([None]: one of the two array pointers is NULL).  Every node made
    here is released again before the function returns, so the nodes live
    in a store of their own, and the result is the return code and the
    bytes stored to [output].  [fuel] and [junk] are those of
    [le_calculate_node_hash]. *)
Definition hydra_create_entanglement (fuel : nat) (junk : bytes) (st : hydra_state)
    (data_items : option (list (option bytes))) (output : out_ptr)
    : option (Z * option bytes) :=
  match data_items with
  | None => Some (-1, None)
  | Some items =>
      if negb (hydra_initialized st) || (length items =? 0)%nat || out_null output
      then Some (-1, None)
      else
        let le_initialized := Adapter.le_initialized (engines st) in
        match create_nodes le_initialized [] items with
        | (None, _) => Some (-3, None)
        | (Some nodes, s) =>
            let '(r, s1) := chain_dependencies le_initialized s nodes in
            if negb (r =? 0) then Some (-4, None)
            else
              match LE.le_create_graph le_initialized (Some nodes) with
              | None => Some (-5, None)
              | Some graph =>
                  match LE.le_calculate_root_hash fuel le_initialized junk s1 (Some graph) with
                  | None => None
                  | Some (result, _, graph') =>
                      if negb (result =? 0) then Some (result, None)
                      else
                        Some (0, match graph' with
                                 | Some g => LE.root_hash g
                                 | None => None
                                 end)
                  end
              end
        end
  end.

Definition hydra_verify_entanglement (fuel : nat) (junk : bytes) (st : hydra_state)
    (data_items : option (list (option bytes))) (entanglement_hash : option bytes)
    : option Z :=
  match data_items, entanglement_hash with
  | Some items, Some expected =>
      if negb (hydra_initialized st) || (length items =? 0)%nat then Some (-1)
      else
        match hydra_create_entanglement fuel junk st data_items out_buffer with
        | None => None
        | Some (result, calculated) =>
            if negb (result =? 0) then Some result
            else
              let calculated_hash := match calculated with Some c => c | None => [] end in
              Some (if memcmp_eq calculated_hash expected 32 then 1 else 0)
        end
  | _, _ => Some (-1)
  end.

End Hydra.

(** ** Callers' actions on shared data, and concrete inputs *)

(** Flip bit [bit] of byte [i] of a buffer. *)
Definition flip_bit (i : nat) (bit : Z) (m : bytes) : bytes :=
  match m !! i with
  | Some b => <[i := Z.lxor b (Z.shiftl 1 bit)]> m
  | None => m
  end.

(** A caller writing new payload bytes through [node->data], as the
    tampering step of tests/test_logical_entanglement.c does with [memcpy]. *)
Definition overwrite_data (s : LE.store) (p : nat) (d : bytes) : LE.store :=
  match s !! p with
  | Some n => <[p := LE.set_data n (Some d)]> s
  | None => s
  end.

Module Sample.

(** A reproducible stand-in for what the entropy source delivers. *)
Definition entropy (n : nat) (a b : Z) : bytes :=
  map (fun i => (a * Z.of_nat i + b) mod 256) (seq 0 n).

Definition kyber_seed : bytes := entropy 32 7 3.

(** The keypairs and the encapsulation below are stored evaluated. *)
Definition kyber_keypair : Kyber.kyber_keypair_t :=
  Eval vm_compute in
    match snd (Kyber.kyber_keygen true out_buffer (Some kyber_seed)) with
    | Some kp => kp
    | None => {| Kyber.public_key := []; Kyber.secret_key := [] |}
    end.

(** Ciphertext and shared secret of an encapsulation under the sample key,
    the entropy source having delivered [entropy 32 13 1]. *)
Definition kyber_ciphertext : bytes :=
  Eval vm_compute in
    match snd (Kyber.kyber_encapsulate true out_buffer out_buffer
                 (Some (Kyber.public_key kyber_keypair)) (Some (entropy 32 13 1))) with
    | Some out => fst out
    | None => []
    end.

Definition kyber_shared_secret : bytes :=
  Eval vm_compute in
    match snd (Kyber.kyber_encapsulate true out_buffer out_buffer
                 (Some (Kyber.public_key kyber_keypair)) (Some (entropy 32 13 1))) with
    | Some out => snd out
    | None => []
    end.

Definition falcon_keypair : Falcon.falcon_keypair_t :=
  Eval vm_compute in
    match snd (Falcon.falcon_keygen true out_buffer
                 (Some (entropy Falcon.FALCON_SECRET_KEY_BYTES 7 3))) with
    | Some kp => kp
    | None => {| Falcon.public_key := []; Falcon.secret_key := [] |}
    end.

(** The signature [falcon_sign] stores for [msg] under the sample key. *)
Definition falcon_signature (msg : bytes) : bytes :=
  snd (fst (Falcon.falcon_sign true out_buffer out_buffer (Some msg)
              (Some (Falcon.secret_key falcon_keypair)) (Some (entropy 16 11 5)))).

Definition hello_world : bytes := bytes_of_string "hello world".

End Sample.

(** ** Predicates used in the statements about the entanglement engine *)

(** A computation on stores that never drops a cached hash. *)
Definition keeps_hashes (calc : LE.store -> option nat -> option (Z * LE.store)) : Prop :=
  forall s node r s', calc s node = Some (r, s') ->
    forall q, LE.has_hash s q = true -> LE.has_hash s' q = true.

(** A computation on stores that leaves a hash on the node it succeeds on. *)
Definition hashes_on_success (calc : LE.store -> option nat -> option (Z * LE.store)) : Prop :=
  forall s p s', calc s (Some p) = Some (0, s') -> LE.has_hash s' p = true.

(** The number of nodes of a store that have no hash yet. *)
Definition hashless (s : LE.store) : nat :=
  length (filter (fun n => null (LE.hash n) = true) s).

(** A computation on stores that never adds a hashless node. *)
Definition never_more_hashless (calc : LE.store -> option nat -> option (Z * LE.store)) : Prop :=
  forall s node r s', calc s node = Some (r, s') -> (hashless s' <= hashless s)%nat.

(** A computation that returns on every node without a hash, as long as the
    store has fewer than [bound] hashless nodes. *)
Definition returns_below (bound : nat)
    (calc : LE.store -> option nat -> option (Z * LE.store)) : Prop :=
  forall s p, (hashless s < bound)%nat -> LE.has_hash s p = false ->
    exists r s', calc s (Some p) = Some (r, s').

(** Two stores that agree on every cached hash; payloads and dependency
    lists may differ. *)
Definition same_hashes (s s' : LE.store) : Prop :=
  forall p, LE.hash <$> (s !! p) = LE.hash <$> (s' !! p).

(** The scenario of tests/test_logical_entanglement.c: three nodes, node2
    depending on node1 and node3 on node1 and node2, all three hashed, then
    gathered in a graph. *)
Module TestLE.

Definition data1 : bytes := bytes_of_string "First piece of content that should be entangled".
Definition data2 : bytes := bytes_of_string "Second piece of content with logical dependencies".
Definition data3 : bytes := bytes_of_string "Third piece of content that forms part of the graph".

Definition junk : bytes := repeat 0xCD 32.

Definition hashed (s : LE.store) (p : nat) : LE.store :=
  match LE.le_calculate_node_hash 4 true junk s (Some p) with
  | Some (_, s') => s'
  | None => s
  end.

Definition nodes_built : LE.store :=
  let s := snd (LE.le_create_node true [] (Some data1)) in
  let s := snd (LE.le_create_node true s (Some data2)) in
  let s := snd (LE.le_create_node true s (Some data3)) in
  let s := snd (LE.le_add_dependency true true s (Some 1%nat) (Some 0%nat)) in
  let s := snd (LE.le_add_dependency true true s (Some 2%nat) (Some 0%nat)) in
  let s := snd (LE.le_add_dependency true true s (Some 2%nat) (Some 1%nat)) in
  hashed (hashed (hashed s 0) 1) 2.

Definition graph : option LE.entanglement_graph_t :=
  LE.le_create_graph true (Some [0; 1; 2]%nat).

Definition store_with_root : LE.store :=
  match LE.le_calculate_root_hash 4 true junk nodes_built graph with
  | Some (_, s, _) => s
  | None => nodes_built
  end.

Definition graph_with_root : option LE.entanglement_graph_t :=
  match LE.le_calculate_root_hash 4 true junk nodes_built graph with
  | Some (_, _, g) => g
  | None => graph
  end.

(** [tampered_data[10] = 'X'] *)
Definition tampered_data : bytes := <[10%nat := byte_of_ascii "X"]> data1.

End TestLE.

(** Adapter-level inputs: the world after a successful
    [crypto_adapter_init], and keys as [crypto_generate_key] lays them out
    (id buffer at heap address 0, creation time 1000). *)
Module Scenario.

Definition params : Adapter.crypto_adapter_params_t :=
  {| Adapter.use_pq_crypto := true; Adapter.use_hybrid := true;
     Adapter.key_storage_path := None |}.

Definition polls_ok : Adapter.rand_polls :=
  {| Adapter.poll_qzkp := true; Adapter.poll_kyber := true; Adapter.poll_falcon := true |}.

Definition world : Adapter.world :=
  snd (Adapter.crypto_adapter_init (Some params) polls_ok Adapter.world_initial).

Definition key_id_bytes : bytes := Sample.entropy 16 19 1.

Definition heap : Adapter.heap := [Adapter.Live key_id_bytes].

Definition falcon_key (expiration_time : Z) : Adapter.crypto_key_t :=
  {| Adapter.key_id := Some 0%nat; Adapter.key_id_size := 16;
     Adapter.creation_time := 1000; Adapter.expiration_time := expiration_time;
     Adapter.key_data := Adapter.falcon Sample.falcon_keypair |}.

Definition kyber_key (expiration_time : Z) : Adapter.crypto_key_t :=
  {| Adapter.key_id := Some 0%nat; Adapter.key_id_size := 16;
     Adapter.creation_time := 1000; Adapter.expiration_time := expiration_time;
     Adapter.key_data := Adapter.kyber Sample.kyber_keypair |}.

(** A symmetric key: 32 key bytes at heap address 1. *)
Definition symmetric_key_bytes : bytes := Sample.entropy 32 29 7.

Definition symmetric_heap : Adapter.heap :=
  [Adapter.Live key_id_bytes; Adapter.Live symmetric_key_bytes].

Definition symmetric_key : Adapter.crypto_key_t :=
  {| Adapter.key_id := Some 0%nat; Adapter.key_id_size := 16;
     Adapter.creation_time := 1000; Adapter.expiration_time := 0;
     Adapter.key_data := Adapter.symmetric (Some 1%nat) 32 |}.

Definition secret : bytes := bytes_of_string "s3cret".
Definition pub : bytes := bytes_of_string "pub".
Definition pub_tampered : bytes := bytes_of_string "pub-tampered".

(** 29 bytes, as long as the literal the verifier compares with, and
    different from it in the last byte. *)
Definition pub29 : bytes := bytes_of_string "public_input_for_verificatioN".

Definition challenge_entropy : bytes := Sample.entropy 32 5 9.
Definition nonce_entropy : bytes := Sample.entropy 16 11 5.

(** The proof [crypto_generate_zkproof] builds for [secret] and the given
    public input under the sample signing key. *)
Definition zkproof (public_input : bytes) : option QZKP.qzkp_proof_t :=
  snd (Adapter.crypto_generate_zkproof world out_buffer (Some secret) (Some public_input)
         (Some (falcon_key 0)) (Some challenge_entropy) (Some nonce_entropy)).

Definition verify_params : option QZKP.qzkp_verify_params_t :=
  Some {| QZKP.sample_count := 100 |}.

End Scenario.

(** ** Notions used in the statements about the remaining functions *)

(** The running hash of [qzkp_probabilistic_encode] when sample [k] is
    drawn: the seed, hashed again once for every 16 samples before [k]. *)
Definition encode_hash (seed : bytes) (k : nat) : bytes :=
  Nat.iter (k / 16) SHA256 seed.

(** Whether sample [i] sets its bit: the byte [i mod 32] of the running
    hash, XOR-ed with the drawn byte, exceeds 127. *)
Definition encode_bit (seed : bytes) (rand_byte : nat -> Z) (i : nat) : bool :=
  127 <? Z.lxor (nth (i mod SHA256_DIGEST_LENGTH) (encode_hash seed i) 0) (rand_byte i).

(** Bit [i mod 8] of byte [i / 8] of an encoding. *)
Definition bit_of (encoded : bytes) (i : nat) : bool :=
  Z.testbit (nth (i / 8) encoded 0) (Z.of_nat (i mod 8)).

(** Every dependency of [n], the node at address [p], is another node and
    has a digest. *)
Definition deps_hashed_apart (s : LE.store) (p : nat) (n : LE.entanglement_node_t) : bool :=
  forallb (fun q => negb (q =? p)%nat && LE.has_hash s q) (LE.deps n).

(** Small stores: a hashed leaf with a dependent node, hashed or not; a node
    that depends on itself; two nodes that depend on each other. *)
Module TestNodes.

Definition leaf : LE.entanglement_node_t :=
  {| LE.data := Some [1; 2]; LE.hash := Some (repeat 7 32); LE.deps := [] |}.

Definition dependent : LE.entanglement_node_t :=
  {| LE.data := Some [3]; LE.hash := None; LE.deps := [0%nat] |}.

Definition dependent_hashed : LE.entanglement_node_t :=
  {| LE.data := Some [3]; LE.hash := Some (repeat 9 32); LE.deps := [0%nat] |}.

Definition self_loop : LE.entanglement_node_t :=
  {| LE.data := Some [1; 2]; LE.hash := None; LE.deps := [0%nat] |}.

Definition two_cycle : LE.store :=
  [ {| LE.data := Some [1]; LE.hash := None; LE.deps := [1%nat] |};
    {| LE.data := Some [2]; LE.hash := None; LE.deps := [0%nat] |} ].

Definition junk : bytes := repeat 0xCD 32.

End TestNodes.

Definition released (b : Adapter.block) : bool :=
  match b with Adapter.Released _ => true | Adapter.Live _ => false end.

(** No block at address [n] or above is still allocated. *)
Definition no_live_from (n : nat) (h : Adapter.heap) : bool :=
  forallb released (skipn n h).

(** Every module behind the bridge of hydra_cgo.c is initialized. *)
Definition all_initialized (st : Hydra.hydra_state) : bool :=
  Hydra.hydra_initialized st
  && Adapter.qzkp_initialized (Hydra.engines st)
  && Adapter.le_initialized (Hydra.engines st)
  && Adapter.kyber_initialized (Hydra.engines st)
  && Adapter.falcon_initialized (Hydra.engines st)
  && Adapter.is_initialized (Adapter.adapter_state (Hydra.engines st)).

Module HydraScenario.

(** The state after a first, successful [hydra_init]. *)
Definition state : Hydra.hydra_state :=
  snd (Hydra.hydra_init Scenario.polls_ok Scenario.polls_ok Hydra.hydra_state_initial).

End HydraScenario.

(** The 44 bytes [crypto_verify_signature] compares the start of a message
    with. *)
Definition adapter_test_prefix : bytes :=
  bytes_of_string "This is a test message for the crypto adapte".

(** The digests of a chain of items: each item is hashed together with the
    digest of the item before it, the first one with nothing. *)
Fixpoint chain_hashes (previous : bytes) (items : list bytes) : list bytes :=
  match items with
  | [] => []
  | d :: rest => let h := SHA256 (d ++ previous) in h :: chain_hashes h rest
  end.

(** The digest of all the digests of the chain, in order. *)
Definition chain_root (items : list bytes) : bytes :=
  SHA256 (concat (chain_hashes [] items)).

(** An item [le_create_node] refuses: a NULL pointer or a zero length. *)
Definition refused_item (item : option bytes) : bool :=
  match item with
  | None => true
  | Some d => (length d =? 0)%nat
  end.

(** The stores [hydra_create_entanglement] goes through: a node as
    [le_create_node] leaves it; the nodes from address [a + 1] on, each
    depending on the node before it; the same nodes once hashed, [h] being
    the digest of the node at address [a]. *)
Definition fresh (d : bytes) : LE.entanglement_node_t :=
  {| LE.data := Some d; LE.hash := None; LE.deps := [] |}.

Fixpoint links (a : nat) (ds : list bytes) : LE.store :=
  match ds with
  | [] => []
  | d :: rest => {| LE.data := Some d; LE.hash := None; LE.deps := [a] |} :: links (S a) rest
  end.

Fixpoint hashed_links (h : bytes) (a : nat) (ds : list bytes) : LE.store :=
  match ds with
  | [] => []
  | d :: rest =>
      let h' := SHA256 (d ++ h) in
      {| LE.data := Some d; LE.hash := Some h'; LE.deps := [a] |}
        :: hashed_links h' (S a) rest
  end.

(** * Properties *)

(** ** The digest primitive *)

Lemma compress_length (h block : list Z) :
  length h = 8%nat -> length (SHA256.compress h block) = 8%nat.
Proof.
  intros Hh. unfold SHA256.compress.
  rewrite length_map, length_combine, Hh. reflexivity.
Qed.

Lemma absorb_length (k : nat) : forall h chunk,
  length h = 8%nat -> length (SHA256.absorb k h chunk) = 8%nat.
Proof.
  induction k as [|k IH]; intros h chunk Hh; simpl.
  - exact Hh.
  - apply IH. now apply compress_length.
Qed.

Lemma bytes_of_words_length (ws : list Z) :
  length (flat_map SHA256.bytes_of_word ws) = (4 * length ws)%nat.
Proof.
  induction ws as [|x ws IH]; simpl; [reflexivity | lia].
Qed.

Lemma SHA256_length (msg : bytes) : length (SHA256 msg) = SHA256_DIGEST_LENGTH.
Proof.
  unfold SHA256, SHA256.digest.
  rewrite bytes_of_words_length, absorb_length; reflexivity.
Qed.

(** The two primitives agree with the published test vectors: FIPS 180-4
    ("abc", and the 56-byte two-block message) and RFC 4231, test case 2. *)
Example SHA256_abc :
  SHA256 (bytes_of_string "abc")
  = [0xba; 0x78; 0x16; 0xbf; 0x8f; 0x01; 0xcf; 0xea; 0x41; 0x41; 0x40; 0xde; 0x5d; 0xae; 0x22; 0x23;
     0xb0; 0x03; 0x61; 0xa3; 0x96; 0x17; 0x7a; 0x9c; 0xb4; 0x10; 0xff; 0x61; 0xf2; 0x00; 0x15; 0xad].
Proof. vm_compute. reflexivity. Qed.

Example SHA256_two_blocks :
  SHA256 (bytes_of_string "abcdbcdecdefdefgefghfghighijhijkijkljklmklmnlmnomnopnopq")
  = [0x24; 0x8d; 0x6a; 0x61; 0xd2; 0x06; 0x38; 0xb8; 0xe5; 0xc0; 0x26; 0x93; 0x0c; 0x3e; 0x60; 0x39;
     0xa3; 0x3c; 0xe4; 0x59; 0x64; 0xff; 0x21; 0x67; 0xf6; 0xec; 0xed; 0xd4; 0x19; 0xdb; 0x06; 0xc1].
Proof. vm_compute. reflexivity. Qed.

Example HMAC_SHA256_rfc4231_case2 :
  HMAC.hmac_sha256 (bytes_of_string "Jefe") (bytes_of_string "what do ya want for nothing?")
  = [0x5b; 0xdc; 0xc1; 0x46; 0xbf; 0x60; 0x75; 0x4e; 0x6a; 0x04; 0x24; 0x26; 0x08; 0x95; 0x75; 0xc7;
     0x5a; 0x00; 0x3f; 0x08; 0x9d; 0x27; 0x39; 0x83; 0x9d; 0xec; 0x58; 0xb9; 0x64; 0xec; 0x38; 0x43].
Proof. vm_compute. reflexivity. Qed.

(** From here on the digest is a black box of known output length. *)
Global Opaque SHA256.

(** ** kyber.c *)

Lemma nth_map_seq {A : Type} (f : nat -> A) (d : A) (n i : nat) :
  (i < n)%nat -> nth i (map f (seq 0 n)) d = f i.
Proof.
  intros Hi.
  rewrite (nth_indep _ d (f 0%nat)) by (rewrite length_map, length_seq; exact Hi).
  rewrite (map_nth f (seq 0 n) 0%nat i), seq_nth by exact Hi.
  reflexivity.
Qed.

Lemma lxor_cancel_r (a b : Z) : Z.lxor (Z.lxor a b) b = a.
Proof. now rewrite Z.lxor_assoc, Z.lxor_nilpotent, Z.lxor_0_r. Qed.

(** The loop of [kyber_decapsulate] that "recovers" the ephemeral value from
    a ciphertext whose first bytes were masked with the same key stream gets
    back the masked value. *)
Lemma ephemeral_recovered (eph pk tail : bytes) (n : nat) :
  length eph = 32%nat -> (32 <= n)%nat ->
  map (fun i => Z.lxor
                  (nth i (map (fun j => Z.lxor (nth (j mod 32)%nat eph 0)
                                               (nth (j mod Kyber.KYBER_PUBLIC_KEY_BYTES)%nat pk 0))
                              (seq 0 n) ++ tail) 0)
                  (nth (i mod Kyber.KYBER_PUBLIC_KEY_BYTES)%nat pk 0))
      (seq 0 32)
  = eph.
Proof.
  intros Hlen Hn.
  apply (nth_ext _ _ 0 0).
  - now rewrite length_map, length_seq.
  - intros i Hi. rewrite length_map, length_seq in Hi.
    rewrite (nth_map_seq _ 0 32 i Hi).
    rewrite app_nth1 by (rewrite length_map, length_seq; lia).
    rewrite (nth_map_seq _ 0 n i) by lia.
    rewrite lxor_cancel_r, Nat.mod_small by exact Hi.
    reflexivity.
Qed.

Lemma fixed_ephemeral_length : length Kyber.fixed_ephemeral = 32%nat.
Proof. unfold Kyber.fixed_ephemeral. now rewrite length_map, length_seq. Qed.

(** C2.  Round trip of the key encapsulation: for a keypair made by
    [kyber_keygen], whenever [kyber_encapsulate] under the public key succeeds
    with ciphertext [ct] and secret [ss1], [kyber_decapsulate] of [ct] under
    the secret key succeeds and returns the very same 32 bytes. *)
Theorem kyber_roundtrip (st : bool) (seed_entropy encaps_entropy : option bytes)
    (kp : Kyber.kyber_keypair_t) (ct ss1 : bytes) :
  Kyber.kyber_keygen st out_buffer seed_entropy = (0, Some kp) ->
  Kyber.kyber_encapsulate st out_buffer out_buffer (Some (Kyber.public_key kp)) encaps_entropy
    = (0, Some (ct, ss1)) ->
  Kyber.kyber_decapsulate st out_buffer (Some ct) (Some (Kyber.secret_key kp)) = (0, Some ss1)
  /\ length ss1 = Kyber.KYBER_SHARED_SECRET_BYTES.
Proof.
  intros Hgen Henc.
  unfold Kyber.kyber_keygen in Hgen.
  destruct st; cbn [negb orb out_null] in Hgen; [|discriminate].
  destruct (RAND_bytes 32 seed_entropy) as [seed|]; [|discriminate].
  cbv zeta in Hgen.
  apply (f_equal snd) in Hgen; cbn [snd] in Hgen. apply (inj Some) in Hgen. subst kp.
  cbn [Kyber.public_key Kyber.secret_key] in *.
  unfold Kyber.kyber_encapsulate in Henc.
  cbn [negb orb out_null] in Henc.
  destruct (RAND_bytes 32 encaps_entropy) as [drawn|]; [|discriminate].
  cbv zeta in Henc.
  apply (f_equal snd) in Henc; cbn [snd] in Henc. apply (inj Some) in Henc.
  apply pair_equal_spec in Henc as [<- <-].
  unfold Kyber.kyber_decapsulate. cbn [negb orb out_null]. cbv zeta.
  rewrite ephemeral_recovered.
  - split; [reflexivity | apply SHA256_length].
  - apply fixed_ephemeral_length.
  - unfold Kyber.KYBER_CIPHERTEXT_BYTES. lia.
Qed.

Lemma kyber_roundtrip_witness :
  Kyber.kyber_keygen true out_buffer (Some Sample.kyber_seed) = (0, Some Sample.kyber_keypair)
  /\ Kyber.kyber_encapsulate true out_buffer out_buffer
       (Some (Kyber.public_key Sample.kyber_keypair)) (Some (Sample.entropy 32 13 1))
     = (0, Some (Sample.kyber_ciphertext, Sample.kyber_shared_secret))
  /\ (Kyber.kyber_decapsulate true out_buffer (Some Sample.kyber_ciphertext)
        (Some (Kyber.secret_key Sample.kyber_keypair))
      = (0, Some Sample.kyber_shared_secret)
      /\ length Sample.kyber_shared_secret = Kyber.KYBER_SHARED_SECRET_BYTES).
Proof.
  assert (Hgen : Kyber.kyber_keygen true out_buffer (Some Sample.kyber_seed)
                 = (0, Some Sample.kyber_keypair)) by (vm_compute; reflexivity).
  assert (Henc : Kyber.kyber_encapsulate true out_buffer out_buffer
                   (Some (Kyber.public_key Sample.kyber_keypair))
                   (Some (Sample.entropy 32 13 1))
                 = (0, Some (Sample.kyber_ciphertext, Sample.kyber_shared_secret)))
    by (vm_compute; reflexivity).
  split; [exact Hgen|]. split; [exact Henc|].
  exact (kyber_roundtrip true _ _ _ _ _ Hgen Henc).
Defined.

(** C10.  [kyber_encapsulate] is a function of the public key alone: two
    successful calls on the same key store the same ciphertext and the same
    shared secret whatever the entropy source delivered, the drawn value
    having been replaced by the bytes 1, 2, ..., 32. *)
Theorem kyber_encapsulate_deterministic (st1 st2 : bool) (public_key : option bytes)
    (entropy1 entropy2 : option bytes) (ct1 ss1 ct2 ss2 : bytes) :
  Kyber.kyber_encapsulate st1 out_buffer out_buffer public_key entropy1 = (0, Some (ct1, ss1)) ->
  Kyber.kyber_encapsulate st2 out_buffer out_buffer public_key entropy2 = (0, Some (ct2, ss2)) ->
  ct1 = ct2 /\ ss1 = ss2 /\ Kyber.fixed_ephemeral = map Z.of_nat (seq 1 32).
Proof.
  unfold Kyber.kyber_encapsulate.
  destruct public_key as [pk|]; [|discriminate].
  destruct st1; cbn [negb orb out_null]; [|discriminate].
  destruct st2; cbn [negb orb out_null]; [|discriminate].
  destruct (RAND_bytes 32 entropy1), (RAND_bytes 32 entropy2); try discriminate.
  cbv zeta. intros H1 H2.
  apply (f_equal snd) in H1, H2. cbn [snd] in H1, H2.
  apply (inj Some) in H1, H2.
  apply pair_equal_spec in H1 as [<- <-]. apply pair_equal_spec in H2 as [<- <-].
  repeat split.
Qed.

Lemma kyber_encapsulate_deterministic_witness :
  Kyber.kyber_encapsulate true out_buffer out_buffer
    (Some (Kyber.public_key Sample.kyber_keypair)) (Some (Sample.entropy 32 13 1))
  = (0, Some (Sample.kyber_ciphertext, Sample.kyber_shared_secret))
  /\ Kyber.kyber_encapsulate true out_buffer out_buffer
       (Some (Kyber.public_key Sample.kyber_keypair)) (Some (Sample.entropy 32 201 77))
     = (0, Some (Sample.kyber_ciphertext, Sample.kyber_shared_secret))
  /\ (Sample.kyber_ciphertext = Sample.kyber_ciphertext
      /\ Sample.kyber_shared_secret = Sample.kyber_shared_secret
      /\ Kyber.fixed_ephemeral = map Z.of_nat (seq 1 32)).
Proof.
  assert (H1 : Kyber.kyber_encapsulate true out_buffer out_buffer
                 (Some (Kyber.public_key Sample.kyber_keypair))
                 (Some (Sample.entropy 32 13 1))
               = (0, Some (Sample.kyber_ciphertext, Sample.kyber_shared_secret)))
    by (vm_compute; reflexivity).
  assert (H2 : Kyber.kyber_encapsulate true out_buffer out_buffer
                 (Some (Kyber.public_key Sample.kyber_keypair))
                 (Some (Sample.entropy 32 201 77))
               = (0, Some (Sample.kyber_ciphertext, Sample.kyber_shared_secret)))
    by (vm_compute; reflexivity).
  split; [exact H1|]. split; [exact H2|].
  exact (kyber_encapsulate_deterministic true true _ _ _ _ _ _ _ H1 H2).
Defined.

(** ** Buffer comparison *)

Lemma bytes_eqb_refl (a : bytes) : bytes_eqb a a = true.
Proof. induction a as [|x a IH]; simpl; [reflexivity|]. now rewrite Z.eqb_refl. Qed.

Lemma memcmp_eq_refl (a : bytes) : memcmp_eq a a (length a) = true.
Proof.
  unfold memcmp_eq. rewrite Nat.leb_refl. simpl. apply bytes_eqb_refl.
Qed.

Lemma bytes_eqb_eq (a b : bytes) : bytes_eqb a b = true <-> a = b.
Proof.
  revert b. induction a as [|x a IH]; intros [|y b]; simpl; split; try easy.
  - intros H. apply andb_prop in H as [Hxy Hab].
    apply Z.eqb_eq in Hxy. apply IH in Hab. congruence.
  - intros [= -> ->]. rewrite Z.eqb_refl. now apply IH.
Qed.

Lemma memcmp_eq_whole (a b : bytes) :
  length a = length b -> (memcmp_eq a b (length b) = true <-> a = b).
Proof.
  intros Hlen. unfold memcmp_eq.
  rewrite <- Hlen at 1 2. rewrite Nat.leb_refl, Hlen, Nat.leb_refl.
  rewrite <- Hlen at 1. rewrite !firstn_all. apply bytes_eqb_eq.
Qed.

(** ** falcon.c *)

Lemma hmac_sha256_length (key data : bytes) :
  length (HMAC.hmac_sha256 key data) = 32%nat.
Proof. unfold HMAC.hmac_sha256. apply SHA256_length. Qed.

(** What [falcon_verify] makes of a signature [falcon_sign] has just produced,
    for a message too short to reach the test-sentence branches: it is
    accepted exactly when the MAC keyed with the first 32 secret-key bytes
    equals the MAC keyed with the digest of the first 32 public-key bytes. *)
Lemma falcon_verify_of_sign (sk pk msg nonce : bytes) :
  length nonce = 16%nat -> (length msg <= 50)%nat ->
  exists signature,
    Falcon.falcon_sign true out_buffer out_buffer (Some msg) (Some sk) (Some nonce)
      = (0, signature, Some 49)
    /\ (Falcon.falcon_verify true (Some signature) (Some msg) (Some pk) = 1
        <-> HMAC.hmac_sha256 (firstn 32 sk) (SHA256 msg ++ nonce)
            = HMAC.hmac_sha256 (firstn 32 (SHA256 (firstn 32 pk))) (SHA256 msg ++ nonce)).
Proof.
  intros Hnonce Hmsg.
  set (mac := HMAC.hmac_sha256 (firstn 32 sk) (SHA256 msg ++ nonce)).
  set (expected := HMAC.hmac_sha256 (firstn 32 (SHA256 (firstn 32 pk))) (SHA256 msg ++ nonce)).
  assert (Hmac : length mac = 32%nat) by apply hmac_sha256_length.
  assert (Hexp : length expected = 32%nat) by apply hmac_sha256_length.
  exists ([0x30] ++ nonce ++ firstn 32 mac). split.
  - unfold Falcon.falcon_sign, RAND_bytes. cbn [negb orb out_null].
    rewrite Hnonce. reflexivity.
  - unfold Falcon.falcon_verify. cbn [negb].
    assert (Hshort : (50 <? length msg)%nat = false) by (apply Nat.ltb_ge; lia).
    rewrite Hshort. cbn [andb].
    assert (Htake : firstn 32 mac = mac) by (apply firstn_all2; lia).
    assert (Hnonce' : firstn 16 (nonce ++ mac) = nonce)
      by (rewrite <- Hnonce; apply take_app_length).
    assert (Hmac' : skipn 16 (nonce ++ mac) = mac)
      by (rewrite <- Hnonce; apply drop_app_length).
    assert (Hsig : length ([0x30] ++ nonce ++ mac) = 49%nat)
      by (rewrite !length_app, Hnonce, Hmac; reflexivity).
    rewrite Htake, Hsig.
    cbn [Nat.ltb Nat.leb Nat.add app nth Z.eqb Pos.eqb negb skipn].
    rewrite !drop_0, Hnonce', Hmac'.
    fold expected.
    pose proof (memcmp_eq_whole mac expected (eq_trans Hmac (eq_sym Hexp))) as Hcmp.
    rewrite Hexp in Hcmp.
    destruct (memcmp_eq mac expected 32) eqn:Hc; cbn [negb].
    + split; [intros _; now apply Hcmp | reflexivity].
    + split; [discriminate|]. intros Heq. apply Hcmp in Heq. discriminate.
Qed.

(** The literal-message short-circuit of [falcon_verify], in general: a
    message that starts with the first 51 bytes of the test sentence is
    reported valid whatever the signature, the public key and the rest of
    the message are. *)
Lemma falcon_verify_test_sentence (signature rest public_key : bytes) :
  Falcon.falcon_verify true (Some signature)
    (Some (firstn 51 Falcon.test_message ++ rest)) (Some public_key) = 1.
Proof.
  unfold Falcon.falcon_verify. cbn [negb].
  assert (Hlen : (50 <? length (firstn 51 Falcon.test_message ++ rest))%nat = true).
  { apply Nat.ltb_lt. rewrite length_app.
    change (length (firstn 51 Falcon.test_message)) with 51%nat. lia. }
  assert (Hcmp : memcmp_eq (firstn 51 Falcon.test_message ++ rest) Falcon.test_message 51 = true).
  { unfold memcmp_eq.
    rewrite firstn_app.
    change (length (firstn 51 Falcon.test_message)) with 51%nat.
    rewrite Nat.sub_diag, firstn_O, app_nil_r, firstn_firstn.
    change (Nat.min 51 51) with 51%nat.
    rewrite bytes_eqb_refl, andb_true_r.
    apply andb_true_intro. split; apply Nat.leb_le.
    - rewrite length_app. change (length (firstn 51 Falcon.test_message)) with 51%nat. lia.
    - change (length Falcon.test_message) with 54%nat. lia. }
  now rewrite Hlen, Hcmp.
Qed.

(** C1.  The signature scheme run on concrete inputs.  A keypair is made by
    [falcon_keygen]; "hello world" is signed with its secret key and the
    signature, checked against the same message and the paired public key, is
    reported invalid (0): the MAC is keyed with the first 32 secret-key bytes
    when signing and with a digest of the public key when verifying.  The
    test sentence is signed as well, and the sentence with bit 0 of its byte
    53 flipped is reported valid (1) under that signature, as it is under an
    empty one: only its first 51 bytes are looked at. *)
Theorem falcon_sign_verify_at_failing_inputs :
  Falcon.falcon_keygen true out_buffer (Some (Sample.entropy Falcon.FALCON_SECRET_KEY_BYTES 7 3))
    = (0, Some Sample.falcon_keypair)
  /\ Falcon.falcon_sign true out_buffer out_buffer (Some Sample.hello_world)
       (Some (Falcon.secret_key Sample.falcon_keypair)) (Some (Sample.entropy 16 11 5))
     = (0, Sample.falcon_signature Sample.hello_world, Some 49)
  /\ Falcon.falcon_verify true (Some (Sample.falcon_signature Sample.hello_world))
       (Some Sample.hello_world) (Some (Falcon.public_key Sample.falcon_keypair)) = 0
  /\ Falcon.falcon_verify true (Some (Sample.falcon_signature Falcon.test_message))
       (Some Falcon.test_message) (Some (Falcon.public_key Sample.falcon_keypair)) = 1
  /\ flip_bit 53 0 Falcon.test_message <> Falcon.test_message
  /\ Falcon.falcon_verify true (Some (Sample.falcon_signature Falcon.test_message))
       (Some (flip_bit 53 0 Falcon.test_message))
       (Some (Falcon.public_key Sample.falcon_keypair)) = 1
  /\ Falcon.falcon_verify true (Some [])
       (Some (flip_bit 53 0 Falcon.test_message))
       (Some (Falcon.public_key Sample.falcon_keypair)) = 1.
Proof.
  split; [vm_compute; reflexivity|].
  split; [vm_compute; reflexivity|].
  split; [vm_compute; reflexivity|].
  split; [vm_compute; reflexivity|].
  split; [vm_compute; discriminate|].
  split; vm_compute; reflexivity.
Qed.

(** ** logical_entanglement.c *)

Section entanglement.

Import LE.

Lemma has_hash_insert (s : store) (p q : nat) (n m : entanglement_node_t) (h : bytes) :
  s !! p = Some n ->
  has_hash s q = true -> has_hash (<[p := set_hash m (Some h)]> s) q = true.
Proof.
  intros Hp Hq. unfold has_hash in *.
  destruct (decide (p = q)) as [->|Hne].
  - rewrite list_lookup_insert_eq by (eapply lookup_lt_Some; eauto). reflexivity.
  - rewrite list_lookup_insert_ne by exact Hne. exact Hq.
Qed.

Lemma has_hash_insert_eq (s : store) (p : nat) (n m : entanglement_node_t) (h : bytes) :
  s !! p = Some n -> has_hash (<[p := set_hash m (Some h)]> s) p = true.
Proof.
  intros Hp. unfold has_hash.
  rewrite list_lookup_insert_eq by (eapply lookup_lt_Some; eauto). reflexivity.
Qed.

Lemma ensure_hashes_keeps calc ptrs : keeps_hashes calc ->
  forall s r s', ensure_hashes calc ptrs s = Some (r, s') ->
  forall q, has_hash s q = true -> has_hash s' q = true.
Proof.
  intros Hcalc. induction ptrs as [|p rest IH]; intros s r s' Hrun q Hq; simpl in Hrun.
  - injection Hrun as <- <-. exact Hq.
  - destruct (has_hash s p); [eauto|].
    destruct (calc s (Some p)) as [[r1 s1]|] eqn:Hc; [|discriminate].
    pose proof (Hcalc _ _ _ _ Hc q Hq) as Hq1.
    destruct (r1 =? 0); [eauto|].
    injection Hrun as <- <-. exact Hq1.
Qed.

Lemma ensure_hashes_all calc ptrs : keeps_hashes calc -> hashes_on_success calc ->
  forall s s', ensure_hashes calc ptrs s = Some (0, s') ->
  forall q, In q ptrs -> has_hash s' q = true.
Proof.
  intros Hkeep Hsucc. induction ptrs as [|p rest IH]; intros s s' Hrun q Hin; simpl in Hrun.
  - destruct Hin.
  - destruct Hin as [<-|Hin].
    + destruct (has_hash s p) eqn:Hp.
      * eapply ensure_hashes_keeps; eauto.
      * destruct (calc s (Some p)) as [[r1 s1]|] eqn:Hc; [|discriminate].
        destruct (Z.eqb_spec r1 0) as [->|Hne].
        -- eapply ensure_hashes_keeps; eauto.
        -- injection Hrun as Hr _. contradiction.
    + destruct (has_hash s p); [eauto|].
      destruct (calc s (Some p)) as [[r1 s1]|] eqn:Hc; [|discriminate].
      destruct (Z.eqb_spec r1 0) as [->|Hne]; [eauto|].
      injection Hrun as Hr _. contradiction.
Qed.

Lemma ensure_hashes_cached calc ptrs s :
  (forall q, In q ptrs -> has_hash s q = true) ->
  ensure_hashes calc ptrs s = Some (0, s).
Proof.
  induction ptrs as [|p rest IH]; intros Hall; simpl.
  - reflexivity.
  - rewrite (Hall p) by now left. apply IH. intros q Hq. apply Hall. now right.
Qed.

Lemma node_hash_keeps fuel init junk : keeps_hashes (le_calculate_node_hash fuel init junk).
Proof.
  induction fuel as [|fuel IH]; intros s node r s' Hrun q Hq; simpl in Hrun; [discriminate|].
  destruct node as [p|]; [|injection Hrun as <- <-; exact Hq].
  destruct (s !! p) as [n|] eqn:Hp; [|injection Hrun as <- <-; exact Hq].
  destruct (data n) as [d|]; [|injection Hrun as <- <-; exact Hq].
  destruct init; cbn [negb] in Hrun; [|injection Hrun as <- <-; exact Hq].
  assert (Hq1 : has_hash (<[p := set_hash n (Some junk)]> s) q = true)
    by (eapply has_hash_insert; eauto).
  destruct (length (deps n) =? 0)%nat.
  - injection Hrun as <- <-.
    eapply has_hash_insert; [|exact Hq1].
    apply list_lookup_insert_eq. eapply lookup_lt_Some; eauto.
  - destruct (ensure_hashes _ _ _) as [[r2 s2]|] eqn:Hdeps; [|discriminate].
    pose proof (ensure_hashes_keeps _ _ IH _ _ _ Hdeps q Hq1) as Hq2.
    destruct (negb (r2 =? 0)); injection Hrun as <- <-; [exact Hq2|].
    destruct (decide (p = q)) as [->|Hne].
    + unfold has_hash in Hq2 |- *. destruct (s2 !! q) as [m|] eqn:Hm; [|discriminate].
      rewrite list_lookup_insert_eq by (eapply lookup_lt_Some; eauto). reflexivity.
    + unfold has_hash. rewrite list_lookup_insert_ne by exact Hne. exact Hq2.
Qed.

Lemma node_hash_on_success fuel init junk :
  hashes_on_success (le_calculate_node_hash fuel init junk).
Proof.
  intros s p s' Hrun. destruct fuel as [|fuel]; simpl in Hrun; [discriminate|].
  destruct (s !! p) as [n|] eqn:Hp; [|discriminate].
  destruct (data n) as [d|]; [|discriminate].
  destruct init; cbn [negb] in Hrun; [|discriminate].
  assert (Hp1 : has_hash (<[p := set_hash n (Some junk)]> s) p = true)
    by (eapply has_hash_insert_eq; eauto).
  destruct (length (deps n) =? 0)%nat.
  - injection Hrun as <-. unfold has_hash.
    rewrite list_lookup_insert_eq; [reflexivity|].
    rewrite length_insert. eapply lookup_lt_Some; eauto.
  - destruct (ensure_hashes _ _ _) as [[r2 s2]|] eqn:Hdeps; [|discriminate].
    pose proof (ensure_hashes_keeps _ _ (node_hash_keeps fuel true junk) _ _ _ Hdeps p Hp1) as Hp2.
    destruct (Z.eqb_spec r2 0) as [->|Hne]; cbn [negb] in Hrun.
    + injection Hrun as <-. unfold has_hash in Hp2 |- *.
      destruct (s2 !! p) as [m|] eqn:Hm; [|discriminate].
      rewrite list_lookup_insert_eq by (eapply lookup_lt_Some; eauto). reflexivity.
    + injection Hrun as Hr _. contradiction.
Qed.

Lemma same_hashes_has_hash s s' p : same_hashes s s' -> has_hash s' p = has_hash s p.
Proof.
  intros H. specialize (H p). unfold has_hash.
  destruct (s !! p), (s' !! p); simpl in H; try discriminate; [|reflexivity].
  now injection H as ->.
Qed.

Lemma same_hashes_hashes_of s s' ptrs : same_hashes s s' -> hashes_of s' ptrs = hashes_of s ptrs.
Proof.
  intros H. unfold hashes_of. apply flat_map_ext. intros p. specialize (H p).
  destruct (s !! p), (s' !! p); simpl in H; try discriminate; [|reflexivity].
  now injection H as ->.
Qed.

Lemma same_hashes_overwrite_data s p d : same_hashes s (overwrite_data s p d).
Proof.
  intros q. unfold overwrite_data. destruct (s !! p) as [n|] eqn:Hp; [|reflexivity].
  destruct (decide (p = q)) as [->|Hne].
  - rewrite list_lookup_insert_eq by (eapply lookup_lt_Some; eauto). now rewrite Hp.
  - now rewrite list_lookup_insert_ne.
Qed.

Lemma le_verify_graph_after_root fuel junk s g s1 g1 :
  le_calculate_root_hash fuel true junk s (Some g) = Some (0, s1, Some g1) ->
  forall fuel' junk' s', same_hashes s1 s' ->
  le_verify_graph fuel' true junk' s' (Some g1) = Some (true, s').
Proof.
  intros Hroot fuel' junk' s' Hsame.
  unfold le_calculate_root_hash in Hroot.
  destruct (nodes g) as [ns|] eqn:Hns; [|discriminate].
  cbn [negb orb] in Hroot.
  destruct (length ns =? 0)%nat eqn:Hlen; [discriminate|].
  destruct (ensure_hashes _ ns s) as [[r s1']|] eqn:Hrun; [|discriminate].
  destruct (Z.eqb_spec r 0) as [->|Hne]; cbn [negb] in Hroot; [|congruence].
  injection Hroot as <- <-.
  assert (Hall : forall q, In q ns -> has_hash s' q = true).
  { intros q Hq. rewrite (same_hashes_has_hash _ _ _ Hsame).
    eapply ensure_hashes_all; eauto using node_hash_keeps, node_hash_on_success. }
  unfold le_verify_graph, le_calculate_root_hash. cbn [nodes root_hash negb orb].
  rewrite Hlen. rewrite (ensure_hashes_cached _ _ _ Hall). cbn [Z.eqb negb].
  rewrite (same_hashes_hashes_of _ _ _ Hsame).
  now rewrite Nat.eqb_refl, memcmp_eq_refl.
Qed.

(** *** Termination *)

Lemma hashless_cons (n : entanglement_node_t) (s : store) :
  hashless (n :: s) = ((if null (hash n) then 1 else 0) + hashless s)%nat.
Proof.
  unfold hashless. rewrite filter_cons.
  destruct (decide (null (hash n) = true)) as [H|H].
  - rewrite H. reflexivity.
  - destruct (null (hash n)); [contradiction|reflexivity].
Qed.

Lemma hashless_insert_hashed (s : store) (p : nat) (n m : entanglement_node_t) (h : bytes) :
  s !! p = Some n ->
  (hashless (<[p := set_hash m (Some h)]> s)
   + (if null (hash n) then 1 else 0))%nat = hashless s.
Proof.
  revert p. induction s as [|x s IH]; intros p Hp; [discriminate|].
  destruct p as [|p]; simpl in Hp |- *.
  - injection Hp as ->. rewrite !hashless_cons. cbn [set_hash hash null]. lia.
  - rewrite !hashless_cons. specialize (IH p Hp). lia.
Qed.

Lemma hashless_positive (s : store) (p : nat) (n : entanglement_node_t) :
  s !! p = Some n -> hash n = None -> (0 < hashless s)%nat.
Proof.
  revert p. induction s as [|x s IH]; intros p Hp Hn; [discriminate|].
  rewrite hashless_cons. destruct p as [|p]; simpl in Hp.
  - injection Hp as ->. rewrite Hn. simpl. lia.
  - specialize (IH p Hp Hn). lia.
Qed.

Lemma ensure_hashes_hashless calc ptrs : never_more_hashless calc ->
  forall s r s', ensure_hashes calc ptrs s = Some (r, s') -> (hashless s' <= hashless s)%nat.
Proof.
  intros Hcalc. induction ptrs as [|p rest IH]; intros s r s' Hrun; simpl in Hrun.
  - injection Hrun as <- <-. lia.
  - destruct (has_hash s p); [eauto|].
    destruct (calc s (Some p)) as [[r1 s1]|] eqn:Hc; [|discriminate].
    pose proof (Hcalc _ _ _ _ Hc) as H1.
    destruct (r1 =? 0).
    + specialize (IH _ _ _ Hrun). lia.
    + injection Hrun as <- <-. exact H1.
Qed.

Lemma node_hash_hashless fuel init junk :
  never_more_hashless (le_calculate_node_hash fuel init junk).
Proof.
  induction fuel as [|fuel IH]; intros s node r s' Hrun; simpl in Hrun; [discriminate|].
  destruct node as [p|]; [|injection Hrun as <- <-; lia].
  destruct (s !! p) as [n|] eqn:Hp; [|injection Hrun as <- <-; lia].
  destruct (data n) as [d|]; [|injection Hrun as <- <-; lia].
  destruct init; cbn [negb] in Hrun; [|injection Hrun as <- <-; lia].
  pose proof (hashless_insert_hashed s p n n junk Hp) as H1.
  assert (Hp1 : <[p := set_hash n (Some junk)]> s !! p = Some (set_hash n (Some junk)))
    by (apply list_lookup_insert_eq; eapply lookup_lt_Some; eauto).
  destruct (length (deps n) =? 0)%nat.
  - injection Hrun as <- <-.
    pose proof (hashless_insert_hashed _ p _ n (SHA256 d) Hp1) as H2.
    cbn [set_hash hash null] in H2. lia.
  - destruct (ensure_hashes _ _ _) as [[r2 s2]|] eqn:Hdeps; [|discriminate].
    pose proof (ensure_hashes_hashless _ _ IH _ _ _ Hdeps) as H2.
    destruct (negb (r2 =? 0)); injection Hrun as <- <-; [lia|].
    destruct (s2 !! p) as [m|] eqn:Hm.
    + pose proof (hashless_insert_hashed s2 p m m
                    (SHA256 (match data m with Some x => x | None => [] end
                             ++ hashes_of s2 (deps m))) Hm) as H3.
      lia.
    + rewrite list_insert_ge by (now apply lookup_ge_None). lia.
Qed.

Lemma ensure_hashes_returns bound calc ptrs :
  never_more_hashless calc -> returns_below bound calc ->
  forall s, (hashless s < bound)%nat ->
    exists r s', ensure_hashes calc ptrs s = Some (r, s').
Proof.
  intros Hmono Hret. induction ptrs as [|p rest IH]; intros s Hs; simpl.
  - eauto.
  - destruct (has_hash s p) eqn:Hp; [eauto|].
    destruct (Hret s p Hs Hp) as (r1 & s1 & Hc). rewrite Hc.
    destruct (r1 =? 0); [|eauto].
    apply IH. pose proof (Hmono _ _ _ _ Hc). lia.
Qed.

Lemma node_hash_returns fuel init junk :
  returns_below fuel (le_calculate_node_hash fuel init junk).
Proof.
  induction fuel as [|fuel IH]; intros s p Hs Hp; [lia|]. simpl.
  destruct (s !! p) as [n|] eqn:Hn; [|eauto].
  destruct (data n) as [d|]; [|eauto].
  destruct init; cbn [negb]; [|eauto].
  destruct (length (deps n) =? 0)%nat; [eauto|].
  assert (Hnone : hash n = None).
  { unfold has_hash in Hp. rewrite Hn in Hp. now destruct (hash n). }
  pose proof (hashless_insert_hashed s p n n junk Hn) as H1.
  rewrite Hnone in H1. cbn [null] in H1.
  destruct (ensure_hashes_returns fuel _ (deps n) (node_hash_hashless fuel true junk) IH
              (<[p := set_hash n (Some junk)]> s)) as (r2 & s2 & Hdeps); [lia|].
  rewrite Hdeps. destruct (negb (r2 =? 0)); eauto.
Qed.

(** With more fuel than there are hashless nodes, the root computation and
    the verification return, on every store, cyclic or not. *)
Theorem le_calculate_root_hash_returns fuel init junk s graph :
  (hashless s < fuel)%nat ->
  exists r s' g', le_calculate_root_hash fuel init junk s graph = Some (r, s', g').
Proof.
  intros Hs. unfold le_calculate_root_hash.
  destruct graph as [g|]; [|eauto].
  destruct (nodes g) as [ns|]; [|eauto].
  destruct (negb init || (length ns =? 0)%nat); [eauto|].
  destruct (ensure_hashes_returns fuel _ ns (node_hash_hashless fuel init junk)
              (node_hash_returns fuel init junk) s Hs) as (r & s1 & Hrun).
  rewrite Hrun. destruct (negb (r =? 0)); eauto.
Qed.

Theorem le_verify_graph_returns fuel init junk s graph :
  (hashless s < fuel)%nat ->
  exists b s', le_verify_graph fuel init junk s graph = Some (b, s').
Proof.
  intros Hs. unfold le_verify_graph.
  destruct graph as [g|]; [|eauto].
  destruct (nodes g) as [ns|], (root_hash g) as [root|]; eauto.
  destruct (negb init || (length ns =? 0)%nat); [eauto|].
  destruct (le_calculate_root_hash_returns fuel init junk s
              (Some {| nodes := Some ns; root_hash := None |}) Hs) as (r & s1 & g1 & Hroot).
  rewrite Hroot. destruct (negb (r =? 0)); [eauto|].
  destruct g1 as [[? [?|]]|]; eauto.
Qed.

(** C4.  The scenario of tests/test_logical_entanglement.c.  The root hash is
    computed, and verification of the untouched graph succeeds.  From then on
    [le_verify_graph] answers true whatever bytes are written over whichever
    payload: every node carries a cached hash, so the trial root is the
    digest of the cached hashes and no payload is read again.  In particular
    it answers true after the test's tampering ([data1] with byte 10 set to
    'X') and after a single-bit flip, where the test expects false. *)
Theorem le_verify_graph_after_tampering :
  le_calculate_root_hash 4 true TestLE.junk TestLE.nodes_built TestLE.graph
    = Some (0, TestLE.store_with_root, TestLE.graph_with_root)
  /\ le_verify_graph 4 true TestLE.junk TestLE.store_with_root TestLE.graph_with_root
     = Some (true, TestLE.store_with_root)
  /\ (forall (fuel p : nat) (d : bytes),
        le_verify_graph fuel true TestLE.junk
          (overwrite_data TestLE.store_with_root p d) TestLE.graph_with_root
        = Some (true, overwrite_data TestLE.store_with_root p d))
  /\ data <$> (overwrite_data TestLE.store_with_root 0 TestLE.tampered_data !! 0%nat)
     = Some (Some TestLE.tampered_data)
  /\ TestLE.tampered_data <> TestLE.data1
  /\ le_verify_graph 4 true TestLE.junk
       (overwrite_data TestLE.store_with_root 0 TestLE.tampered_data) TestLE.graph_with_root
     = Some (true, overwrite_data TestLE.store_with_root 0 TestLE.tampered_data)
  /\ le_verify_graph 4 true TestLE.junk
       (overwrite_data TestLE.store_with_root 0 (flip_bit 3 0 TestLE.data1))
       TestLE.graph_with_root
     = Some (true, overwrite_data TestLE.store_with_root 0 (flip_bit 3 0 TestLE.data1)).
Proof.
  assert (Hroot : le_calculate_root_hash 4 true TestLE.junk TestLE.nodes_built TestLE.graph
                  = Some (0, TestLE.store_with_root, TestLE.graph_with_root))
    by (vm_compute; reflexivity).
  assert (Hany : forall (fuel p : nat) (d : bytes),
             le_verify_graph fuel true TestLE.junk
               (overwrite_data TestLE.store_with_root p d) TestLE.graph_with_root
             = Some (true, overwrite_data TestLE.store_with_root p d)).
  { intros fuel p d.
    destruct TestLE.graph as [g|] eqn:Hg; [|vm_compute in Hg; discriminate].
    destruct TestLE.graph_with_root as [g1|] eqn:Hg1; [|vm_compute in Hg1; discriminate].
    eapply le_verify_graph_after_root; [exact Hroot|].
    apply same_hashes_overwrite_data. }
  split; [exact Hroot|].
  split; [vm_compute; reflexivity|].
  split; [exact Hany|].
  split; [vm_compute; reflexivity|].
  split; [vm_compute; discriminate|].
  split; apply Hany.
Qed.

End entanglement.

(** C5, as the code has it.  [le_add_dependency] on a node of the store
    appends the dependency at the end of the node's list and returns 0
    whenever the engine is initialized and the reallocation succeeds; the
    node's payload and cached hash, and all other nodes, are left as they
    were.  Nothing depends on whether the node already has a hash or on what
    the new edge reaches.  A nonzero result means the engine was not
    initialized (-1) or the reallocation failed (-2), and the store is
    unchanged; a NULL node or dependency gives -1 and an unchanged store as
    well. *)
Theorem le_add_dependency_appends (is_initialized realloc_ok : bool) (s : LE.store)
    (p d : nat) (n : LE.entanglement_node_t) :
  s !! p = Some n ->
  (is_initialized = true -> realloc_ok = true ->
     fst (LE.le_add_dependency is_initialized realloc_ok s (Some p) (Some d)) = 0
     /\ snd (LE.le_add_dependency is_initialized realloc_ok s (Some p) (Some d)) !! p
        = Some {| LE.data := LE.data n; LE.hash := LE.hash n; LE.deps := LE.deps n ++ [d] |}
     /\ forall q, q <> p ->
          snd (LE.le_add_dependency is_initialized realloc_ok s (Some p) (Some d)) !! q = s !! q)
  /\ (fst (LE.le_add_dependency is_initialized realloc_ok s (Some p) (Some d)) <> 0 ->
        snd (LE.le_add_dependency is_initialized realloc_ok s (Some p) (Some d)) = s
        /\ (is_initialized = false
              /\ fst (LE.le_add_dependency is_initialized realloc_ok s (Some p) (Some d)) = -1
            \/ realloc_ok = false
              /\ fst (LE.le_add_dependency is_initialized realloc_ok s (Some p) (Some d)) = -2))
  /\ (forall dependency,
        LE.le_add_dependency is_initialized realloc_ok s None dependency = (-1, s))
  /\ (forall node,
        LE.le_add_dependency is_initialized realloc_ok s node None = (-1, s)).
Proof.
  intros Hp.
  assert (Hnull : (forall dependency,
                     LE.le_add_dependency is_initialized realloc_ok s None dependency = (-1, s))
                  /\ (forall node,
                        LE.le_add_dependency is_initialized realloc_ok s node None = (-1, s))).
  { split; [reflexivity|]. intros [q|]; reflexivity. }
  unfold LE.le_add_dependency at 1 2 3 4 5 6 7. rewrite Hp.
  destruct is_initialized, realloc_ok; cbn [negb fst snd];
    (split; [|split; [|exact Hnull]]).
  - intros _ _. split; [reflexivity|]. split.
    + apply list_lookup_insert_eq. eapply lookup_lt_Some; eauto.
    + intros q Hq. apply list_lookup_insert_ne. congruence.
  - intros H. now contradiction H.
  - intros _ H. discriminate H.
  - intros _. split; [reflexivity|]. right. now split.
  - intros H. discriminate H.
  - intros _. split; [reflexivity|]. left. now split.
  - intros H. discriminate H.
  - intros _. split; [reflexivity|]. left. now split.
Qed.

Lemma le_add_dependency_appends_witness :
  TestLE.store_with_root !! 0%nat
    = Some {| LE.data := Some TestLE.data1;
              LE.hash := Some (SHA256 TestLE.data1);
              LE.deps := [] |}
  /\ fst (LE.le_add_dependency true true TestLE.store_with_root (Some 0%nat) (Some 2%nat)) = 0
  /\ snd (LE.le_add_dependency true true TestLE.store_with_root (Some 0%nat) (Some 2%nat)) !! 0%nat
     = Some {| LE.data := Some TestLE.data1;
               LE.hash := Some (SHA256 TestLE.data1);
               LE.deps := [2%nat] |}.
Proof.
  assert (H0 : TestLE.store_with_root !! 0%nat
               = Some {| LE.data := Some TestLE.data1;
                         LE.hash := Some (SHA256 TestLE.data1);
                         LE.deps := [] |}) by (vm_compute; reflexivity).
  split; [exact H0|].
  destruct (le_add_dependency_appends true true _ 0%nat 2%nat _ H0) as [Hok _].
  destruct (Hok eq_refl eq_refl) as (Hr & Hnode & _).
  split; [exact Hr | exact Hnode].
Defined.

(** C5, as the claim has it, fails: in the test scenario node 0 has its
    digest computed and node 2 depends on node 0, yet adding the edge from
    node 0 to node 2 (on a frozen node, and closing a cycle) returns 0 and
    records the edge; so does an edge from node 0 to itself. *)
Lemma le_add_dependency_accepts_frozen_and_cyclic :
  LE.has_hash TestLE.store_with_root 0 = true
  /\ LE.deps <$> (TestLE.store_with_root !! 2%nat) = Some [0; 1]%nat
  /\ fst (LE.le_add_dependency true true TestLE.store_with_root (Some 0%nat) (Some 2%nat)) = 0
  /\ LE.deps <$> (snd (LE.le_add_dependency true true TestLE.store_with_root
                         (Some 0%nat) (Some 2%nat)) !! 0%nat) = Some [2%nat]
  /\ fst (LE.le_add_dependency true true TestLE.store_with_root (Some 0%nat) (Some 0%nat)) = 0
  /\ LE.deps <$> (snd (LE.le_add_dependency true true TestLE.store_with_root
                         (Some 0%nat) (Some 0%nat)) !! 0%nat) = Some [0%nat].
Proof.
  split; [vm_compute; reflexivity|].
  split; [vm_compute; reflexivity|].
  split; [vm_compute; reflexivity|].
  split; [vm_compute; reflexivity|].
  split; vm_compute; reflexivity.
Qed.

(** ** quantum_zkp.c *)

(** C6, as the code has it.  [qzkp_verify_proof] accepts exactly when the
    engine is initialized, the parameters pointer and the three field
    pointers of the proof are non-null, and the response is 32 bytes long.
    The sizes of the commitment and of the challenge, their contents, the
    contents of the response and the public input play no part. *)
Theorem qzkp_verify_proof_accepts_iff (is_initialized : bool)
    (proof : option QZKP.qzkp_proof_t) (public_input : option bytes)
    (params : option QZKP.qzkp_verify_params_t) :
  QZKP.qzkp_verify_proof is_initialized proof public_input params = true
  <-> is_initialized = true
      /\ params <> None
      /\ exists p commit chal resp,
           proof = Some p
           /\ QZKP.commitment p = Some commit
           /\ QZKP.challenge p = Some chal
           /\ QZKP.response p = Some resp
           /\ length resp = SHA256_DIGEST_LENGTH.
Proof.
  unfold QZKP.qzkp_verify_proof. split.
  - destruct proof as [p|]; [|discriminate].
    destruct params as [prm|]; [|discriminate].
    destruct (QZKP.commitment p) as [c|] eqn:Hc; [|discriminate].
    destruct (QZKP.challenge p) as [ch|] eqn:Hch; [|discriminate].
    destruct (QZKP.response p) as [r|] eqn:Hr; [|discriminate].
    destruct is_initialized; cbn [negb]; [|discriminate].
    intros Hlen. apply Nat.eqb_eq in Hlen.
    split; [reflexivity|]. split; [discriminate|].
    exists p, c, ch, r. auto.
  - intros (-> & Hprm & p & c & ch & r & -> & Hc & Hch & Hr & Hlen).
    destruct params as [prm|]; [|contradiction].
    rewrite Hc, Hch, Hr. cbn [negb]. now apply Nat.eqb_eq.
Qed.

(** C6, as the claim has it, fails: a proof whose commitment and challenge
    are empty (non-null pointers, size zero) and whose response is 32 zero
    bytes is accepted. *)
Lemma qzkp_verify_proof_accepts_empty_fields :
  QZKP.qzkp_verify_proof true
    (Some {| QZKP.commitment := Some [];
             QZKP.challenge := Some [];
             QZKP.response := Some (repeat 0 32) |})
    (Some (bytes_of_string "Public information related to the proof"))
    (Some {| QZKP.sample_count := 100 |}) = true.
Proof. reflexivity. Qed.

(** ** crypto_adapter.c *)

Section adapter.

Import Adapter.


(** C7, as the code has it.  [crypto_adapter_init] never touches the
    entanglement engine.  On an initialized adapter it returns 0 and changes
    nothing.  Otherwise, with a NULL parameter block it returns -1 and
    changes nothing; with parameters it calls [qzkp_init] and then, when
    [use_pq_crypto] is set, [kyber_init] and [falcon_init], in that order.
    If all succeed it stores the configuration and marks the adapter
    initialized.  If one fails, the subsystems whose init had run before it
    are cleaned up in reverse order, the failing call's code (-1) is
    returned, and the adapter state is left as it was, uninitialized. *)
Theorem crypto_adapter_init_amended (params : option crypto_adapter_params_t)
    (polls : rand_polls) (w : world) :
  let r := fst (crypto_adapter_init params polls w) in
  let w' := snd (crypto_adapter_init params polls w) in
  le_initialized w' = le_initialized w
  /\ (is_initialized (adapter_state w) = true -> r = 0 /\ w' = w)
  /\ (is_initialized (adapter_state w) = false -> params = None -> r = -1 /\ w' = w)
  /\ (forall p, is_initialized (adapter_state w) = false -> params = Some p ->
        (r = 0
         /\ adapter_state w'
            = {| is_initialized := true;
                 state_use_pq_crypto := use_pq_crypto p;
                 state_use_hybrid := use_hybrid p;
                 state_key_storage_path := key_storage_path p |}
         /\ qzkp_initialized w' = true
         /\ if use_pq_crypto p
            then kyber_initialized w' = true /\ falcon_initialized w' = true
                 /\ calls w' = calls w ++ [call_qzkp_init; call_kyber_init; call_falcon_init]
            else kyber_initialized w' = kyber_initialized w
                 /\ falcon_initialized w' = falcon_initialized w
                 /\ calls w' = calls w ++ [call_qzkp_init])
        \/ (r = -1
            /\ adapter_state w' = adapter_state w
            /\ qzkp_initialized w' = false
            /\ (calls w' = calls w ++ [call_qzkp_init]
                /\ kyber_initialized w' = kyber_initialized w
                /\ falcon_initialized w' = falcon_initialized w
                \/ use_pq_crypto p = true
                   /\ calls w' = calls w ++ [call_qzkp_init; call_kyber_init; call_qzkp_cleanup]
                   /\ kyber_initialized w' = false
                   /\ falcon_initialized w' = falcon_initialized w
                \/ use_pq_crypto p = true
                   /\ calls w' = calls w ++ [call_qzkp_init; call_kyber_init; call_falcon_init;
                                             call_kyber_cleanup; call_qzkp_cleanup]
                   /\ kyber_initialized w' = false
                   /\ falcon_initialized w' = false))).
Proof.
  destruct w as [q l k f [ai apq ah ap] c].
  destruct polls as [pq pk pf].
  unfold crypto_adapter_init. cbn [adapter_state is_initialized].
  destruct ai.
  - cbn. repeat split; intros; try discriminate; congruence.
  - destruct params as [p|].
    + split.
      { unfold qzkp_init, kyber_init, falcon_init, QZKP.qzkp_init, Kyber.kyber_init, Falcon.falcon_init.
        cbn [qzkp_initialized kyber_initialized falcon_initialized poll_qzkp poll_kyber poll_falcon].
        destruct q, pq, (use_pq_crypto p), k, pk, f, pf; reflexivity. }
      split; [discriminate|]. split; [discriminate|].
      intros p' _ [= <-].
      unfold qzkp_init, kyber_init, falcon_init, QZKP.qzkp_init, Kyber.kyber_init, Falcon.falcon_init.
      cbn [qzkp_initialized kyber_initialized falcon_initialized poll_qzkp poll_kyber poll_falcon].
      destruct p as [upq uh path]. cbn [use_pq_crypto use_hybrid key_storage_path].
      destruct q, pq, upq, k, pk, f, pf; cbn; rewrite <- ?app_assoc; cbn;
        first [ left; repeat split; reflexivity
              | right; repeat split; left; repeat split; reflexivity
              | right; repeat split; right; left; repeat split; reflexivity
              | right; repeat split; right; right; repeat split; reflexivity ].
    + cbn. repeat split; intros; try discriminate; congruence.
Qed.

(** C7, as the claim has it, fails: after a successful
    [crypto_adapter_init] on the pristine process state the entanglement
    engine is still uninitialized, and [le_create_node] returns NULL. *)
Lemma crypto_adapter_init_skips_entanglement :
  fst (crypto_adapter_init (Some Scenario.params) Scenario.polls_ok world_initial) = 0
  /\ le_initialized
       (snd (crypto_adapter_init (Some Scenario.params) Scenario.polls_ok world_initial))
     = false
  /\ calls (snd (crypto_adapter_init (Some Scenario.params) Scenario.polls_ok world_initial))
     = [call_qzkp_init; call_kyber_init; call_falcon_init]
  /\ fst (LE.le_create_node
            (le_initialized
               (snd (crypto_adapter_init (Some Scenario.params) Scenario.polls_ok
                       world_initial)))
            [] (Some TestLE.data1))
     = None.
Proof. repeat split. Qed.


Lemma expired_true (k : crypto_key_t) (now : Z) :
  0 < expiration_time k -> expiration_time k < now mod 2 ^ 64 -> expired k now = true.
Proof.
  intros H0 H1. unfold expired.
  apply andb_true_intro. split; now apply Z.ltb_lt.
Qed.

(** C9.  On an initialized adapter, a key whose expiration time is nonzero
    and earlier than the current time makes [crypto_sign_message] (for a
    signature key) and [crypto_establish_key] (for a KEM key) return -3 with
    nothing stored through any output pointer.  The code is not one of the
    others: an uninitialized adapter gives -1 in both functions, a key of the
    wrong kind gives -2, and a signature buffer shorter than the maximum
    signature size gives -4. *)
Theorem expired_key_is_refused (w : world) (k : crypto_key_t) (now : Z) :
  is_initialized (adapter_state w) = true ->
  0 < expiration_time k ->
  expiration_time k < now mod 2 ^ 64 ->
  (type k = KEY_TYPE_FALCON ->
     forall (signature_len : Z) (message : bytes) (entropy : option bytes),
       crypto_sign_message w out_buffer (Some signature_len) (Some message) (Some k) now entropy
       = (-3, [], None))
  /\ (type k = KEY_TYPE_KYBER ->
        forall (ciphertext ciphertext_len : out_ptr) (entropy : option bytes),
          crypto_establish_key w out_buffer out_buffer ciphertext ciphertext_len
            (Some k) now entropy
          = establish_failed (-3))
  /\ (forall (w0 : world) (k0 : crypto_key_t) (signature_len : Z) (message : bytes)
             (now0 : Z) (entropy : option bytes) (ciphertext ciphertext_len : out_ptr),
        (is_initialized (adapter_state w0) = false ->
           fst (fst (crypto_sign_message w0 out_buffer (Some signature_len) (Some message)
                       (Some k0) now0 entropy)) = -1
           /\ est_code (crypto_establish_key w0 out_buffer out_buffer ciphertext ciphertext_len
                          (Some k0) now0 entropy) = -1)
        /\ (is_initialized (adapter_state w0) = true ->
              (type k0 <> KEY_TYPE_FALCON ->
                 fst (fst (crypto_sign_message w0 out_buffer (Some signature_len) (Some message)
                             (Some k0) now0 entropy)) = -2)
              /\ (type k0 <> KEY_TYPE_KYBER ->
                    est_code (crypto_establish_key w0 out_buffer out_buffer ciphertext
                                ciphertext_len (Some k0) now0 entropy) = -2)
              /\ (type k0 = KEY_TYPE_FALCON -> expired k0 now0 = false ->
                  signature_len < Z.of_nat Falcon.FALCON_SIGNATURE_MAX_BYTES ->
                    fst (fst (crypto_sign_message w0 out_buffer (Some signature_len)
                                (Some message) (Some k0) now0 entropy)) = -4))).
Proof.
  intros Hinit H0 H1.
  pose proof (expired_true k now H0 H1) as Hexp.
  split; [|split].
  - intros Hty signature_len message entropy.
    unfold crypto_sign_message. rewrite Hinit, Hty, Hexp. reflexivity.
  - intros Hty ciphertext ciphertext_len entropy.
    unfold crypto_establish_key. rewrite Hinit, Hty, Hexp. reflexivity.
  - intros w0 k0 signature_len message now0 entropy ciphertext ciphertext_len.
    unfold crypto_sign_message, crypto_establish_key. split.
    + intros ->. split; reflexivity.
    + intros ->. cbn [negb orb out_null]. split; [|split].
      * intros Hty. destruct (type k0); try contradiction; reflexivity.
      * intros Hty. destruct (type k0); try contradiction; reflexivity.
      * intros -> -> Hlen. cbn [key_type_eqb negb].
        apply Z.ltb_lt in Hlen. rewrite Hlen. reflexivity.
Qed.

Lemma expired_key_is_refused_witness :
  is_initialized (adapter_state Scenario.world) = true
  /\ 0 < expiration_time (Scenario.falcon_key 1001)
  /\ expiration_time (Scenario.falcon_key 1001) < 1003 mod 2 ^ 64
  /\ crypto_sign_message Scenario.world out_buffer (Some 666) (Some Sample.hello_world)
       (Some (Scenario.falcon_key 1001)) 1003 (Some Scenario.nonce_entropy)
     = (-3, [], None)
  /\ crypto_establish_key Scenario.world out_buffer out_buffer out_buffer out_buffer
       (Some (Scenario.kyber_key 1001)) 1003 (Some Scenario.challenge_entropy)
     = establish_failed (-3).
Proof.
  assert (Hinit : is_initialized (adapter_state Scenario.world) = true) by reflexivity.
  assert (H0 : 0 < 1001) by lia.
  assert (H1 : 1001 < 1003 mod 2 ^ 64) by (vm_compute; reflexivity).
  split; [exact Hinit|]. split; [exact H0|]. split; [exact H1|]. split.
  - exact (proj1 (expired_key_is_refused Scenario.world (Scenario.falcon_key 1001) 1003
                    Hinit H0 H1) eq_refl 666 Sample.hello_world (Some Scenario.nonce_entropy)).
  - exact (proj1 (proj2 (expired_key_is_refused Scenario.world (Scenario.kyber_key 1001) 1003
                           Hinit H0 H1))
             eq_refl out_buffer out_buffer (Some Scenario.challenge_entropy)).
Defined.


Lemma free_lookup_ne (h : heap) (a b : nat) : a <> b -> free h a !! b = h !! b.
Proof.
  intros Hne. unfold free. destruct (h !! a) as [[c|c]|]; [|reflexivity..].
  now apply list_lookup_insert_ne.
Qed.

Lemma free_lookup_live (h : heap) (a : nat) (c : bytes) :
  h !! a = Some (Live c) -> free h a !! a = Some (Released c).
Proof.
  intros Ha. unfold free. rewrite Ha.
  apply list_lookup_insert_eq. eapply lookup_lt_Some; eauto.
Qed.

Lemma free_lookup_released (h : heap) (a : nat) (c : bytes) :
  h !! a = Some (Released c) -> free h a = h.
Proof. intros Ha. unfold free. now rewrite Ha. Qed.

Lemma heap_memset_lookup_ne (h : heap) (a b : nat) (c : Z) (n : nat) :
  a <> b -> heap_memset h a c n !! b = h !! b.
Proof.
  intros Hne. unfold heap_memset. destruct (h !! a) as [[x|x]|]; [|reflexivity..].
  now apply list_lookup_insert_ne.
Qed.

Lemma heap_memset_lookup_live (h : heap) (a : nat) (c : Z) (n : nat) (b : bytes) :
  h !! a = Some (Live b) -> heap_memset h a c n !! a = Some (Live (memset b c n)).
Proof.
  intros Ha. unfold heap_memset. rewrite Ha.
  apply list_lookup_insert_eq. eapply lookup_lt_Some; eauto.
Qed.

Lemma heap_memset_released (h : heap) (a : nat) (c : Z) (n : nat) (b : bytes) :
  h !! a = Some (Released b) -> heap_memset h a c n = h.
Proof. intros Ha. unfold heap_memset. now rewrite Ha. Qed.

Lemma memset_all (b : bytes) (c : Z) : memset b c (length b) = repeat c (length b).
Proof.
  unfold memset. rewrite Nat.min_id, skipn_all. apply app_nil_r.
Qed.

(** C8, as the code has it.  [crypto_free_key] leaves the key structure
    fully zeroed, which clears the id pointer and the inline Kyber or Falcon
    keypair bytes.  The heap buffer of a symmetric key is overwritten with
    zeros over its whole size and then released.  The key-id buffer is
    released with the bytes it held.  No other heap block changes. *)
Theorem crypto_free_key_effect (h : heap) (k : crypto_key_t) :
  snd (crypto_free_key h (Some k)) = Some zeroed_key
  /\ (forall (a : nat) (c : bytes),
        key_data k = symmetric (Some a) (length c) ->
        h !! a = Some (Live c) -> key_id k <> Some a ->
        fst (crypto_free_key h (Some k)) !! a = Some (Released (repeat 0 (length c))))
  /\ (forall (i : nat) (c : bytes),
        key_id k = Some i -> h !! i = Some (Live c) ->
        fst (crypto_free_key h (Some k)) !! i = Some (Released c))
  /\ (forall b : nat,
        key_id k <> Some b ->
        (forall n, key_data k <> symmetric (Some b) n) ->
        fst (crypto_free_key h (Some k)) !! b = h !! b).
Proof.
  unfold crypto_free_key. cbn [fst snd]. split; [reflexivity|]. split; [|split].
  - intros a c Hdata Ha Hid. rewrite Hdata.
    assert (H1 : match key_id k with Some i => free h i | None => h end !! a = Some (Live c)).
    { destruct (key_id k) as [i|]; [|exact Ha].
      rewrite free_lookup_ne by congruence. exact Ha. }
    erewrite free_lookup_live; [|erewrite heap_memset_lookup_live by exact H1; reflexivity].
    now rewrite memset_all.
  - intros i c Hid Hi. rewrite Hid.
    pose proof (free_lookup_live h i c Hi) as H1.
    destruct (key_data k) as [[a|] n| |]; try exact H1.
    destruct (decide (a = i)) as [->|Hne].
    + erewrite heap_memset_released by exact H1.
      erewrite free_lookup_released by exact H1. exact H1.
    + rewrite free_lookup_ne, heap_memset_lookup_ne by exact Hne. exact H1.
  - intros b Hid Hdata.
    assert (H1 : match key_id k with Some i => free h i | None => h end !! b = h !! b).
    { destruct (key_id k) as [i|]; [|reflexivity]. apply free_lookup_ne. congruence. }
    destruct (key_data k) as [[a|] n| |]; try exact H1.
    rewrite free_lookup_ne, heap_memset_lookup_ne; [exact H1 | |]; intros ->; now apply (Hdata n).
Qed.

(** C8, as the claim has it, fails for the key id: after [crypto_free_key]
    on a signature key, and on a symmetric key, the id buffer has been
    released still holding the 16 id bytes, none of which is zero, while the
    symmetric key buffer has been released holding zeros. *)
Lemma crypto_free_key_releases_id_unwiped :
  fst (crypto_free_key Scenario.heap (Some (Scenario.falcon_key 0))) !! 0%nat
    = Some (Released Scenario.key_id_bytes)
  /\ fst (crypto_free_key Scenario.symmetric_heap (Some Scenario.symmetric_key)) !! 0%nat
     = Some (Released Scenario.key_id_bytes)
  /\ fst (crypto_free_key Scenario.symmetric_heap (Some Scenario.symmetric_key)) !! 1%nat
     = Some (Released (repeat 0 32))
  /\ forallb (fun b => negb (b =? 0)) Scenario.key_id_bytes = true
  /\ Scenario.key_id_bytes <> repeat 0 16.
Proof.
  split; [vm_compute; reflexivity|].
  split; [vm_compute; reflexivity|].
  split; [vm_compute; reflexivity|].
  split; [vm_compute; reflexivity|].
  vm_compute. discriminate.
Qed.

Lemma RAND_bytes_length (n : nat) (entropy : option bytes) (bs : bytes) :
  RAND_bytes n entropy = Some bs -> length bs = n.
Proof.
  unfold RAND_bytes. destruct entropy as [b|]; [|discriminate].
  destruct (Nat.eqb_spec (length b) n) as [Hlen|]; [|discriminate].
  now intros [= <-].
Qed.

Lemma falcon_sign_stores (st : bool) (message secret_key entropy : option bytes)
    (written : bytes) (len : option Z) :
  Falcon.falcon_sign st out_buffer out_buffer message secret_key entropy = (0, written, len) ->
  len = Some (Z.of_nat (length written)) /\ length written = 49%nat.
Proof.
  unfold Falcon.falcon_sign.
  destruct message as [msg|], secret_key as [sk|]; try discriminate.
  destruct st; cbn [negb orb out_null]; [|discriminate].
  destruct (RAND_bytes 16 entropy) as [nonce|] eqn:Hrand; [|discriminate].
  apply RAND_bytes_length in Hrand.
  cbv zeta. intros Heq.
  apply pair_equal_spec in Heq as [Heq <-].
  apply pair_equal_spec in Heq as [_ <-].
  rewrite !length_app, length_take. unfold HMAC.hmac_sha256.
  rewrite SHA256_length, Hrand. split; reflexivity.
Qed.

(** The generation half of the signed-proof construction: with a signature
    key and post-quantum mode on, the response of the returned proof is the
    engine's response, then the signature length as a [size_t], then the
    signature bytes; the signature is the one [falcon_sign] stored for the
    digest of (commitment, challenge, response), or 32 bytes 0xDD when
    signing failed. *)
Lemma crypto_generate_zkproof_layout (w : world) (secret public_input : bytes)
    (k : crypto_key_t) (rand_challenge rand_nonce : option bytes) :
  is_initialized (adapter_state w) = true ->
  state_use_pq_crypto (adapter_state w) = true ->
  type k = KEY_TYPE_FALCON ->
  let engine_proof :=
    match QZKP.qzkp_generate_proof (qzkp_initialized w) (Some secret) (Some public_input)
            rand_challenge with
    | Some p => p
    | None => mock_proof
    end in
  let digest :=
    SHA256 (field (QZKP.commitment engine_proof) ++ field (QZKP.challenge engine_proof)
            ++ field (QZKP.response engine_proof)) in
  exists signature : bytes,
    (Falcon.falcon_sign (falcon_initialized w) out_buffer out_buffer (Some digest)
       (Some (Falcon.secret_key (falcon_keypair_of k))) rand_nonce
     = (0, signature, Some 49)
     \/ signature = repeat 0xDD 32)
    /\ crypto_generate_zkproof w out_buffer (Some secret) (Some public_input) (Some k)
         rand_challenge rand_nonce
       = (0, Some {| QZKP.commitment := QZKP.commitment engine_proof;
                     QZKP.challenge := QZKP.challenge engine_proof;
                     QZKP.response :=
                       Some (field (QZKP.response engine_proof)
                             ++ size_t_bytes (Z.of_nat (length signature))
                             ++ signature) |}).
Proof.
  intros Hinit Hpq Hty engine_proof digest. unfold crypto_generate_zkproof.
  unfold signing_mode. rewrite Hinit, Hpq, Hty. cbn [negb orb out_null null andb key_type_eqb].
  fold engine_proof. cbv zeta. fold digest.
  destruct (Falcon.falcon_sign _ _ _ _ _ _) as [[result written] len] eqn:Hsign.
  destruct (Z.eqb_spec result 0) as [->|Hne]; cbn [negb].
  - pose proof (falcon_sign_stores _ _ _ _ _ _ Hsign) as [-> Hlen].
    exists written. split.
    + left. rewrite Hlen. reflexivity.
    + rewrite Nat2Z.id. now rewrite firstn_all.
  - exists (repeat 221 32). split; [now right | reflexivity].
Qed.

(** What [crypto_verify_zkproof] decides on, in full: the three fields are
    present and non-empty, a public input of the length of the test literal
    equals that literal, and in signing mode the response has at least 32
    bytes.  Neither the key material nor any byte of the proof enters. *)
Lemma crypto_verify_zkproof_accepts_iff (w : world) (p : QZKP.qzkp_proof_t)
    (input : bytes) (key : option crypto_key_t) (prm : QZKP.qzkp_verify_params_t) :
  is_initialized (adapter_state w) = true ->
  crypto_verify_zkproof w (Some p) (Some input) key (Some prm) = 1
  <-> exists commit chal resp,
        QZKP.commitment p = Some commit /\ QZKP.challenge p = Some chal
        /\ QZKP.response p = Some resp
        /\ commit <> [] /\ chal <> [] /\ resp <> []
        /\ (length input = length test_public_input -> input = test_public_input)
        /\ (signing_mode w key = true -> (32 <= length resp)%nat).
Proof.
  intros Hinit. unfold crypto_verify_zkproof. rewrite Hinit. cbn [negb].
  destruct (QZKP.commitment p) as [c|]; [|split; [discriminate | intros (?&?&?&[=]&_)]].
  destruct (QZKP.challenge p) as [ch|]; [|split; [discriminate | intros (?&?&?&_&[=]&_)]].
  destruct (QZKP.response p) as [r|]; [|split; [discriminate | intros (?&?&?&_&_&[=]&_)]].
  assert (Hnil : forall l : bytes, (length l =? 0)%nat = true <-> l = []).
  { intros l. rewrite Nat.eqb_eq. destruct l; simpl; split; congruence. }
  destruct (length c =? 0)%nat eqn:Hc.
  { apply Hnil in Hc. split; [discriminate|]. intros (?&?&?&[= <-]&_&_&Hn&_). contradiction. }
  destruct (length ch =? 0)%nat eqn:Hch.
  { apply Hnil in Hch. split; [discriminate|]. intros (?&?&?&_&[= <-]&_&_&Hn&_). contradiction. }
  destruct (length r =? 0)%nat eqn:Hr.
  { apply Hnil in Hr. split; [discriminate|]. intros (?&?&?&_&_&[= <-]&_&_&Hn&_). contradiction. }
  cbn [orb].
  assert (Hc' : c <> []) by (intros ->; discriminate).
  assert (Hch' : ch <> []) by (intros ->; discriminate).
  assert (Hr' : r <> []) by (intros ->; discriminate).
  destruct (Nat.eqb_spec (length input) (length test_public_input)) as [Hlen|Hlen]; cbn [andb].
  - destruct (memcmp_eq input test_public_input (length test_public_input)) eqn:Hcmp; cbn [negb].
    + apply (memcmp_eq_whole _ _ Hlen) in Hcmp.
      destruct (signing_mode w key).
      * destruct (Nat.ltb_spec (length r) 32).
        -- split; [discriminate|]. intros (?&?&?&_&_&[= <-]&_&_&_&_&Hn).
           specialize (Hn eq_refl). lia.
        -- split; [|intros _; first [reflexivity | now match goal with |- (if ?b then _ else _) = _ => destruct b end]]. intros _. exists c, ch, r. repeat split; auto.
      * split; [|reflexivity]. intros _. exists c, ch, r. repeat split; auto. discriminate.
    + split; [discriminate|]. intros (?&?&?&_&_&_&_&_&_&Hn&_).
      apply (memcmp_eq_whole _ _ Hlen) in Hn; [congruence | exact Hlen].
  - destruct (signing_mode w key).
    + destruct (Nat.ltb_spec (length r) 32).
      * split; [discriminate|]. intros (?&?&?&_&_&[= <-]&_&_&_&_&Hn).
        specialize (Hn eq_refl). lia.
      * split; [|intros _; first [reflexivity | now match goal with |- (if ?b then _ else _) = _ => destruct b end]]. intros _. exists c, ch, r. repeat split; auto.
        intros Hl. contradiction.
    + split; [|reflexivity]. intros _. exists c, ch, r. repeat split; auto.
      * intros Hl. contradiction.
      * discriminate.
Qed.

(** C3.  The signed proof run on concrete inputs.  [crypto_generate_zkproof]
    for the secret "s3cret" and the public input "pub" returns 0 and a proof
    whose response is the engine's response, the 8-byte length 49 and the 49
    signature bytes.  [crypto_verify_zkproof] accepts it for "pub", and just
    as well for "pub-tampered"; it accepts it although the attached
    signature does not verify under the key; it accepts the placeholder proof
    that carries no signature at all; and it rejects the proof generated for
    a 29-byte public input when checked against that very input. *)
Theorem crypto_zkproof_at_failing_inputs :
  crypto_generate_zkproof Scenario.world out_buffer (Some Scenario.secret) (Some Scenario.pub)
    (Some (Scenario.falcon_key 0)) (Some Scenario.challenge_entropy)
    (Some Scenario.nonce_entropy)
  = (0, Scenario.zkproof Scenario.pub)
  /\ Scenario.zkproof Scenario.pub
     = Some {| QZKP.commitment := Some (SHA256 (Scenario.secret ++ Scenario.pub));
               QZKP.challenge := Some Scenario.challenge_entropy;
               QZKP.response :=
                 Some (SHA256 (Scenario.secret ++ Scenario.challenge_entropy)
                       ++ size_t_bytes 49
                       ++ Sample.falcon_signature
                            (SHA256 (SHA256 (Scenario.secret ++ Scenario.pub)
                                     ++ Scenario.challenge_entropy
                                     ++ SHA256 (Scenario.secret ++ Scenario.challenge_entropy))))
            |}
  /\ crypto_verify_zkproof Scenario.world (Scenario.zkproof Scenario.pub)
       (Some Scenario.pub) (Some (Scenario.falcon_key 0)) Scenario.verify_params = 1
  /\ crypto_verify_zkproof Scenario.world (Scenario.zkproof Scenario.pub)
       (Some Scenario.pub_tampered) (Some (Scenario.falcon_key 0)) Scenario.verify_params = 1
  /\ Falcon.falcon_verify true
       (Some (Sample.falcon_signature
                (SHA256 (SHA256 (Scenario.secret ++ Scenario.pub)
                         ++ Scenario.challenge_entropy
                         ++ SHA256 (Scenario.secret ++ Scenario.challenge_entropy)))))
       (Some (SHA256 (SHA256 (Scenario.secret ++ Scenario.pub)
                      ++ Scenario.challenge_entropy
                      ++ SHA256 (Scenario.secret ++ Scenario.challenge_entropy))))
       (Some (Falcon.public_key Sample.falcon_keypair)) = 0
  /\ crypto_verify_zkproof Scenario.world (Some mock_proof)
       (Some Scenario.pub) (Some (Scenario.falcon_key 0)) Scenario.verify_params = 1
  /\ crypto_verify_zkproof Scenario.world (Scenario.zkproof Scenario.pub29)
       (Some Scenario.pub29) (Some (Scenario.falcon_key 0)) Scenario.verify_params = 0.
Proof.
  split; [vm_compute; reflexivity|].
  split; [vm_compute; reflexivity|].
  split; [vm_compute; reflexivity|].
  split; [vm_compute; reflexivity|].
  split; [vm_compute; reflexivity|].
  split; vm_compute; reflexivity.
Qed.

End adapter.

(** * Properties of the remaining functions *)

(** ** quantum_zkp.c: the entanglement fingerprint and the encoder *)

Lemma xor_state_length (n : nat) (acc st : bytes) :
  length (QZKP.xor_state n acc st) = n.
Proof. unfold QZKP.xor_state. now rewrite length_map, length_seq. Qed.

Lemma xor_state_nth (n : nat) (acc st : bytes) (j : nat) :
  (j < n)%nat ->
  nth j (QZKP.xor_state n acc st) 0 = Z.lxor (nth j acc 0) (nth j st 0).
Proof. intros Hj. unfold QZKP.xor_state. now rewrite (nth_map_seq _ 0 n j Hj). Qed.

Lemma xor_state_ext (n : nat) (acc acc' st : bytes) :
  (forall j, (j < n)%nat -> nth j acc 0 = nth j acc' 0) ->
  QZKP.xor_state n acc st = QZKP.xor_state n acc' st.
Proof.
  intros H. unfold QZKP.xor_state. apply map_ext_in.
  intros j Hj. apply in_seq in Hj. rewrite H by lia. reflexivity.
Qed.

Lemma xor_state_swap (n : nat) (acc a b : bytes) :
  QZKP.xor_state n (QZKP.xor_state n acc a) b
  = QZKP.xor_state n (QZKP.xor_state n acc b) a.
Proof.
  unfold QZKP.xor_state at 1 3. apply map_ext_in.
  intros j Hj. apply in_seq in Hj.
  rewrite !xor_state_nth by lia.
  rewrite !Z.lxor_assoc. f_equal. apply Z.lxor_comm.
Qed.

Lemma xor_state_twice (n : nat) (acc a : bytes) :
  length acc = n ->
  QZKP.xor_state n (QZKP.xor_state n acc a) a = acc.
Proof.
  intros Hlen. apply (nth_ext _ _ 0 0).
  - now rewrite xor_state_length.
  - intros j Hj. rewrite xor_state_length in Hj.
    rewrite !xor_state_nth by exact Hj. apply lxor_cancel_r.
Qed.

Lemma xor_state_zero (n : nat) (st : bytes) :
  length st = n -> QZKP.xor_state n (repeat 0 n) st = st.
Proof.
  intros Hlen. apply (nth_ext _ _ 0 0).
  - now rewrite xor_state_length.
  - intros j Hj. rewrite xor_state_length in Hj.
    rewrite xor_state_nth by exact Hj.
    rewrite nth_repeat. apply Z.lxor_0_l.
Qed.

Lemma xor_fold_permutation (n : nat) (sts sts' : list bytes) :
  Permutation sts sts' ->
  forall acc, fold_left (QZKP.xor_state n) sts acc = fold_left (QZKP.xor_state n) sts' acc.
Proof.
  induction 1 as [|x l l' _ IH|x y l|l l' l'' _ IH1 _ IH2]; intros acc; cbn [fold_left].
  - reflexivity.
  - apply IH.
  - now rewrite xor_state_swap.
  - now rewrite IH1, IH2.
Qed.

(** X1.  The fingerprint [qzkp_apply_entanglement] computes does not depend
    on the order of the states: any rearrangement of the array gives the
    same result (the same digest, or NULL in the same cases). *)
Theorem qzkp_apply_entanglement_order (is_initialized : bool) (states states' : list bytes)
    (state_size : nat) :
  Permutation states states' ->
  QZKP.qzkp_apply_entanglement is_initialized (Some states) state_size
  = QZKP.qzkp_apply_entanglement is_initialized (Some states') state_size.
Proof.
  intros Hperm. unfold QZKP.qzkp_apply_entanglement.
  rewrite (Permutation_length Hperm).
  now rewrite (xor_fold_permutation state_size _ _ Hperm).
Qed.

Lemma qzkp_apply_entanglement_order_witness :
  Permutation [[1; 2; 3]; [4; 5; 6]] [[4; 5; 6]; [1; 2; 3]]
  /\ QZKP.qzkp_apply_entanglement true (Some [[1; 2; 3]; [4; 5; 6]]) 3
     = QZKP.qzkp_apply_entanglement true (Some [[4; 5; 6]; [1; 2; 3]]) 3.
Proof.
  assert (H : Permutation [[1; 2; 3]; [4; 5; 6]] [[4; 5; 6]; [1; 2; 3]]) by apply perm_swap.
  split; [exact H|].
  exact (qzkp_apply_entanglement_order true _ _ 3%nat H).
Defined.

(** X2.  A state that occurs twice cancels out of the fingerprint of
    [qzkp_apply_entanglement]: with at least one further state in the
    array, the result is that of the array without the pair; and any two
    arrays that each hold one state twice get the same fingerprint. *)
Theorem qzkp_apply_entanglement_pair_cancels (is_initialized : bool) (a b : bytes)
    (rest : list bytes) (state_size : nat) :
  QZKP.qzkp_apply_entanglement is_initialized (Some (a :: a :: b :: rest)) state_size
  = QZKP.qzkp_apply_entanglement is_initialized (Some (b :: rest)) state_size
  /\ QZKP.qzkp_apply_entanglement is_initialized (Some [a; a]) state_size
     = QZKP.qzkp_apply_entanglement is_initialized (Some [b; b]) state_size.
Proof.
  unfold QZKP.qzkp_apply_entanglement. cbn [length Nat.eqb fold_left].
  rewrite !xor_state_twice by apply repeat_length. split; reflexivity.
Qed.

Lemma div16_succ (k : nat) :
  (S k / 16 = if (k mod 16 =? 15) then S (k / 16) else k / 16)%nat.
Proof.
  pose proof (Nat.div_mod_eq k 16) as Hk.
  pose proof (Nat.mod_upper_bound k 16 ltac:(lia)) as Hr.
  destruct (Nat.eqb_spec (k mod 16) 15) as [E|E].
  - symmetry. apply (Nat.div_unique (S k) 16 (S (k / 16)) 0); lia.
  - symmetry. apply (Nat.div_unique (S k) 16 (k / 16) (S (k mod 16))); lia.
Qed.

Lemma same_byte_same_bit (i k : nat) :
  (i / 8 = k / 8)%nat -> (i mod 8 = k mod 8)%nat -> i = k.
Proof.
  intros Hd Hm.
  rewrite (Nat.div_mod_eq i 8), (Nat.div_mod_eq k 8). now rewrite Hd, Hm.
Qed.

Lemma testbit_set (a : Z) (m j : nat) :
  Z.testbit (Z.lor a (Z.shiftl 1 (Z.of_nat m))) (Z.of_nat j)
  = Z.testbit a (Z.of_nat j) || (j =? m)%nat.
Proof.
  rewrite Z.lor_spec, Z.shiftl_1_l, Z.pow2_bits_eqb by lia.
  f_equal.
  destruct (Nat.eqb_spec j m) as [->|Hne].
  - apply Z.eqb_refl.
  - apply Z.eqb_neq. lia.
Qed.

Lemma nth_insert_eq (l : bytes) (i : nat) (x : Z) :
  (i < length l)%nat -> nth i (<[i := x]> l) 0 = x.
Proof.
  intros Hi. rewrite nth_lookup, list_lookup_insert_eq by exact Hi. reflexivity.
Qed.

Lemma nth_insert_ne (l : bytes) (i j : nat) (x : Z) :
  i <> j -> nth j (<[i := x]> l) 0 = nth j l 0.
Proof.
  intros Hne. rewrite !nth_lookup, list_lookup_insert_ne by exact Hne. reflexivity.
Qed.

Lemma encode_loop (seed : bytes) (rand_byte : nat -> Z) (size : nat) (k : nat) :
  (k <= 8 * size)%nat ->
  let st := fold_left (QZKP.encode_sample rand_byte) (seq 0 k) (repeat 0 size, seed) in
  length (fst st) = size
  /\ snd st = encode_hash seed k
  /\ forall i, bit_of (fst st) i = (i <? k)%nat && encode_bit seed rand_byte i.
Proof.
  induction k as [|k IH]; intros Hk; cbn zeta.
  - cbn [seq fold_left fst snd]. split; [apply repeat_length|]. split; [reflexivity|].
    intros i. unfold bit_of. rewrite nth_repeat. now rewrite Z.testbit_0_l.
  - rewrite seq_S, fold_left_app. cbn [plus fold_left].
    specialize (IH ltac:(lia)). cbn zeta in IH.
    destruct (fold_left (QZKP.encode_sample rand_byte) (seq 0 k) (repeat 0 size, seed))
      as [encoded hash].
    cbn [fst snd] in IH. destruct IH as (Hlen & Hhash & Hbits).
    assert (Hbyte : (k / 8 < size)%nat) by (apply Nat.Div0.div_lt_upper_bound; lia).
    unfold QZKP.encode_sample. cbn [fst snd].
    split; [|split].
    + destruct (127 <? _); [rewrite length_insert|]; exact Hlen.
    + unfold encode_hash. rewrite div16_succ.
      destruct (k mod 16 =? 15)%nat; cbn [Nat.iter]; now rewrite Hhash.
    + intros i.
      assert (Hthis : (127 <? Z.lxor (nth (k mod SHA256_DIGEST_LENGTH) hash 0) (rand_byte k))
                      = encode_bit seed rand_byte k)
        by (unfold encode_bit; now rewrite Hhash).
      rewrite Hthis.
      destruct (Nat.eq_dec i k) as [->|Hik].
      * rewrite (proj2 (Nat.ltb_lt k (S k))) by lia. cbn [andb].
        pose proof (Hbits k) as Hold.
        rewrite Nat.ltb_irrefl in Hold. cbn [andb] in Hold.
        destruct (encode_bit seed rand_byte k); [|exact Hold].
        unfold bit_of. rewrite nth_insert_eq by lia.
        rewrite testbit_set, Nat.eqb_refl. apply orb_true_r.
      * replace (i <? S k)%nat with (i <? k)%nat
          by (destruct (Nat.ltb_spec i k), (Nat.ltb_spec i (S k)); lia || reflexivity).
        rewrite <- Hbits.
        destruct (encode_bit seed rand_byte k); [|reflexivity].
        unfold bit_of.
        destruct (Nat.eq_dec (k / 8)%nat (i / 8)%nat) as [Heq|Hne].
        -- rewrite <- Heq, nth_insert_eq by lia.
           rewrite testbit_set.
           destruct (Nat.eqb_spec (i mod 8) (k mod 8)) as [Hm|Hm].
           ++ exfalso. apply Hik. apply same_byte_same_bit; congruence.
           ++ apply orb_false_r.
        -- now rewrite nth_insert_ne.
Qed.

(** X3.  What [qzkp_probabilistic_encode] returns for non-empty data, a
    positive sample count and a nonce the entropy source delivers:
    [ceil(samples / 8)] bytes in which bit [i mod 8] of byte [i / 8] is set
    exactly when [i < samples] and byte [i mod 32] of the running hash,
    XOR-ed with the [i]-th drawn byte, exceeds 127.  The running hash starts
    as the digest of the data followed by the nonce and is hashed again
    after every 16 samples; bits past [samples] stay clear. *)
Theorem qzkp_probabilistic_encode_bits (data nonce : bytes) (samples : nat)
    (rand_byte : nat -> Z) :
  data <> [] -> samples <> 0%nat -> length nonce = 16%nat ->
  exists encoded,
    QZKP.qzkp_probabilistic_encode true (Some data) samples (Some nonce) rand_byte
      = Some encoded
    /\ length encoded = ((samples + 7) / 8)%nat
    /\ forall i, bit_of encoded i
                 = (i <? samples)%nat && encode_bit (SHA256 (data ++ nonce)) rand_byte i.
Proof.
  intros Hdata Hsamples Hnonce.
  unfold QZKP.qzkp_probabilistic_encode, RAND_bytes. cbn [negb orb].
  destruct data as [|x data]; [congruence|].
  destruct samples as [|n]; [congruence|].
  rewrite Hnonce. cbn [length Nat.eqb orb]. cbv zeta.
  eexists. split; [reflexivity|].
  assert (Hk : (S n <= 8 * ((S n + 7) / 8))%nat).
  { pose proof (Nat.div_mod_eq (S n + 7) 8).
    pose proof (Nat.mod_upper_bound (S n + 7) 8 ltac:(lia)). lia. }
  pose proof (encode_loop (SHA256 ((x :: data) ++ nonce)) rand_byte _ (S n) Hk) as H.
  cbn zeta in H. destruct H as (Hlen & _ & Hbits).
  split; [exact Hlen | exact Hbits].
Qed.

Lemma qzkp_probabilistic_encode_bits_witness :
  exists encoded,
    QZKP.qzkp_probabilistic_encode true (Some [1; 2; 3]) 20 (Some (Sample.entropy 16 11 5))
      (fun i => (37 * Z.of_nat i) mod 256)
      = Some encoded
    /\ length encoded = ((20 + 7) / 8)%nat
    /\ forall i, bit_of encoded i
                 = (i <? 20)%nat
                   && encode_bit (SHA256 ([1; 2; 3] ++ Sample.entropy 16 11 5))
                        (fun i => (37 * Z.of_nat i) mod 256) i.
Proof.
  apply (qzkp_probabilistic_encode_bits [1; 2; 3] (Sample.entropy 16 11 5) 20
           (fun i => (37 * Z.of_nat i) mod 256)).
  - discriminate.
  - discriminate.
  - reflexivity.
Defined.

(** ** logical_entanglement.c: single nodes *)

Section entanglement_nodes.
Import LE.

Lemma hashes_of_agree (s s' : store) (ptrs : list nat) :
  (forall q, In q ptrs -> s !! q = s' !! q) -> hashes_of s ptrs = hashes_of s' ptrs.
Proof.
  intros H. unfold hashes_of.
  induction ptrs as [|q rest IH]; [reflexivity|]. cbn [flat_map].
  rewrite (H q) by now left.
  f_equal. apply IH. intros r Hr. apply H. now right.
Qed.

Lemma set_hash_twice (n : entanglement_node_t) (h h' : option bytes) :
  set_hash (set_hash n h) h' = set_hash n h'.
Proof. reflexivity. Qed.

(** One call of [le_calculate_node_hash] on a node whose dependencies all
    have a digest once the node's own buffer is allocated: no recursion
    takes place. *)
Lemma node_hash_of_cached (fuel : nat) (junk : bytes) (s : store) (p : nat)
    (n : entanglement_node_t) (d : bytes) :
  s !! p = Some n -> data n = Some d ->
  (forall q, In q (deps n) -> has_hash (<[p := set_hash n (Some junk)]> s) q = true) ->
  le_calculate_node_hash (S fuel) true junk s (Some p)
  = Some (0, <[p := set_hash n
                      (Some (SHA256 (d ++ hashes_of (<[p := set_hash n (Some junk)]> s)
                                                    (deps n))))]> s).
Proof.
  intros Hp Hd Hdeps. cbn [le_calculate_node_hash]. rewrite Hp, Hd. cbn [negb].
  assert (Hlt : (p < length s)%nat) by (eapply lookup_lt_Some; eauto).
  destruct (Nat.eqb_spec (length (deps n)) 0) as [Hlen|Hlen].
  - apply length_zero_iff_nil in Hlen. rewrite Hlen. cbn [hashes_of flat_map].
    now rewrite app_nil_r, list_insert_insert_eq.
  - rewrite ensure_hashes_cached by exact Hdeps. cbn [Z.eqb negb].
    rewrite list_lookup_insert_eq by exact Hlt.
    cbn [set_hash data deps]. rewrite Hd.
    now rewrite list_insert_insert_eq.
Qed.

Lemma sized_compare (a b : bytes) :
  (length a =? length b)%nat && memcmp_eq a b (length a) = bytes_eqb a b.
Proof.
  destruct (Nat.eqb_spec (length a) (length b)) as [Hlen|Hlen]; cbn [andb].
  - unfold memcmp_eq. rewrite Nat.leb_refl, (proj2 (Nat.leb_le _ _)) by lia. cbn [andb].
    now rewrite firstn_all, firstn_all2 by lia.
  - symmetry. apply not_true_is_false. intros H. apply bytes_eqb_eq in H. congruence.
Qed.

Lemma has_hash_lt (s : store) (q : nat) : has_hash s q = true -> (q < length s)%nat.
Proof.
  unfold has_hash. destruct (s !! q) eqn:E; [|discriminate].
  intros _. eapply lookup_lt_Some; eauto.
Qed.

(** [le_verify_node] on a node whose dependencies all have a digest: the
    stored digest is compared with the digest of the node's present payload
    followed by the cached digests of its dependencies. *)
Lemma le_verify_node_of_cached (fuel : nat) (junk : bytes) (s : store) (p : nat)
    (n : entanglement_node_t) (d h : bytes) :
  s !! p = Some n -> data n = Some d -> hash n = Some h ->
  (forall q, In q (deps n) -> has_hash s q = true) ->
  le_verify_node (S fuel) true junk s (Some p)
  = Some (bytes_eqb h (SHA256 (d ++ hashes_of s (deps n))), s).
Proof.
  intros Hp Hd Hh Hdeps. unfold le_verify_node. rewrite Hp, Hd, Hh. cbn [negb].
  assert (Hlt : (p < length s)%nat) by (eapply lookup_lt_Some; eauto).
  set (t := {| data := Some d; hash := None; deps := deps n |}).
  assert (Ht : (s ++ [t]) !! length s = Some t) by apply list_lookup_middle, eq_refl.
  assert (Hold : forall q, (q < length s)%nat ->
            forall m, (<[length s := m]> (s ++ [t])) !! q = s !! q).
  { intros q Hq m. rewrite list_lookup_insert_ne by lia. now apply lookup_app_l. }
  rewrite (node_hash_of_cached fuel junk (s ++ [t]) (length s) t d Ht eq_refl).
  - cbn [Z.eqb negb].
    rewrite Hold by exact Hlt. rewrite Hp. cbn [fmap option_fmap option_map].
    rewrite list_lookup_insert_eq by (rewrite length_app; cbn; lia).
    cbn [fmap option_fmap option_map set_hash hash]. rewrite Hh.
    rewrite sized_compare.
    rewrite take_insert_ge, take_app_length by lia.
    cbn [deps t].
    rewrite (hashes_of_agree _ s (deps n)); [reflexivity|].
    intros q Hq. apply Hold. apply has_hash_lt. now apply Hdeps.
  - cbn [deps t]. intros q Hq. unfold has_hash.
    rewrite Hold by (apply has_hash_lt; now apply Hdeps).
    specialize (Hdeps q Hq). exact Hdeps.
Qed.

Lemma deps_hashed_apart_spec (s : store) (p : nat) (n : entanglement_node_t) :
  deps_hashed_apart s p n = true ->
  forall q, In q (deps n) -> q <> p /\ has_hash s q = true.
Proof.
  intros H q Hq. unfold deps_hashed_apart in H.
  rewrite forallb_forall in H. specialize (H q Hq).
  apply andb_prop in H as [Hne Hh]. split; [|exact Hh].
  intros ->. now rewrite Nat.eqb_refl in Hne.
Qed.

Lemma node_hash_of_hashed_deps (fuel : nat) (junk : bytes) (s : store) (p : nat)
    (n : entanglement_node_t) (d : bytes) :
  s !! p = Some n -> data n = Some d ->
  (forall q, In q (deps n) -> q <> p /\ has_hash s q = true) ->
  le_calculate_node_hash (S fuel) true junk s (Some p)
  = Some (0, <[p := set_hash n (Some (SHA256 (d ++ hashes_of s (deps n))))]> s).
Proof.
  intros Hp Hd Hspec.
  rewrite (node_hash_of_cached fuel junk s p n d Hp Hd).
  - rewrite (hashes_of_agree _ s (deps n)); [reflexivity|].
    intros q Hq. apply list_lookup_insert_ne. intros ->. now apply (Hspec q Hq).
  - intros q Hq. eapply has_hash_insert; [exact Hp|]. now apply Hspec.
Qed.

(** X4.  [le_calculate_node_hash] on a node whose dependencies are other
    nodes that all have a digest: it returns 0 and stores, as the node's
    digest, the SHA-256 of the node's payload followed by the digests of
    its dependencies in list order (of the payload alone for a node without
    dependencies); no other node changes. *)
Theorem le_calculate_node_hash_formula (fuel : nat) (junk : bytes) (s : store) (p : nat)
    (n : entanglement_node_t) (d : bytes) :
  s !! p = Some n -> data n = Some d -> deps_hashed_apart s p n = true ->
  exists s',
    le_calculate_node_hash (S fuel) true junk s (Some p) = Some (0, s')
    /\ hash <$> (s' !! p) = Some (Some (SHA256 (d ++ hashes_of s (deps n))))
    /\ length s' = length s
    /\ forall q, q <> p -> s' !! q = s !! q.
Proof.
  intros Hp Hd Hdeps.
  assert (Hlt : (p < length s)%nat) by (eapply lookup_lt_Some; eauto).
  eexists. split; [|split; [|split]].
  - apply (node_hash_of_hashed_deps fuel junk s p n d Hp Hd).
    now apply deps_hashed_apart_spec.
  - now rewrite list_lookup_insert_eq.
  - apply length_insert.
  - intros q Hq. now apply list_lookup_insert_ne.
Qed.

Lemma le_calculate_node_hash_formula_witness :
  exists s',
    le_calculate_node_hash 1 true TestNodes.junk [TestNodes.leaf; TestNodes.dependent]
      (Some 1%nat) = Some (0, s')
    /\ hash <$> (s' !! 1%nat)
       = Some (Some (SHA256 ([3] ++ hashes_of [TestNodes.leaf; TestNodes.dependent]
                                              (deps TestNodes.dependent))))
    /\ length s' = length [TestNodes.leaf; TestNodes.dependent]
    /\ forall q, q <> 1%nat -> s' !! q = [TestNodes.leaf; TestNodes.dependent] !! q.
Proof.
  exact (le_calculate_node_hash_formula 0 TestNodes.junk
           [TestNodes.leaf; TestNodes.dependent] 1 TestNodes.dependent [3]
           eq_refl eq_refl eq_refl).
Defined.

(** X5.  A node whose only dependency is itself: [le_calculate_node_hash]
    returns 0, and the digest it stores is that of the payload followed by
    the content of the freshly allocated, not yet written digest buffer,
    whatever digest the node had before. *)
Theorem le_calculate_node_hash_self_dependency (fuel : nat) (junk : bytes) (s : store)
    (p : nat) (n : entanglement_node_t) (d : bytes) :
  s !! p = Some n -> data n = Some d -> deps n = [p] ->
  le_calculate_node_hash (S fuel) true junk s (Some p)
  = Some (0, <[p := set_hash n (Some (SHA256 (d ++ junk)))]> s).
Proof.
  intros Hp Hd Hdeps.
  assert (Hlt : (p < length s)%nat) by (eapply lookup_lt_Some; eauto).
  rewrite (node_hash_of_cached fuel junk s p n d Hp Hd).
  - rewrite Hdeps. unfold hashes_of. cbn [flat_map].
    rewrite list_lookup_insert_eq by exact Hlt. cbn [set_hash hash].
    now rewrite app_nil_r.
  - rewrite Hdeps. intros q [<-|[]]. eapply has_hash_insert_eq; eauto.
Qed.

Lemma le_calculate_node_hash_self_dependency_witness :
  le_calculate_node_hash 1 true TestNodes.junk [TestNodes.self_loop] (Some 0%nat)
  = Some (0, <[0%nat := set_hash TestNodes.self_loop
                          (Some (SHA256 ([1; 2] ++ TestNodes.junk)))]>
               [TestNodes.self_loop]).
Proof.
  exact (le_calculate_node_hash_self_dependency 0 TestNodes.junk [TestNodes.self_loop] 0
           TestNodes.self_loop [1; 2] eq_refl eq_refl eq_refl).
Defined.

(** X6.  After [le_calculate_node_hash] has succeeded on a node whose
    dependencies are other nodes that all have a digest, [le_verify_node]
    on that node returns true and leaves the store as it is. *)
Theorem le_verify_node_after_hash (fuel fuel' : nat) (junk junk' : bytes) (s : store)
    (p : nat) (n : entanglement_node_t) (d : bytes) :
  s !! p = Some n -> data n = Some d -> deps_hashed_apart s p n = true ->
  exists s',
    le_calculate_node_hash (S fuel) true junk s (Some p) = Some (0, s')
    /\ le_verify_node (S fuel') true junk' s' (Some p) = Some (true, s').
Proof.
  intros Hp Hd Hdeps.
  pose proof (deps_hashed_apart_spec s p n Hdeps) as Hspec.
  assert (Hlt : (p < length s)%nat) by (eapply lookup_lt_Some; eauto).
  eexists. split; [apply (node_hash_of_hashed_deps fuel junk s p n d Hp Hd Hspec)|].
  set (h := SHA256 (d ++ hashes_of s (deps n))).
  rewrite (le_verify_node_of_cached fuel' junk' _ p (set_hash n (Some h)) d h).
  - cbn [set_hash deps].
    rewrite (hashes_of_agree _ s (deps n)).
    + fold h. now rewrite bytes_eqb_refl.
    + intros q Hq. apply list_lookup_insert_ne. intros ->. now apply (Hspec q Hq).
  - now apply list_lookup_insert_eq.
  - exact Hd.
  - reflexivity.
  - cbn [set_hash deps]. intros q Hq. eapply has_hash_insert; [exact Hp|]. now apply Hspec.
Qed.

Lemma le_verify_node_after_hash_witness :
  exists s',
    le_calculate_node_hash 1 true TestNodes.junk [TestNodes.leaf; TestNodes.dependent]
      (Some 1%nat) = Some (0, s')
    /\ le_verify_node 1 true (repeat 0xEE 32) s' (Some 1%nat) = Some (true, s').
Proof.
  exact (le_verify_node_after_hash 0 0 TestNodes.junk (repeat 0xEE 32)
           [TestNodes.leaf; TestNodes.dependent] 1 TestNodes.dependent [3]
           eq_refl eq_refl eq_refl).
Defined.

(** X7.  [le_verify_node] on a node that has a digest and whose
    dependencies all have one compares the stored digest with the SHA-256
    of the node's present payload followed by the cached digests of its
    dependencies.  Overwriting the payload of any other node, a dependency
    included, does not change its answer. *)
Theorem le_verify_node_ignores_dependency_payloads (fuel : nat) (junk : bytes) (s : store)
    (p q : nat) (n : entanglement_node_t) (d h d' : bytes) :
  s !! p = Some n -> data n = Some d -> hash n = Some h ->
  forallb (has_hash s) (deps n) = true -> (q =? p)%nat = false ->
  le_verify_node (S fuel) true junk s (Some p)
    = Some (bytes_eqb h (SHA256 (d ++ hashes_of s (deps n))), s)
  /\ le_verify_node (S fuel) true junk (overwrite_data s q d') (Some p)
     = Some (bytes_eqb h (SHA256 (d ++ hashes_of s (deps n))), overwrite_data s q d').
Proof.
  intros Hp Hd Hh Hdeps Hq.
  rewrite forallb_forall in Hdeps. apply Nat.eqb_neq in Hq.
  split; [now apply le_verify_node_of_cached|].
  pose proof (same_hashes_overwrite_data s q d') as Hsame.
  assert (Hp' : overwrite_data s q d' !! p = Some n).
  { unfold overwrite_data. destruct (s !! q); [|exact Hp].
    now rewrite list_lookup_insert_ne. }
  rewrite (le_verify_node_of_cached fuel junk _ p n d h Hp' Hd Hh).
  - now rewrite (same_hashes_hashes_of s _ (deps n) Hsame).
  - intros r Hr. rewrite (same_hashes_has_hash s _ r Hsame). now apply Hdeps.
Qed.

Lemma le_verify_node_ignores_dependency_payloads_witness :
  le_verify_node 1 true TestNodes.junk [TestNodes.leaf; TestNodes.dependent_hashed]
    (Some 1%nat)
    = Some (bytes_eqb (repeat 9 32)
              (SHA256 ([3] ++ hashes_of [TestNodes.leaf; TestNodes.dependent_hashed]
                                        (deps TestNodes.dependent_hashed))),
            [TestNodes.leaf; TestNodes.dependent_hashed])
  /\ le_verify_node 1 true TestNodes.junk
       (overwrite_data [TestNodes.leaf; TestNodes.dependent_hashed] 0 [8; 8; 8])
       (Some 1%nat)
     = Some (bytes_eqb (repeat 9 32)
               (SHA256 ([3] ++ hashes_of [TestNodes.leaf; TestNodes.dependent_hashed]
                                         (deps TestNodes.dependent_hashed))),
             overwrite_data [TestNodes.leaf; TestNodes.dependent_hashed] 0 [8; 8; 8]).
Proof.
  exact (le_verify_node_ignores_dependency_payloads 0 TestNodes.junk
           [TestNodes.leaf; TestNodes.dependent_hashed] 1 0 TestNodes.dependent_hashed
           [3] (repeat 9 32) [8; 8; 8] eq_refl eq_refl eq_refl eq_refl eq_refl).
Defined.

(** X8.  [le_calculate_node_hash] returns on every store, cyclic dependency
    graphs included: the recursion never goes deeper than the number of
    nodes without a digest plus two, since every recursive call is made on
    a node without a digest and gives it one first. *)
Theorem le_calculate_node_hash_returns (fuel : nat) (init : bool) (junk : bytes) (s : store)
    (node : option nat) :
  (hashless s <? fuel)%nat = true ->
  exists r s', le_calculate_node_hash (S fuel) init junk s node = Some (r, s').
Proof.
  intros Hs. apply Nat.ltb_lt in Hs. cbn [le_calculate_node_hash].
  destruct node as [p|]; [|eauto].
  destruct (s !! p) as [n|] eqn:Hn; [|eauto].
  destruct (data n) as [d|]; [|eauto].
  destruct init; cbn [negb]; [|eauto].
  destruct (length (deps n) =? 0)%nat; [eauto|].
  pose proof (hashless_insert_hashed s p n n junk Hn) as H1.
  destruct (ensure_hashes_returns fuel _ (deps n) (node_hash_hashless fuel true junk)
              (node_hash_returns fuel true junk) (<[p := set_hash n (Some junk)]> s))
    as (r & s2 & Hrun); [lia|].
  rewrite Hrun. destruct (negb (r =? 0)); eauto.
Qed.

Lemma le_calculate_node_hash_returns_witness :
  exists r s',
    le_calculate_node_hash 4 true TestNodes.junk TestNodes.two_cycle (Some 0%nat)
    = Some (r, s').
Proof.
  exact (le_calculate_node_hash_returns 3 true TestNodes.junk TestNodes.two_cycle
           (Some 0%nat) eq_refl).
Defined.

End entanglement_nodes.

(** ** kyber.c and falcon.c: what the outputs are made of *)

Lemma derive_public_key_length (sk : bytes) :
  length (Kyber.derive_public_key sk) = Kyber.KYBER_PUBLIC_KEY_BYTES.
Proof.
  unfold Kyber.derive_public_key. cbv zeta.
  rewrite length_app, length_map, length_seq, SHA256_length. reflexivity.
Qed.

Lemma kyber_encapsulate_layout (pk drawn : bytes) :
  length drawn = 32%nat ->
  exists ct,
    Kyber.kyber_encapsulate true out_buffer out_buffer (Some pk) (Some drawn)
      = (0, Some (ct, SHA256 (ct ++ Kyber.fixed_ephemeral)))
    /\ length ct = Kyber.KYBER_CIPHERTEXT_BYTES
    /\ ct = map (fun i => Z.lxor (nth (i mod 32)%nat Kyber.fixed_ephemeral 0)
                                 (nth (i mod Kyber.KYBER_PUBLIC_KEY_BYTES)%nat pk 0))
                (seq 0 (Kyber.KYBER_CIPHERTEXT_BYTES - 32))
            ++ SHA256 (firstn Kyber.KYBER_PUBLIC_KEY_BYTES pk ++ Kyber.fixed_ephemeral).
Proof.
  intros Hdrawn. unfold Kyber.kyber_encapsulate, RAND_bytes. cbn [negb orb out_null].
  rewrite Hdrawn. cbn [Nat.eqb]. cbv zeta.
  assert (Heph : firstn 32 Kyber.fixed_ephemeral = Kyber.fixed_ephemeral)
    by (apply firstn_all2; rewrite fixed_ephemeral_length; lia).
  rewrite Heph.
  set (ct := _ ++ SHA256 _).
  assert (Hct : length ct = Kyber.KYBER_CIPHERTEXT_BYTES)
    by (unfold ct; rewrite length_app, length_map, length_seq, SHA256_length; reflexivity).
  exists ct. split; [|split; [exact Hct | reflexivity]].
  now rewrite (firstn_all2 ct) by lia.
Qed.

(** X9.  Whenever the entropy source delivers, [kyber_encapsulate] succeeds
    with a ciphertext of [KYBER_CIPHERTEXT_BYTES] bytes, and the shared
    secret it stores is the SHA-256 of that ciphertext followed by the
    bytes 1, 2, ..., 32: a function of the ciphertext alone, for every
    public key. *)
Theorem kyber_shared_secret_from_ciphertext (public_key drawn : bytes) :
  length drawn = 32%nat ->
  exists ct,
    Kyber.kyber_encapsulate true out_buffer out_buffer (Some public_key) (Some drawn)
      = (0, Some (ct, SHA256 (ct ++ map Z.of_nat (seq 1 32))))
    /\ length ct = Kyber.KYBER_CIPHERTEXT_BYTES.
Proof.
  intros Hdrawn.
  destruct (kyber_encapsulate_layout public_key drawn Hdrawn) as (ct & Henc & Hlen & _).
  exists ct. split; [exact Henc | exact Hlen].
Qed.

Lemma kyber_shared_secret_from_ciphertext_witness :
  length (Sample.entropy 32 13 1) = 32%nat
  /\ exists ct,
       Kyber.kyber_encapsulate true out_buffer out_buffer (Some [5; 6; 7])
         (Some (Sample.entropy 32 13 1))
         = (0, Some (ct, SHA256 (ct ++ map Z.of_nat (seq 1 32))))
       /\ length ct = Kyber.KYBER_CIPHERTEXT_BYTES.
Proof.
  split; [reflexivity|].
  exact (kyber_shared_secret_from_ciphertext [5; 6; 7] (Sample.entropy 32 13 1) eq_refl).
Defined.

(** X10.  [falcon_verify] accepts, for every public key, every message
    of at most 50 bytes and every 16-byte nonce, the 49 bytes made of the
    version byte 0x30, the nonce, and the HMAC-SHA256 of the message digest
    and nonce keyed with the digest of the first 32 public-key bytes: no
    secret key enters the check. *)
Theorem falcon_verify_accepts_public_key_mac (public_key message nonce : bytes) :
  length nonce = 16%nat -> (length message <=? 50)%nat = true ->
  Falcon.falcon_verify true
    (Some ([0x30] ++ nonce
           ++ HMAC.hmac_sha256 (firstn 32 (SHA256 (firstn 32 public_key)))
                (SHA256 message ++ nonce)))
    (Some message) (Some public_key) = 1.
Proof.
  intros Hnonce Hmsg. apply Nat.leb_le in Hmsg.
  set (mac := HMAC.hmac_sha256 _ _).
  assert (Hmac : length mac = 32%nat) by apply hmac_sha256_length.
  unfold Falcon.falcon_verify. cbn [negb].
  assert (Hshort : (50 <? length message)%nat = false) by (apply Nat.ltb_ge; lia).
  rewrite Hshort. cbn [andb].
  assert (Hnonce' : firstn 16 (nonce ++ mac) = nonce)
    by (rewrite <- Hnonce; apply take_app_length).
  assert (Hmac' : skipn 16 (nonce ++ mac) = mac)
    by (rewrite <- Hnonce; apply drop_app_length).
  assert (Hsig : length ([0x30] ++ nonce ++ mac) = 49%nat)
    by (rewrite !length_app, Hnonce, Hmac; reflexivity).
  rewrite Hsig.
  cbn [Nat.ltb Nat.leb Nat.add app nth Z.eqb Pos.eqb negb skipn].
  rewrite !drop_0, Hnonce', Hmac'.
  pose proof (memcmp_eq_refl mac) as Hcmp. rewrite Hmac in Hcmp.
  fold mac. now rewrite Hcmp.
Qed.

Lemma falcon_verify_accepts_public_key_mac_witness :
  length (Sample.entropy 16 11 5) = 16%nat
  /\ (length Sample.hello_world <=? 50)%nat = true
  /\ Falcon.falcon_verify true
       (Some ([0x30] ++ Sample.entropy 16 11 5
              ++ HMAC.hmac_sha256 (firstn 32 (SHA256 (firstn 32 [9; 9; 9])))
                   (SHA256 Sample.hello_world ++ Sample.entropy 16 11 5)))
       (Some Sample.hello_world) (Some [9; 9; 9]) = 1.
Proof.
  split; [reflexivity|]. split; [reflexivity|].
  exact (falcon_verify_accepts_public_key_mac [9; 9; 9] Sample.hello_world
           (Sample.entropy 16 11 5) eq_refl eq_refl).
Defined.

(** ** crypto_adapter.c: key generation and the life cycle *)

Section key_generation.
Import Adapter.

Lemma insert_middle {A : Type} (l1 l2 : list A) (x y : A) :
  <[length l1 := x]> (l1 ++ y :: l2) = l1 ++ x :: l2.
Proof. induction l1 as [|z l1 IH]; [reflexivity|]. simpl. f_equal. exact IH. Qed.

Lemma free_middle (l1 l2 : heap) (c : bytes) :
  free (l1 ++ Live c :: l2) (length l1) = l1 ++ Released c :: l2.
Proof.
  unfold free. rewrite list_lookup_middle by reflexivity. apply insert_middle.
Qed.

Lemma insert_second {A : Type} (l1 : list A) (b x y : A) :
  <[S (length l1) := x]> (l1 ++ [b; y]) = l1 ++ [b; x].
Proof. induction l1 as [|z l1 IH]; [reflexivity|]. simpl. f_equal. exact IH. Qed.

Lemma free_second (l1 : heap) (b : block) (c : bytes) :
  free (l1 ++ [b; Live c]) (S (length l1)) = l1 ++ [b; Released c].
Proof.
  replace (l1 ++ [b; Live c]) with ((l1 ++ [b]) ++ [Live c]) by now rewrite <- app_assoc.
  replace (S (length l1)) with (length (l1 ++ [b])) by (rewrite length_app; cbn; lia).
  rewrite free_middle. now rewrite <- app_assoc.
Qed.

(** The heap after [generate_key_id], with the new block written out. *)
Lemma generate_key_id_heap (h : heap) (junk : bytes) (entropy : option bytes) :
  generate_key_id h junk entropy
  = match RAND_bytes 16 entropy with
    | None => (-2, h ++ [Released (firstn 16 junk)], None, 16%nat)
    | Some id => (0, h ++ [Live id], Some (length h), 16%nat)
    end.
Proof.
  unfold generate_key_id, malloc.
  destruct (RAND_bytes 16 entropy) as [id|].
  - now rewrite insert_middle.
  - now rewrite free_middle.
Qed.

Ltac heap_shape :=
  rewrite ?length_app; cbn [length Nat.add];
  rewrite <- ?app_assoc; cbn [app];
  rewrite ?Nat.add_1_r;
  repeat first [rewrite insert_middle | rewrite insert_second
                | rewrite free_middle | rewrite free_second].

Lemma keeps_old_blocks (h new : heap) :
  firstn (length h) (h ++ new) = h
  /\ no_live_from (length h) (h ++ new) = forallb released new.
Proof.
  split; [apply take_app_length|].
  unfold no_live_from. now rewrite drop_app_length.
Qed.

(** X11.  When [crypto_generate_key] returns an error, for whatever reason,
    every block it allocated has been released again and the blocks that
    existed before the call are untouched. *)
Theorem crypto_generate_key_failure_frees (w : world) (h h' : heap) (key_type : key_type_t)
    (key : out_ptr) (expires_in_seconds now : Z) (junk : bytes)
    (rand_id rand_key : option bytes) (code : Z) (k : option crypto_key_t) :
  crypto_generate_key w h key_type key expires_in_seconds now junk rand_id rand_key
    = (code, h', k) ->
  (code =? 0) = false ->
  firstn (length h) h' = h /\ no_live_from (length h) h' = true.
Proof.
  unfold crypto_generate_key.
  destruct (negb (is_initialized (adapter_state w)) || out_null key).
  { intros [= <- <- <-] _.
    split; [apply firstn_all | unfold no_live_from; now rewrite skipn_all]. }
  rewrite generate_key_id_heap.
  destruct (RAND_bytes 16 rand_id) as [id|]; cbn [Z.eqb negb].
  2: { intros [= <- <- <-] _. now destruct (keeps_old_blocks h [Released (firstn 16 junk)]). }
  destruct key_type.
  - unfold malloc. destruct (RAND_bytes 32 rand_key) as [material|].
    + intros [= <- <- <-]. discriminate.
    + intros [= <- <- <-] _. heap_shape.
      now destruct (keeps_old_blocks h [Released id; Released (firstn 32 junk)]).
  - destruct (negb (state_use_pq_crypto (adapter_state w))).
    + intros [= <- <- <-] _. heap_shape. now destruct (keeps_old_blocks h [Released id]).
    + destruct (Kyber.kyber_keygen _ _ _) as [r [kp|]];
        destruct (r =? 0) eqn:Hr; cbn [negb]; intros [= <- <- <-] Hcode;
        try discriminate;
        heap_shape; now destruct (keeps_old_blocks h [Released id]).
  - destruct (negb (state_use_pq_crypto (adapter_state w))).
    + intros [= <- <- <-] _. heap_shape. now destruct (keeps_old_blocks h [Released id]).
    + destruct (Falcon.falcon_keygen _ _ _) as [r [kp|]];
        destruct (r =? 0) eqn:Hr; cbn [negb]; intros [= <- <- <-] Hcode;
        try discriminate;
        heap_shape; now destruct (keeps_old_blocks h [Released id]).
Qed.

Lemma crypto_generate_key_failure_frees_witness :
  crypto_generate_key Scenario.world [] KEY_TYPE_SYMMETRIC out_buffer 0 1000
    (repeat 0xCD 32) (Some Scenario.key_id_bytes) None
  = (-3, [Released Scenario.key_id_bytes; Released (repeat 0xCD 32)],
     Some {| key_id := Some 0%nat; key_id_size := 16; creation_time := 1000;
             expiration_time := 0; key_data := symmetric (Some 1%nat) 32 |})
  /\ (-3 =? 0) = false
  /\ firstn (length (@nil block))
        [Released Scenario.key_id_bytes; Released (repeat 0xCD 32)] = []
  /\ no_live_from (length (@nil block))
        [Released Scenario.key_id_bytes; Released (repeat 0xCD 32)] = true.
Proof.
  assert (H : crypto_generate_key Scenario.world [] KEY_TYPE_SYMMETRIC out_buffer 0 1000
                (repeat 0xCD 32) (Some Scenario.key_id_bytes) None
              = (-3, [Released Scenario.key_id_bytes; Released (repeat 0xCD 32)],
                 Some {| key_id := Some 0%nat; key_id_size := 16; creation_time := 1000;
                         expiration_time := 0; key_data := symmetric (Some 1%nat) 32 |}))
    by reflexivity.
  split; [exact H|]. split; [reflexivity|].
  exact (crypto_generate_key_failure_frees _ _ _ _ _ _ _ _ _ _ _ _ H eq_refl).
Defined.

(** X12.  When [crypto_generate_key] fails after the key id has been drawn
    (key material not delivered, post-quantum keys disabled, key generation
    failed), the key structure it leaves behind still holds the address of
    the id buffer, which has been released. *)
Theorem crypto_generate_key_failure_dangling (w : world) (h h' : heap)
    (key_type : key_type_t) (expires_in_seconds now : Z) (junk id : bytes)
    (rand_id rand_key : option bytes) (code : Z) (k : option crypto_key_t) :
  is_initialized (adapter_state w) = true ->
  RAND_bytes 16 rand_id = Some id ->
  crypto_generate_key w h key_type out_buffer expires_in_seconds now junk rand_id rand_key
    = (code, h', k) ->
  (code =? 0) = false ->
  key_id <$> k = Some (Some (length h))
  /\ h' !! length h = Some (Released id).
Proof.
  intros Hinit Hid. unfold crypto_generate_key.
  rewrite Hinit. cbn [negb orb out_null].
  rewrite generate_key_id_heap, Hid. cbn [Z.eqb negb].
  destruct key_type.
  - unfold malloc. destruct (RAND_bytes 32 rand_key) as [material|].
    + intros [= <- <- <-]. discriminate.
    + intros [= <- <- <-] _. heap_shape.
      split; [reflexivity|]. now apply list_lookup_middle.
  - destruct (negb (state_use_pq_crypto (adapter_state w))).
    + intros [= <- <- <-] _. heap_shape.
      split; [reflexivity|]. now apply list_lookup_middle.
    + destruct (Kyber.kyber_keygen _ _ _) as [r [kp|]];
        destruct (r =? 0) eqn:Hr; cbn [negb]; intros [= <- <- <-] Hcode;
        try discriminate;
        heap_shape; (split; [reflexivity|]); now apply list_lookup_middle.
  - destruct (negb (state_use_pq_crypto (adapter_state w))).
    + intros [= <- <- <-] _. heap_shape.
      split; [reflexivity|]. now apply list_lookup_middle.
    + destruct (Falcon.falcon_keygen _ _ _) as [r [kp|]];
        destruct (r =? 0) eqn:Hr; cbn [negb]; intros [= <- <- <-] Hcode;
        try discriminate;
        heap_shape; (split; [reflexivity|]); now apply list_lookup_middle.
Qed.

Lemma heap_memset_second (l1 : heap) (b : block) (c : bytes) (z : Z) (n : nat) :
  heap_memset (l1 ++ [b; Live c]) (S (length l1)) z n = l1 ++ [b; Live (memset c z n)].
Proof.
  replace (l1 ++ [b; Live c]) with ((l1 ++ [b]) ++ [Live c]) by now rewrite <- app_assoc.
  replace (S (length l1)) with (length (l1 ++ [b])) by (rewrite length_app; cbn; lia).
  unfold heap_memset. rewrite list_lookup_middle by reflexivity.
  rewrite insert_middle. now rewrite <- app_assoc.
Qed.

Lemma crypto_generate_key_failure_dangling_witness :
  is_initialized (adapter_state Scenario.world) = true
  /\ RAND_bytes 16 (Some Scenario.key_id_bytes) = Some Scenario.key_id_bytes
  /\ crypto_generate_key Scenario.world [] KEY_TYPE_SYMMETRIC out_buffer 0 1000
       (repeat 0xCD 32) (Some Scenario.key_id_bytes) None
     = (-3, [Released Scenario.key_id_bytes; Released (repeat 0xCD 32)],
        Some {| key_id := Some 0%nat; key_id_size := 16; creation_time := 1000;
                expiration_time := 0; key_data := symmetric (Some 1%nat) 32 |})
  /\ key_id <$> Some {| key_id := Some 0%nat; key_id_size := 16; creation_time := 1000;
                        expiration_time := 0; key_data := symmetric (Some 1%nat) 32 |}
     = Some (Some (length (@nil block)))
  /\ [Released Scenario.key_id_bytes; Released (repeat 0xCD 32)] !! length (@nil block)
     = Some (Released Scenario.key_id_bytes).
Proof.
  assert (H : crypto_generate_key Scenario.world [] KEY_TYPE_SYMMETRIC out_buffer 0 1000
                (repeat 0xCD 32) (Some Scenario.key_id_bytes) None
              = (-3, [Released Scenario.key_id_bytes; Released (repeat 0xCD 32)],
                 Some {| key_id := Some 0%nat; key_id_size := 16; creation_time := 1000;
                         expiration_time := 0; key_data := symmetric (Some 1%nat) 32 |}))
    by reflexivity.
  split; [reflexivity|]. split; [reflexivity|]. split; [exact H|].
  exact (crypto_generate_key_failure_dangling Scenario.world [] _ KEY_TYPE_SYMMETRIC 0 1000
           (repeat 0xCD 32) Scenario.key_id_bytes (Some Scenario.key_id_bytes) None _ _
           eq_refl eq_refl H eq_refl).
Defined.

(** X13.  [crypto_free_key] after a successful [crypto_generate_key]: every
    block the generation allocated is released, the blocks that existed
    before are untouched, the key structure is zeroed, and the 32 bytes of
    a symmetric key are all zero when their block is released. *)
Theorem crypto_generate_key_then_free (w : world) (h h' : heap) (key_type : key_type_t)
    (key : out_ptr) (expires_in_seconds now : Z) (junk : bytes)
    (rand_id rand_key : option bytes) (k : option crypto_key_t) :
  crypto_generate_key w h key_type key expires_in_seconds now junk rand_id rand_key
    = (0, h', k) ->
  firstn (length h) (fst (crypto_free_key h' k)) = h
  /\ no_live_from (length h) (fst (crypto_free_key h' k)) = true
  /\ snd (crypto_free_key h' k) = Some zeroed_key
  /\ (key_type = KEY_TYPE_SYMMETRIC ->
      fst (crypto_free_key h' k) !! S (length h) = Some (Released (repeat 0 32))).
Proof.
  unfold crypto_generate_key.
  destruct (negb (is_initialized (adapter_state w)) || out_null key); [discriminate|].
  rewrite generate_key_id_heap.
  destruct (RAND_bytes 16 rand_id) as [id|]; cbn [Z.eqb negb]; [|discriminate].
  destruct key_type.
  - unfold malloc. destruct (RAND_bytes 32 rand_key) as [material|] eqn:Hm; [|discriminate].
    intros [= <- <-]. heap_shape.
    unfold crypto_free_key, with_key_data. cbn [key_id key_data fst snd].
    heap_shape. rewrite heap_memset_second, free_second.
    destruct (keeps_old_blocks h [Released id; Released (memset material 0 32)]) as [H1 H2].
    split; [exact H1|]. split; [exact H2|]. split; [reflexivity|]. intros _.
    rewrite <- (RAND_bytes_length _ _ _ Hm) at 1. rewrite memset_all.
    rewrite (RAND_bytes_length _ _ _ Hm).
    replace (h ++ [Released id; Released (repeat 0 32)])
      with ((h ++ [Released id]) ++ [Released (repeat 0 32)]) by now rewrite <- app_assoc.
    apply list_lookup_middle. rewrite length_app. cbn. lia.
  - destruct (negb (state_use_pq_crypto (adapter_state w))); [discriminate|].
    destruct (Kyber.kyber_keygen _ _ _) as [r [kp|]];
      destruct (Z.eqb_spec r 0) as [Hr|Hr]; cbn [negb]; intros H;
      apply pair_equal_spec in H as [H Hk]; apply pair_equal_spec in H as [Hc Hh];
      try (exfalso; apply Hr; exact Hc); subst h' k;
      unfold crypto_free_key, with_key_data; cbn [key_id key_data fst snd blank_key];
      heap_shape; destruct (keeps_old_blocks h [Released id]) as [H1 H2];
      (split; [exact H1|]); (split; [exact H2|]); (split; [reflexivity|]); discriminate.
  - destruct (negb (state_use_pq_crypto (adapter_state w))); [discriminate|].
    destruct (Falcon.falcon_keygen _ _ _) as [r [kp|]];
      destruct (Z.eqb_spec r 0) as [Hr|Hr]; cbn [negb]; intros H;
      apply pair_equal_spec in H as [H Hk]; apply pair_equal_spec in H as [Hc Hh];
      try (exfalso; apply Hr; exact Hc); subst h' k;
      unfold crypto_free_key, with_key_data; cbn [key_id key_data fst snd blank_key];
      heap_shape; destruct (keeps_old_blocks h [Released id]) as [H1 H2];
      (split; [exact H1|]); (split; [exact H2|]); (split; [reflexivity|]); discriminate.
Qed.

Lemma crypto_generate_key_then_free_witness :
  crypto_generate_key Scenario.world [] KEY_TYPE_SYMMETRIC out_buffer 0 1000
    (repeat 0xCD 32) (Some Scenario.key_id_bytes) (Some Scenario.symmetric_key_bytes)
  = (0, Scenario.symmetric_heap, Some Scenario.symmetric_key)
  /\ firstn (length (@nil block))
        (fst (crypto_free_key Scenario.symmetric_heap (Some Scenario.symmetric_key))) = []
  /\ no_live_from (length (@nil block))
        (fst (crypto_free_key Scenario.symmetric_heap (Some Scenario.symmetric_key))) = true
  /\ snd (crypto_free_key Scenario.symmetric_heap (Some Scenario.symmetric_key))
     = Some zeroed_key
  /\ (KEY_TYPE_SYMMETRIC = KEY_TYPE_SYMMETRIC ->
      fst (crypto_free_key Scenario.symmetric_heap (Some Scenario.symmetric_key))
        !! S (length (@nil block))
      = Some (Released (repeat 0 32))).
Proof.
  assert (H : crypto_generate_key Scenario.world [] KEY_TYPE_SYMMETRIC out_buffer 0 1000
                (repeat 0xCD 32) (Some Scenario.key_id_bytes)
                (Some Scenario.symmetric_key_bytes)
              = (0, Scenario.symmetric_heap, Some Scenario.symmetric_key))
    by reflexivity.
  split; [exact H|].
  exact (crypto_generate_key_then_free _ _ _ _ _ _ _ _ _ _ _ H).
Defined.

(** X14.  [crypto_adapter_cleanup] after a successful [crypto_adapter_init]
    on an uninitialized adapter: the adapter state is back to its initial
    value and the proof engine is shut down; with [use_pq_crypto] the
    signature and the key encapsulation primitives are shut down, in that
    order, before the proof engine, and without it they are left as they
    were; the entanglement engine is left as it was. *)
Theorem crypto_adapter_cleanup_after_init (p : crypto_adapter_params_t) (polls : rand_polls)
    (w w' : world) :
  is_initialized (adapter_state w) = false ->
  crypto_adapter_init (Some p) polls w = (0, w') ->
  adapter_state (crypto_adapter_cleanup w') = adapter_state_initial
  /\ qzkp_initialized (crypto_adapter_cleanup w') = false
  /\ le_initialized (crypto_adapter_cleanup w') = le_initialized w
  /\ if use_pq_crypto p
     then kyber_initialized (crypto_adapter_cleanup w') = false
          /\ falcon_initialized (crypto_adapter_cleanup w') = false
          /\ calls (crypto_adapter_cleanup w')
             = calls w' ++ [call_falcon_cleanup; call_kyber_cleanup; call_qzkp_cleanup]
     else kyber_initialized (crypto_adapter_cleanup w') = kyber_initialized w
          /\ falcon_initialized (crypto_adapter_cleanup w') = falcon_initialized w
          /\ calls (crypto_adapter_cleanup w') = calls w' ++ [call_qzkp_cleanup].
Proof.
  destruct w as [q l k f [ai apq ah ap] c].
  destruct polls as [pq pk pf]. destruct p as [upq uh path].
  cbn [adapter_state is_initialized]. intros ->.
  unfold crypto_adapter_init.
  cbn [adapter_state is_initialized use_pq_crypto use_hybrid key_storage_path
       poll_qzkp poll_kyber poll_falcon].
  unfold qzkp_init, kyber_init, falcon_init, QZKP.qzkp_init, Kyber.kyber_init,
    Falcon.falcon_init.
  cbn [qzkp_initialized kyber_initialized falcon_initialized le_initialized adapter_state
       calls].
  destruct q, pq, upq, k, pk, f, pf; cbn; intros H;
    try discriminate;
    apply (f_equal snd) in H; cbn [snd] in H; subst w';
    cbn; rewrite <- ?app_assoc; repeat split.
Qed.

Lemma crypto_adapter_cleanup_after_init_witness :
  is_initialized (adapter_state world_initial) = false
  /\ crypto_adapter_init (Some Scenario.params) Scenario.polls_ok world_initial
     = (0, Scenario.world)
  /\ adapter_state (crypto_adapter_cleanup Scenario.world) = adapter_state_initial
  /\ qzkp_initialized (crypto_adapter_cleanup Scenario.world) = false
  /\ le_initialized (crypto_adapter_cleanup Scenario.world) = le_initialized world_initial
  /\ kyber_initialized (crypto_adapter_cleanup Scenario.world) = false
  /\ falcon_initialized (crypto_adapter_cleanup Scenario.world) = false
  /\ calls (crypto_adapter_cleanup Scenario.world)
     = calls Scenario.world ++ [call_falcon_cleanup; call_kyber_cleanup; call_qzkp_cleanup].
Proof.
  split; [reflexivity|]. split; [reflexivity|].
  exact (crypto_adapter_cleanup_after_init Scenario.params Scenario.polls_ok
           world_initial Scenario.world eq_refl eq_refl).
Defined.

End key_generation.

(** ** hydra_cgo.c *)

Section bridge_lifecycle.
Import Adapter Hydra.

Lemma qzkp_init_lifted (poll : bool) (w : world) :
  Adapter.qzkp_init poll w
  = (if qzkp_initialized w || poll then 0 else -1,
     {| qzkp_initialized := qzkp_initialized w || poll;
        le_initialized := le_initialized w;
        kyber_initialized := kyber_initialized w;
        falcon_initialized := falcon_initialized w;
        adapter_state := adapter_state w;
        calls := calls w ++ [call_qzkp_init] |}).
Proof.
  unfold Adapter.qzkp_init, QZKP.qzkp_init. now destruct (qzkp_initialized w), poll.
Qed.

Lemma kyber_init_lifted (poll : bool) (w : world) :
  Adapter.kyber_init poll w
  = (if kyber_initialized w || poll then 0 else -1,
     {| qzkp_initialized := qzkp_initialized w;
        le_initialized := le_initialized w;
        kyber_initialized := kyber_initialized w || poll;
        falcon_initialized := falcon_initialized w;
        adapter_state := adapter_state w;
        calls := calls w ++ [call_kyber_init] |}).
Proof.
  unfold Adapter.kyber_init, Kyber.kyber_init. now destruct (kyber_initialized w), poll.
Qed.

Lemma falcon_init_lifted (poll : bool) (w : world) :
  Adapter.falcon_init poll w
  = (if falcon_initialized w || poll then 0 else -1,
     {| qzkp_initialized := qzkp_initialized w;
        le_initialized := le_initialized w;
        kyber_initialized := kyber_initialized w;
        falcon_initialized := falcon_initialized w || poll;
        adapter_state := adapter_state w;
        calls := calls w ++ [call_falcon_init] |}).
Proof.
  unfold Adapter.falcon_init, Falcon.falcon_init. now destruct (falcon_initialized w), poll.
Qed.

Lemma le_init_lifted (w : world) :
  le_init w
  = (0, {| qzkp_initialized := qzkp_initialized w;
           le_initialized := true;
           kyber_initialized := kyber_initialized w;
           falcon_initialized := falcon_initialized w;
           adapter_state := adapter_state w;
           calls := calls w |}).
Proof. unfold le_init, LE.le_init. now destruct (le_initialized w). Qed.

Ltac fields :=
  cbn [qzkp_initialized le_initialized kyber_initialized falcon_initialized
       adapter_state calls hydra_initialized engines fst snd orb Z.eqb negb].

(** [crypto_adapter_init] once the three engines it starts are running. *)
Lemma crypto_adapter_init_started (p : crypto_adapter_params_t) (polls : rand_polls)
    (w : world) :
  qzkp_initialized w = true -> kyber_initialized w = true -> falcon_initialized w = true ->
  fst (crypto_adapter_init (Some p) polls w) = 0
  /\ qzkp_initialized (snd (crypto_adapter_init (Some p) polls w)) = true
  /\ le_initialized (snd (crypto_adapter_init (Some p) polls w)) = le_initialized w
  /\ kyber_initialized (snd (crypto_adapter_init (Some p) polls w)) = true
  /\ falcon_initialized (snd (crypto_adapter_init (Some p) polls w)) = true
  /\ is_initialized (adapter_state (snd (crypto_adapter_init (Some p) polls w))) = true.
Proof.
  intros Hq Hk Hf. unfold crypto_adapter_init.
  destruct (is_initialized (adapter_state w)) eqn:Hi.
  { cbn [fst snd]. now rewrite Hq, Hk, Hf, Hi. }
  rewrite qzkp_init_lifted, Hq. fields.
  destruct (use_pq_crypto p).
  - rewrite kyber_init_lifted. fields. rewrite Hk. fields.
    rewrite falcon_init_lifted. fields. rewrite Hf. fields.
    unfold set_adapter_state. fields. cbn [is_initialized]. repeat split.
  - unfold set_adapter_state. fields. cbn [is_initialized]. now rewrite Hk, Hf.
Qed.

(** X15.  [hydra_init] returns 0 or -1, and -1 exactly when the bridge is
    not initialized yet and [RAND_poll] fails inside the init of the proof
    engine, the key encapsulation or the signature primitive while that
    module is not yet running.  Neither [le_init] nor [crypto_adapter_init]
    can make it fail. *)
Theorem hydra_init_fails_only_on_rand_poll (polls adapter_polls : rand_polls)
    (st : hydra_state) :
  fst (hydra_init polls adapter_polls st)
  = if hydra_initialized st
       || (qzkp_initialized (engines st) || poll_qzkp polls)
          && (kyber_initialized (engines st) || poll_kyber polls)
          && (falcon_initialized (engines st) || poll_falcon polls)
    then 0 else -1.
Proof.
  unfold hydra_init. destruct (hydra_initialized st); [reflexivity|]. cbn [orb].
  rewrite qzkp_init_lifted.
  destruct (qzkp_initialized (engines st) || poll_qzkp polls); fields; cbn [andb];
    [|reflexivity].
  rewrite le_init_lifted. fields.
  rewrite kyber_init_lifted. fields.
  destruct (kyber_initialized (engines st) || poll_kyber polls); fields; cbn [andb];
    [|reflexivity].
  rewrite falcon_init_lifted. fields.
  destruct (falcon_initialized (engines st) || poll_falcon polls); fields; cbn [andb];
    [|reflexivity].
  match goal with
  | |- context [crypto_adapter_init (Some params) adapter_polls ?w] =>
      destruct (crypto_adapter_init_started params adapter_polls w eq_refl eq_refl eq_refl)
        as (Hr & _);
      destruct (crypto_adapter_init (Some params) adapter_polls w) as [r w5]
  end.
  cbn [fst] in Hr. subst r. reflexivity.
Qed.

(** X16.  [hydra_init] on an uninitialized bridge: on success all four
    engines, the adapter and the bridge itself are initialized; on failure
    the bridge stays uninitialized, the adapter state is untouched, the
    proof engine is off, and no engine is running that was not running
    before the call. *)
Theorem hydra_init_all_or_nothing (polls adapter_polls : rand_polls) (st : hydra_state) :
  hydra_initialized st = false ->
  let r := fst (hydra_init polls adapter_polls st) in
  let st' := snd (hydra_init polls adapter_polls st) in
  if r =? 0
  then all_initialized st' = true
  else hydra_initialized st' = false
       /\ adapter_state (engines st') = adapter_state (engines st)
       /\ qzkp_initialized (engines st') = false
       /\ implb (le_initialized (engines st')) (le_initialized (engines st)) = true
       /\ implb (kyber_initialized (engines st')) (kyber_initialized (engines st)) = true
       /\ implb (falcon_initialized (engines st')) (falcon_initialized (engines st)) = true.
Proof.
  intros Hst. unfold hydra_init. rewrite Hst.
  rewrite qzkp_init_lifted.
  destruct (qzkp_initialized (engines st) || poll_qzkp polls) eqn:Hq; fields.
  2: { repeat split; apply implb_same. }
  rewrite le_init_lifted. fields.
  rewrite kyber_init_lifted. fields.
  destruct (kyber_initialized (engines st) || poll_kyber polls) eqn:Hk; fields.
  2: { unfold Adapter.qzkp_cleanup, le_cleanup. fields. repeat split. apply implb_same. }
  rewrite falcon_init_lifted. fields.
  destruct (falcon_initialized (engines st) || poll_falcon polls) eqn:Hf; fields.
  2: { unfold Adapter.qzkp_cleanup, le_cleanup, Adapter.kyber_cleanup. fields. repeat split. }
  match goal with
  | |- context [crypto_adapter_init (Some params) adapter_polls ?w] =>
      destruct (crypto_adapter_init_started params adapter_polls w eq_refl eq_refl eq_refl)
        as (Hr & H1 & H2 & H3 & H4 & H5);
      destruct (crypto_adapter_init (Some params) adapter_polls w) as [r w5]
  end.
  cbn [fst snd] in *. subst r. cbn [Z.eqb negb fst snd].
  unfold all_initialized. cbn [hydra_initialized engines].
  rewrite H1, H2, H3, H4, H5. reflexivity.
Qed.

Lemma hydra_init_all_or_nothing_witness :
  hydra_initialized hydra_state_initial = false
  /\ all_initialized HydraScenario.state = true.
Proof.
  split; [reflexivity|].
  exact (hydra_init_all_or_nothing Scenario.polls_ok Scenario.polls_ok
           hydra_state_initial eq_refl).
Defined.

(** X17.  [hydra_cleanup] after a successful [hydra_init] on an
    uninitialized bridge leaves the bridge and all four engines
    uninitialized and the adapter state at its initial value. *)
Theorem hydra_cleanup_after_init (polls adapter_polls : rand_polls) (st : hydra_state) :
  hydra_initialized st = false ->
  fst (hydra_init polls adapter_polls st) = 0 ->
  let st' := hydra_cleanup (snd (hydra_init polls adapter_polls st)) in
  hydra_initialized st' = false
  /\ qzkp_initialized (engines st') = false
  /\ le_initialized (engines st') = false
  /\ kyber_initialized (engines st') = false
  /\ falcon_initialized (engines st') = false
  /\ adapter_state (engines st') = adapter_state_initial.
Proof.
  intros Hst. unfold hydra_init. rewrite Hst.
  rewrite qzkp_init_lifted.
  destruct (qzkp_initialized (engines st) || poll_qzkp polls) eqn:Hq; fields;
    [|discriminate].
  rewrite le_init_lifted. fields.
  rewrite kyber_init_lifted. fields.
  destruct (kyber_initialized (engines st) || poll_kyber polls) eqn:Hk; fields;
    [|discriminate].
  rewrite falcon_init_lifted. fields.
  destruct (falcon_initialized (engines st) || poll_falcon polls) eqn:Hf; fields;
    [|discriminate].
  match goal with
  | |- context [crypto_adapter_init (Some params) adapter_polls ?w] =>
      destruct (crypto_adapter_init_started params adapter_polls w eq_refl eq_refl eq_refl)
        as (Hr & H1 & H2 & H3 & H4 & H5);
      destruct (crypto_adapter_init (Some params) adapter_polls w) as [r w5]
  end.
  cbn [fst snd] in *. subst r. cbn [Z.eqb negb fst snd]. intros _.
  unfold hydra_cleanup, crypto_adapter_cleanup. cbn [hydra_initialized engines negb].
  rewrite H5. cbn [negb]. repeat split.
Qed.

Lemma hydra_cleanup_after_init_witness :
  hydra_initialized hydra_state_initial = false
  /\ fst (hydra_init Scenario.polls_ok Scenario.polls_ok hydra_state_initial) = 0
  /\ hydra_initialized (hydra_cleanup HydraScenario.state) = false
  /\ qzkp_initialized (engines (hydra_cleanup HydraScenario.state)) = false
  /\ le_initialized (engines (hydra_cleanup HydraScenario.state)) = false
  /\ kyber_initialized (engines (hydra_cleanup HydraScenario.state)) = false
  /\ falcon_initialized (engines (hydra_cleanup HydraScenario.state)) = false
  /\ adapter_state (engines (hydra_cleanup HydraScenario.state)) = adapter_state_initial.
Proof.
  split; [reflexivity|]. split; [reflexivity|].
  exact (hydra_cleanup_after_init Scenario.polls_ok Scenario.polls_ok
           hydra_state_initial eq_refl eq_refl).
Defined.

End bridge_lifecycle.

Section bridge_keys.
Import Adapter Hydra.

Lemma read_bytes_exact (n : nat) (b : bytes) : length b = n -> read_bytes n b = b.
Proof.
  intros <-. unfold read_bytes. now rewrite firstn_all, Nat.sub_diag, app_nil_r.
Qed.

Lemma read_bytes_length (n : nat) (b : bytes) : length (read_bytes n b) = n.
Proof.
  unfold read_bytes. rewrite length_app, length_firstn, repeat_length. lia.
Qed.

Lemma all_initialized_flags (st : hydra_state) :
  all_initialized st = true ->
  hydra_initialized st = true
  /\ qzkp_initialized (engines st) = true
  /\ le_initialized (engines st) = true
  /\ kyber_initialized (engines st) = true
  /\ falcon_initialized (engines st) = true
  /\ is_initialized (adapter_state (engines st)) = true.
Proof.
  unfold all_initialized. intros H.
  repeat (apply andb_prop in H as [H ?]). repeat split; assumption.
Qed.

Lemma kyber_keygen_derives (seed : bytes) :
  length seed = 32%nat ->
  exists sk,
    Kyber.kyber_keygen true out_buffer (Some seed)
      = (0, Some {| Kyber.public_key := Kyber.derive_public_key sk; Kyber.secret_key := sk |})
    /\ length sk = Kyber.KYBER_SECRET_KEY_BYTES.
Proof.
  intros Hseed. unfold Kyber.kyber_keygen, RAND_bytes. cbn [negb orb out_null].
  rewrite Hseed. cbn [Nat.eqb]. cbv zeta.
  eexists. split; [reflexivity|].
  rewrite length_app, length_map, length_seq, SHA256_length. reflexivity.
Qed.

Lemma kyber_decapsulate_of_encapsulate (sk drawn : bytes) :
  length drawn = 32%nat ->
  exists ct ss,
    Kyber.kyber_encapsulate true out_buffer out_buffer
      (Some (Kyber.derive_public_key sk)) (Some drawn) = (0, Some (ct, ss))
    /\ length ct = Kyber.KYBER_CIPHERTEXT_BYTES
    /\ length ss = Kyber.KYBER_SHARED_SECRET_BYTES
    /\ Kyber.kyber_decapsulate true out_buffer (Some ct) (Some sk) = (0, Some ss).
Proof.
  intros Hdrawn.
  destruct (kyber_encapsulate_layout (Kyber.derive_public_key sk) drawn Hdrawn)
    as (ct & Henc & Hlen & Hct).
  exists ct, (SHA256 (ct ++ Kyber.fixed_ephemeral)).
  split; [exact Henc|]. split; [exact Hlen|]. split; [apply SHA256_length|].
  unfold Kyber.kyber_decapsulate. cbn [negb orb out_null]. cbv zeta.
  rewrite (firstn_all2 ct) by lia.
  assert (Heph : map (fun i => Z.lxor (nth i ct 0)
                                 (nth (i mod Kyber.KYBER_PUBLIC_KEY_BYTES)%nat
                                      (Kyber.derive_public_key sk) 0))
                     (seq 0 32)
                 = Kyber.fixed_ephemeral).
  { rewrite Hct. apply ephemeral_recovered.
    - apply fixed_ephemeral_length.
    - unfold Kyber.KYBER_CIPHERTEXT_BYTES. lia. }
  rewrite Heph.
  now rewrite (firstn_all2 Kyber.fixed_ephemeral) by (rewrite fixed_ephemeral_length; lia).
Qed.

Lemma not_expired_without_expiry (k : crypto_key_t) (now : Z) :
  expiration_time k = 0 -> expired k now = false.
Proof. intros H. unfold expired. now rewrite H. Qed.

(** X18.  Through the bridge, with everything initialized and the entropy
    source delivering: [hydra_generate_kyber_key] makes a key pair,
    [hydra_establish_shared_key] under the public key gives a ciphertext and
    a 32-byte secret, and [hydra_receive_shared_key] of that ciphertext
    under the secret key returns 0 and the same secret, at any later
    time. *)
Theorem hydra_shared_key_round_trip (st : hydra_state) (seed drawn : bytes) (now now' : Z) :
  all_initialized st = true -> length seed = 32%nat -> length drawn = 32%nat ->
  exists public_key secret_key ciphertext shared_secret,
    hydra_generate_kyber_key st out_buffer out_buffer (Some seed)
      = (0, Some (public_key, secret_key))
    /\ hydra_establish_shared_key st (Some public_key) out_buffer out_buffer now (Some drawn)
       = (0, Some shared_secret, Some ciphertext)
    /\ hydra_receive_shared_key st (Some secret_key) (Some ciphertext) out_buffer now'
       = (0, Some shared_secret)
    /\ length shared_secret = Kyber.KYBER_SHARED_SECRET_BYTES.
Proof.
  intros Hst Hseed Hdrawn.
  destruct (all_initialized_flags st Hst) as (Hh & _ & _ & Hk & _ & Ha).
  destruct (kyber_keygen_derives seed Hseed) as (sk & Hgen & Hsk).
  destruct (kyber_decapsulate_of_encapsulate sk drawn Hdrawn)
    as (ct & ss & Henc & Hct & Hss & Hdec).
  exists (Kyber.derive_public_key sk), sk, ct, ss.
  split; [|split; [|split]].
  - unfold hydra_generate_kyber_key. rewrite Hh, Hk, Hgen. cbn [negb orb out_null Z.eqb].
    cbn [Kyber.public_key Kyber.secret_key].
    now rewrite !read_bytes_exact by (apply derive_public_key_length || exact Hsk).
  - unfold hydra_establish_shared_key, crypto_establish_key.
    rewrite Hh, Ha, Hk. cbn [negb orb out_null].
    rewrite read_bytes_exact by apply derive_public_key_length.
    unfold kyber_key at 1 2. cbn [type key_data key_type_eqb negb].
    rewrite not_expired_without_expiry by reflexivity.
    unfold kyber_keypair_of, kyber_key. cbn [key_data Kyber.public_key].
    rewrite Henc. reflexivity.
  - unfold hydra_receive_shared_key, crypto_receive_key.
    rewrite Hh, Ha, Hk. cbn [negb orb out_null].
    rewrite !read_bytes_exact by (exact Hct || exact Hsk).
    unfold kyber_key at 1 2. cbn [type key_data key_type_eqb negb].
    rewrite not_expired_without_expiry by reflexivity.
    rewrite Hct, Nat.eqb_refl. cbn [negb].
    unfold kyber_keypair_of, kyber_key. cbn [key_data Kyber.secret_key].
    rewrite Hdec. reflexivity.
  - exact Hss.
Qed.

Lemma hydra_shared_key_round_trip_witness :
  all_initialized HydraScenario.state = true
  /\ length Sample.kyber_seed = 32%nat
  /\ length (Sample.entropy 32 13 1) = 32%nat
  /\ exists public_key secret_key ciphertext shared_secret,
       hydra_generate_kyber_key HydraScenario.state out_buffer out_buffer
         (Some Sample.kyber_seed) = (0, Some (public_key, secret_key))
       /\ hydra_establish_shared_key HydraScenario.state (Some public_key) out_buffer
            out_buffer 1000 (Some (Sample.entropy 32 13 1))
          = (0, Some shared_secret, Some ciphertext)
       /\ hydra_receive_shared_key HydraScenario.state (Some secret_key) (Some ciphertext)
            out_buffer 2000
          = (0, Some shared_secret)
       /\ length shared_secret = Kyber.KYBER_SHARED_SECRET_BYTES.
Proof.
  split; [reflexivity|]. split; [reflexivity|]. split; [reflexivity|].
  exact (hydra_shared_key_round_trip HydraScenario.state Sample.kyber_seed
           (Sample.entropy 32 13 1) 1000 2000 eq_refl eq_refl eq_refl).
Defined.

(** X19.  [hydra_verify_signature] reports valid (1) for every message
    that starts with the first 44 bytes of the adapter's test sentence,
    whatever follows them, under every non-empty signature and every public
    key. *)
Theorem hydra_verify_signature_test_sentence (st : hydra_state)
    (rest signature public_key : bytes) (now : Z) :
  all_initialized st = true -> (length signature =? 0)%nat = false ->
  hydra_verify_signature st (Some (adapter_test_prefix ++ rest)) (Some signature)
    (Some public_key) now = 1.
Proof.
  intros Hst Hsig.
  destruct (all_initialized_flags st Hst) as (Hh & _ & _ & _ & _ & Ha).
  unfold hydra_verify_signature, crypto_verify_signature.
  rewrite Hh, Hsig, Ha. cbn [negb orb].
  assert (Hlen : (length (adapter_test_prefix ++ rest) =? 0)%nat = false).
  { rewrite length_app. change (length adapter_test_prefix) with 44%nat. reflexivity. }
  rewrite Hlen.
  unfold falcon_key at 1 2. cbn [type key_data key_type_eqb negb].
  rewrite not_expired_without_expiry by reflexivity.
  assert (Hlong : (10 <? length (adapter_test_prefix ++ rest))%nat = true).
  { apply Nat.ltb_lt. rewrite length_app. change (length adapter_test_prefix) with 44%nat. lia. }
  assert (Hcmp : memcmp_eq (adapter_test_prefix ++ rest)
                   (bytes_of_string "This is a test message for the crypto adapter") 44 = true).
  { unfold memcmp_eq. rewrite firstn_app.
    change (length adapter_test_prefix) with 44%nat.
    rewrite Nat.sub_diag, firstn_O, app_nil_r.
    replace (firstn 44 adapter_test_prefix) with adapter_test_prefix by reflexivity.
    replace (firstn 44 (bytes_of_string "This is a test message for the crypto adapter"))
      with adapter_test_prefix by reflexivity.
    rewrite bytes_eqb_refl, andb_true_r.
    apply andb_true_intro. split; apply Nat.leb_le.
    - rewrite length_app. change (length adapter_test_prefix) with 44%nat. lia.
    - change (length (bytes_of_string "This is a test message for the crypto adapter"))
        with 45%nat. lia. }
  now rewrite Hlong, Hcmp.
Qed.

Lemma hydra_verify_signature_test_sentence_witness :
  all_initialized HydraScenario.state = true
  /\ (length [0] =? 0)%nat = false
  /\ hydra_verify_signature HydraScenario.state
       (Some (adapter_test_prefix ++ bytes_of_string ", forged")) (Some [0])
       (Some [1; 2; 3]) 1000 = 1.
Proof.
  split; [reflexivity|]. split; [reflexivity|].
  exact (hydra_verify_signature_test_sentence HydraScenario.state
           (bytes_of_string ", forged") [0] [1; 2; 3] 1000 eq_refl eq_refl).
Defined.

(** X20.  [hydra_sign_message] on a non-empty message, with everything
    initialized and a nonce delivered: a signature buffer announced as
    shorter than 666 bytes is refused with -4 and nothing is written;
    otherwise it returns 0, stores 49 as the length, and writes the version
    byte 0x30, the nonce, and the HMAC-SHA256 of message digest and nonce
    keyed with the first 32 secret-key bytes.  The clock does not matter:
    the key the wrapper builds never expires. *)
Theorem hydra_sign_message_buffer (st : hydra_state) (message secret_key nonce : bytes)
    (signature_len now : Z) :
  all_initialized st = true -> (length message =? 0)%nat = false ->
  length nonce = 16%nat ->
  hydra_sign_message st (Some message) (Some secret_key) out_buffer (Some signature_len)
    now (Some nonce)
  = if signature_len <? 666 then (-4, [], None)
    else (0,
          [0x30] ++ nonce
          ++ HMAC.hmac_sha256
               (firstn 32 (read_bytes Falcon.FALCON_SECRET_KEY_BYTES secret_key))
               (SHA256 message ++ nonce),
          Some 49).
Proof.
  intros Hst Hmsg Hnonce.
  destruct (all_initialized_flags st Hst) as (Hh & _ & _ & _ & Hf & Ha).
  unfold hydra_sign_message, crypto_sign_message.
  rewrite Hh, Hmsg, Ha. cbn [negb orb out_null].
  unfold falcon_key at 1 2. cbn [type key_data key_type_eqb negb].
  rewrite not_expired_without_expiry by reflexivity.
  change (Z.of_nat Falcon.FALCON_SIGNATURE_MAX_BYTES) with 666.
  destruct (signature_len <? 666); [reflexivity|].
  unfold Falcon.falcon_sign, RAND_bytes. rewrite Hf, Hnonce.
  cbn [negb orb out_null Nat.eqb]. cbv zeta.
  unfold falcon_keypair_of, falcon_key. cbn [key_data Falcon.secret_key].
  now rewrite (firstn_all2 (HMAC.hmac_sha256 _ _)) by (rewrite hmac_sha256_length; lia).
Qed.

Lemma hydra_sign_message_buffer_witness :
  all_initialized HydraScenario.state = true
  /\ (length Sample.hello_world =? 0)%nat = false
  /\ length (Sample.entropy 16 11 5) = 16%nat
  /\ hydra_sign_message HydraScenario.state (Some Sample.hello_world) (Some [1; 2; 3])
       out_buffer (Some 100) 1000 (Some (Sample.entropy 16 11 5))
     = (-4, [], None).
Proof.
  split; [reflexivity|]. split; [reflexivity|]. split; [reflexivity|].
  exact (hydra_sign_message_buffer HydraScenario.state Sample.hello_world [1; 2; 3]
           (Sample.entropy 16 11 5) 100 1000 eq_refl eq_refl eq_refl).
Defined.

End bridge_keys.

Section bridge_proofs.
Import Adapter Hydra.

Lemma size_t_bytes_length (n : Z) : length (size_t_bytes n) = 8%nat.
Proof. unfold size_t_bytes. now rewrite length_map, length_seq. Qed.

Lemma le_bytes_decode (k : nat) (n : Z) :
  0 <= n ->
  fold_right (fun x acc => x + 256 * acc) 0
    (map (fun i => Z.land (Z.shiftr n (8 * Z.of_nat i)) 255) (seq 0 k))
  = n mod 2 ^ (8 * Z.of_nat k).
Proof.
  revert n. induction k as [|k IH]; intros n Hn.
  - cbn [seq map fold_right]. now rewrite Z.mod_1_r.
  - cbn [seq map fold_right]. rewrite <- seq_shift, map_map.
    rewrite (map_ext _ (fun i => Z.land (Z.shiftr (n / 256) (8 * Z.of_nat i)) 255)).
    + rewrite IH by (apply Z.div_pos; lia).
      change (8 * Z.of_nat 0) with 0. rewrite Z.shiftr_0_r.
      change 255 with (Z.ones 8). rewrite Z.land_ones by lia.
      replace (8 * Z.of_nat (S k)) with (8 + 8 * Z.of_nat k) by lia.
      rewrite Z.pow_add_r by lia. change (2 ^ 8) with 256.
      rewrite (Z.rem_mul_r n 256 (2 ^ (8 * Z.of_nat k))) by lia. reflexivity.
    + intros i. f_equal.
      replace (8 * Z.of_nat (S i)) with (8 + 8 * Z.of_nat i) by lia.
      rewrite <- Z.shiftr_shiftr by lia. f_equal.
      now rewrite Z.shiftr_div_pow2 by lia.
Qed.

Lemma size_t_of_bytes_app (n : Z) (rest : bytes) :
  0 <= n < 2 ^ 64 -> size_t_of_bytes (size_t_bytes n ++ rest) = n.
Proof.
  intros Hn. unfold size_t_of_bytes, read_bytes.
  rewrite firstn_app, size_t_bytes_length, Nat.sub_diag, firstn_O, app_nil_r.
  rewrite firstn_all2 by (rewrite size_t_bytes_length; lia).
  rewrite ?length_app, ?size_t_bytes_length.
  replace (8 - (8 + length rest))%nat with 0%nat by lia.
  cbn [repeat]. rewrite app_nil_r.
  unfold size_t_bytes. rewrite le_bytes_decode by lia.
  change (8 * Z.of_nat 8) with 64. apply Z.mod_small. exact Hn.
Qed.

Lemma skipn_size_t (n : Z) (rest : bytes) : skipn 8 (size_t_bytes n ++ rest) = rest.
Proof. rewrite <- (size_t_bytes_length n). apply drop_app_length. Qed.

(** [hydra_verify_zkproof] on a buffer that holds three sizes and at least
    as many bytes as they announce. *)
Lemma hydra_verify_zkproof_parses (st : hydra_state) (c ch r : nat) (body input : bytes) :
  hydra_initialized st = true -> qzkp_initialized (engines st) = true ->
  (c + ch + r <= length body)%nat -> Z.of_nat (24 + length body) < 2 ^ 64 ->
  hydra_verify_zkproof st
    (Some (size_t_bytes (Z.of_nat c) ++ size_t_bytes (Z.of_nat ch)
           ++ size_t_bytes (Z.of_nat r) ++ body))
    (Some input)
  = Some (if (r =? 32)%nat then 1 else 0).
Proof.
  intros Hh Hq Hbody Hfit.
  unfold hydra_verify_zkproof. rewrite Hh, Hq. cbn [negb orb].
  set (buf := _ ++ _ ++ _ ++ body).
  assert (Hlen : length buf = (24 + length body)%nat)
    by (unfold buf; rewrite !length_app, !size_t_bytes_length; lia).
  assert (Hc : size_t_of_bytes buf = Z.of_nat c)
    by (unfold buf; apply size_t_of_bytes_app; lia).
  assert (Hch : size_t_of_bytes (skipn 8 buf) = Z.of_nat ch)
    by (unfold buf; rewrite skipn_size_t; apply size_t_of_bytes_app; lia).
  assert (Hr : size_t_of_bytes (skipn 16 buf) = Z.of_nat r).
  { unfold buf. change 16%nat with (8 + 8)%nat.
    rewrite <- drop_drop, !skipn_size_t. apply size_t_of_bytes_app. lia. }
  assert (Hdata : skipn (3 * 8) buf = body).
  { unfold buf. change (3 * 8)%nat with (8 + (8 + 8))%nat.
    now rewrite <- !drop_drop, !skipn_size_t. }
  rewrite Hc, Hch, Hr, Hdata, Hlen.
  assert (Hshort : (24 + length body <? 3 * 8)%nat = false) by (apply Nat.ltb_ge; lia).
  rewrite Hshort.
  rewrite Z.mod_small by lia.
  rewrite (proj2 (Z.ltb_ge _ _)) by lia.
  cbv zeta. unfold QZKP.qzkp_verify_proof.
  cbn [QZKP.commitment QZKP.challenge QZKP.response negb].
  rewrite !Nat2Z.id.
  rewrite length_firstn, !length_skipn.
  replace (Nat.min r (length body - c - ch)) with r by lia.
  reflexivity.
Qed.

(** X21.  [hydra_verify_zkproof] on a buffer that starts with three sizes
    and holds at least as many bytes as they announce returns 1 when the
    third size, that of the response, is 32, and 0 otherwise: neither the
    bytes of commitment, challenge and response nor the public input have a
    say. *)
Theorem hydra_verify_zkproof_checks_response_size (st : hydra_state) (c ch r : nat)
    (body input : bytes) :
  all_initialized st = true ->
  (c + ch + r <=? length body)%nat = true ->
  (Z.of_nat (24 + length body) <? 2 ^ 64) = true ->
  hydra_verify_zkproof st
    (Some (size_t_bytes (Z.of_nat c) ++ size_t_bytes (Z.of_nat ch)
           ++ size_t_bytes (Z.of_nat r) ++ body))
    (Some input)
  = Some (if (r =? 32)%nat then 1 else 0).
Proof.
  intros Hst Hbody Hfit.
  destruct (all_initialized_flags st Hst) as (Hh & Hq & _).
  apply Nat.leb_le in Hbody. apply Z.ltb_lt in Hfit.
  now apply hydra_verify_zkproof_parses.
Qed.

Lemma hydra_verify_zkproof_checks_response_size_witness :
  all_initialized HydraScenario.state = true
  /\ (1 + 1 + 32 <=? length (repeat 0 34))%nat = true
  /\ (Z.of_nat (24 + length (repeat 0 34)) <? 2 ^ 64) = true
  /\ hydra_verify_zkproof HydraScenario.state
       (Some (size_t_bytes (Z.of_nat 1) ++ size_t_bytes (Z.of_nat 1)
              ++ size_t_bytes (Z.of_nat 32) ++ repeat 0 34))
       (Some [1; 2; 3])
     = Some (if (32 =? 32)%nat then 1 else 0).
Proof.
  split; [reflexivity|]. split; [reflexivity|]. split; [reflexivity|].
  exact (hydra_verify_zkproof_checks_response_size HydraScenario.state 1 1 32
           (repeat 0 34) [1; 2; 3] eq_refl eq_refl eq_refl).
Defined.

(** X22.  [hydra_generate_zkproof] needs 120 bytes.  With a shorter buffer
    it returns -3, writes no proof and stores 120 as the needed length;
    otherwise it returns 0, stores 120, and writes three sizes of 32, the
    digest of secret and public input, the challenge, and the digest of
    secret and challenge. *)
Theorem hydra_generate_zkproof_buffer (st : hydra_state) (secret public_input rand : bytes)
    (proof_len : Z) :
  all_initialized st = true -> (length secret =? 0)%nat = false ->
  length rand = 32%nat ->
  hydra_generate_zkproof st (Some secret) (Some public_input) out_buffer (Some proof_len)
    (Some rand)
  = if proof_len <? 120 then (-3, None, Some 120)
    else (0,
          Some (size_t_bytes 32 ++ size_t_bytes 32 ++ size_t_bytes 32
                ++ SHA256 (secret ++ public_input) ++ rand ++ SHA256 (secret ++ rand)),
          Some 120).
Proof.
  intros Hst Hsecret Hrand.
  destruct (all_initialized_flags st Hst) as (Hh & Hq & _).
  unfold hydra_generate_zkproof, QZKP.qzkp_generate_proof, RAND_bytes.
  rewrite Hh, Hq, Hsecret, Hrand. cbn [negb orb out_null Nat.eqb]. cbv zeta.
  unfold serialized.
  cbn [QZKP.commitment QZKP.challenge QZKP.response field].
  rewrite !SHA256_length, Hrand.
  reflexivity.
Qed.

Lemma hydra_generate_zkproof_buffer_witness :
  all_initialized HydraScenario.state = true
  /\ (length Scenario.secret =? 0)%nat = false
  /\ length Scenario.challenge_entropy = 32%nat
  /\ hydra_generate_zkproof HydraScenario.state (Some Scenario.secret) (Some Scenario.pub)
       out_buffer (Some 119) (Some Scenario.challenge_entropy)
     = (-3, None, Some 120).
Proof.
  split; [reflexivity|]. split; [reflexivity|]. split; [reflexivity|].
  exact (hydra_generate_zkproof_buffer HydraScenario.state Scenario.secret Scenario.pub
           Scenario.challenge_entropy 119 eq_refl eq_refl eq_refl).
Defined.

(** X23.  A proof serialized by [hydra_generate_zkproof] has 120 bytes and
    is accepted (1) by [hydra_verify_zkproof], with the public input it was
    made for and with any other public input as well. *)
Theorem hydra_zkproof_round_trip (st : hydra_state)
    (secret public_input other_input rand : bytes) (proof_len : Z) :
  all_initialized st = true -> (length secret =? 0)%nat = false ->
  length rand = 32%nat -> (120 <=? proof_len) = true ->
  exists proof,
    hydra_generate_zkproof st (Some secret) (Some public_input) out_buffer (Some proof_len)
      (Some rand) = (0, Some proof, Some 120)
    /\ length proof = 120%nat
    /\ hydra_verify_zkproof st (Some proof) (Some public_input) = Some 1
    /\ hydra_verify_zkproof st (Some proof) (Some other_input) = Some 1.
Proof.
  intros Hst Hsecret Hrand Hlen.
  destruct (all_initialized_flags st Hst) as (Hh & Hq & _).
  apply Z.leb_le in Hlen.
  unfold hydra_generate_zkproof, QZKP.qzkp_generate_proof, RAND_bytes.
  rewrite Hh, Hq, Hsecret, Hrand. cbn [negb orb out_null Nat.eqb]. cbv zeta.
  unfold serialized.
  cbn [QZKP.commitment QZKP.challenge QZKP.response field].
  rewrite !SHA256_length, Hrand.
  change SHA256_DIGEST_LENGTH with 32%nat.
  change (Z.of_nat (8 * 3 + 32 + 32 + 32)) with 120.
  rewrite (proj2 (Z.ltb_ge _ _)) by lia.
  eexists. split; [reflexivity|].
  set (body := SHA256 (secret ++ public_input) ++ rand ++ SHA256 (secret ++ rand)).
  assert (Hbody : length body = 96%nat)
    by (unfold body; rewrite !length_app, !SHA256_length, Hrand; reflexivity).
  split; [rewrite !length_app, !size_t_bytes_length, Hbody; reflexivity|].
  split;
    apply (hydra_verify_zkproof_parses st 32 32 32 body _ Hh Hq);
    rewrite Hbody; try lia; reflexivity.
Qed.

Lemma hydra_zkproof_round_trip_witness :
  all_initialized HydraScenario.state = true
  /\ (length Scenario.secret =? 0)%nat = false
  /\ length Scenario.challenge_entropy = 32%nat
  /\ (120 <=? 4096) = true
  /\ exists proof,
       hydra_generate_zkproof HydraScenario.state (Some Scenario.secret) (Some Scenario.pub)
         out_buffer (Some 4096) (Some Scenario.challenge_entropy) = (0, Some proof, Some 120)
       /\ length proof = 120%nat
       /\ hydra_verify_zkproof HydraScenario.state (Some proof) (Some Scenario.pub) = Some 1
       /\ hydra_verify_zkproof HydraScenario.state (Some proof) (Some Scenario.pub_tampered)
          = Some 1.
Proof.
  split; [reflexivity|]. split; [reflexivity|]. split; [reflexivity|]. split; [reflexivity|].
  exact (hydra_zkproof_round_trip HydraScenario.state Scenario.secret Scenario.pub
           Scenario.pub_tampered Scenario.challenge_entropy 4096
           eq_refl eq_refl eq_refl eq_refl).
Defined.

(** X24.  The size check of [hydra_verify_zkproof] adds the three sizes
    in [size_t]: a 24-byte buffer that announces a commitment of 1 to 65536
    bytes and a challenge size that makes the sum wrap around to 0 passes
    the check, and the copy of the commitment then reads past the end of
    the buffer. *)
Theorem hydra_verify_zkproof_size_wraps (st : hydra_state) (c : Z) (input : bytes) :
  all_initialized st = true -> (0 <? c) && (c <=? 65536) = true ->
  hydra_verify_zkproof st
    (Some (size_t_bytes c ++ size_t_bytes (2 ^ 64 - 24 - c) ++ size_t_bytes 0))
    (Some input)
  = None.
Proof.
  intros Hst Hc.
  destruct (all_initialized_flags st Hst) as (Hh & Hq & _).
  apply andb_prop in Hc as [Hc0 Hc1]. apply Z.ltb_lt in Hc0. apply Z.leb_le in Hc1.
  unfold hydra_verify_zkproof. rewrite Hh. cbn [negb orb].
  set (buf := _ ++ _ ++ _).
  assert (Hlen : length buf = 24%nat)
    by (unfold buf; rewrite !length_app, !size_t_bytes_length; reflexivity).
  assert (H1 : size_t_of_bytes buf = c)
    by (unfold buf; apply size_t_of_bytes_app; lia).
  assert (H2 : size_t_of_bytes (skipn 8 buf) = 2 ^ 64 - 24 - c)
    by (unfold buf; rewrite skipn_size_t; apply size_t_of_bytes_app; lia).
  assert (H3 : size_t_of_bytes (skipn 16 buf) = 0).
  { unfold buf. change 16%nat with (8 + 8)%nat.
    rewrite <- drop_drop, !skipn_size_t.
    rewrite <- (app_nil_r (size_t_bytes 0)). apply size_t_of_bytes_app. lia. }
  rewrite H1, H2, H3, Hlen.
  replace (3 * 8 + c + (2 ^ 64 - 24 - c) + 0) with (2 ^ 64) by lia.
  rewrite Z.mod_same by lia.
  reflexivity.
Qed.

Lemma hydra_verify_zkproof_size_wraps_witness :
  all_initialized HydraScenario.state = true
  /\ (0 <? 1000) && (1000 <=? 65536) = true
  /\ hydra_verify_zkproof HydraScenario.state
       (Some (size_t_bytes 1000 ++ size_t_bytes (2 ^ 64 - 24 - 1000) ++ size_t_bytes 0))
       (Some [1; 2; 3])
     = None.
Proof.
  split; [reflexivity|]. split; [reflexivity|].
  exact (hydra_verify_zkproof_size_wraps HydraScenario.state 1000 [1; 2; 3] eq_refl eq_refl).
Defined.

End bridge_proofs.

Section bridge_entanglement.
Import LE Hydra.

Lemma create_nodes_fresh (ds : list bytes) (s : store) :
  forallb (fun d => negb (length d =? 0)%nat) ds = true ->
  create_nodes true s (map Some ds) = (Some (seq (length s) (length ds)), s ++ map fresh ds).
Proof.
  revert s. induction ds as [|d rest IH]; intros s Hall; cbn [map create_nodes].
  - now rewrite app_nil_r.
  - cbn [forallb] in Hall. apply andb_prop in Hall as [Hd Hrest].
    unfold le_create_node. cbn [negb orb].
    apply negb_true_iff in Hd. rewrite Hd.
    rewrite IH by exact Hrest.
    rewrite length_app. cbn [length seq map].
    rewrite Nat.add_1_r, <- app_assoc. reflexivity.
Qed.

Lemma create_nodes_refuses (items : list (option bytes)) (s : store) :
  existsb refused_item items = true -> fst (create_nodes true s items) = None.
Proof.
  revert s. induction items as [|item rest IH]; intros s Hex; [discriminate|].
  cbn [existsb] in Hex. cbn [create_nodes]. unfold le_create_node.
  destruct item as [d|]; [|reflexivity]. cbn [negb orb refused_item] in *.
  destruct (length d =? 0)%nat; [reflexivity|]. cbn [orb] in Hex.
  specialize (IH (s ++ [{| data := Some d; hash := None; deps := [] |}]) Hex).
  destruct (create_nodes true _ rest) as [[nodes|] s'']; [discriminate | reflexivity].
Qed.

Lemma chain_dependencies_step (init : bool) (s : store) (previous node : nat)
    (rest : list nat) :
  chain_dependencies init s (previous :: node :: rest)
  = let '(r, s') := le_add_dependency init true s (Some node) (Some previous) in
    if negb (r =? 0) then (r, s') else chain_dependencies init s' (node :: rest).
Proof. reflexivity. Qed.

Lemma chain_dependencies_links (ds : list bytes) (done : store) (x : entanglement_node_t) :
  chain_dependencies true (done ++ x :: map fresh ds) (seq (length done) (S (length ds)))
  = (0, done ++ x :: links (length done) ds).
Proof.
  revert done x. induction ds as [|d rest IH]; intros done x.
  - reflexivity.
  - cbn [length seq map links]. rewrite chain_dependencies_step.
    unfold le_add_dependency.
    assert (Hnode : (done ++ x :: fresh d :: map fresh rest) !! S (length done)
                    = Some (fresh d)).
    { replace (done ++ x :: fresh d :: map fresh rest)
        with ((done ++ [x]) ++ fresh d :: map fresh rest) by now rewrite <- app_assoc.
      apply list_lookup_middle. rewrite length_app. cbn. lia. }
    rewrite Hnode. cbn [negb Z.eqb].
    replace (<[S (length done) := set_deps (fresh d) (deps (fresh d) ++ [length done])]>
               (done ++ x :: fresh d :: map fresh rest))
      with ((done ++ [x]) ++
            {| data := Some d; hash := None; deps := [length done] |} :: map fresh rest).
    + specialize (IH (done ++ [x]) {| data := Some d; hash := None; deps := [length done] |}).
      rewrite length_app in IH. cbn [length] in IH. rewrite Nat.add_1_r in IH.
      cbn [seq] in IH. rewrite IH. now rewrite <- app_assoc.
    + replace (done ++ x :: fresh d :: map fresh rest)
        with ((done ++ [x]) ++ fresh d :: map fresh rest) by now rewrite <- app_assoc.
      replace (S (length done)) with (length (done ++ [x]))
        by (rewrite length_app; cbn; lia).
      now rewrite insert_middle.
Qed.

Lemma ensure_hashes_chain (fuel : nat) (junk : bytes) (ds : list bytes) (done : store)
    (x : entanglement_node_t) (d : bytes) :
  data x = Some d -> hash x = None ->
  (forall q, In q (deps x) -> has_hash done q = true) ->
  let hx := SHA256 (d ++ hashes_of done (deps x)) in
  ensure_hashes (le_calculate_node_hash (S fuel) true junk)
    (seq (length done) (S (length ds))) (done ++ x :: links (length done) ds)
  = Some (0, done ++ set_hash x (Some hx) :: hashed_links hx (length done) ds).
Proof.
  revert done x d. induction ds as [|d' rest IH]; intros done x d Hd Hh Hdeps hx;
    cbn [length seq ensure_hashes].
  all: assert (Hx : forall tail, (done ++ x :: tail) !! length done = Some x)
         by (intros tail; now apply list_lookup_middle).
  all: assert (Hnone : forall tail, has_hash (done ++ x :: tail) (length done) = false)
         by (intros tail; unfold has_hash; now rewrite Hx, Hh).
  all: assert (Hcalc : forall tail,
         le_calculate_node_hash (S fuel) true junk (done ++ x :: tail) (Some (length done))
         = Some (0, done ++ set_hash x (Some hx) :: tail)).
  1, 3: intros tail;
    rewrite (node_hash_of_hashed_deps fuel junk _ (length done) x d (Hx tail) Hd);
    [ rewrite insert_middle; unfold hx;
      rewrite (hashes_of_agree (done ++ x :: tail) done (deps x)); [reflexivity|];
      intros q Hq; apply lookup_app_l, has_hash_lt; now apply Hdeps
    | intros q Hq; pose proof (has_hash_lt _ _ (Hdeps q Hq)) as Hlt;
      split; [lia|]; unfold has_hash; rewrite lookup_app_l by exact Hlt;
      exact (Hdeps q Hq) ].
  - rewrite Hnone, Hcalc. reflexivity.
  - rewrite Hnone, Hcalc. cbn [Z.eqb links hashed_links].
    specialize (IH (done ++ [set_hash x (Some hx)])
                  {| data := Some d'; hash := None; deps := [length done] |} d'
                  eq_refl eq_refl).
    rewrite length_app in IH. cbn [length] in IH. rewrite Nat.add_1_r in IH.
    cbn zeta in IH. rewrite <- !app_assoc in IH. cbn [app] in IH.
    cbn [deps hashes_of flat_map] in IH.
    rewrite list_lookup_middle in IH by reflexivity.
    cbn [set_hash hash] in IH. rewrite app_nil_r in IH.
    apply IH.
    intros q [<-|[]]. unfold has_hash. now rewrite list_lookup_middle.
Qed.

Lemma hashes_of_chain (ds : list bytes) (done : store) (x : entanglement_node_t)
    (hx : bytes) :
  hash x = Some hx ->
  hashes_of (done ++ x :: hashed_links hx (length done) ds)
    (seq (length done) (S (length ds)))
  = hx ++ concat (chain_hashes hx ds).
Proof.
  revert done x hx. induction ds as [|d rest IH]; intros done x hx Hh;
    cbn [length seq hashes_of flat_map hashed_links chain_hashes concat].
  - rewrite list_lookup_middle by reflexivity. now rewrite Hh.
  - rewrite list_lookup_middle by reflexivity. rewrite Hh. f_equal.
    specialize (IH (done ++ [x]) {| data := Some d; hash := Some (SHA256 (d ++ hx));
                                    deps := [length done] |} (SHA256 (d ++ hx)) eq_refl).
    rewrite length_app in IH. cbn [length] in IH. rewrite Nat.add_1_r in IH.
    rewrite <- app_assoc in IH. cbn [app] in IH.
    unfold hashes_of in IH. cbn [seq] in IH. exact IH.
Qed.

(** [hydra_create_entanglement] on non-empty items, none of them empty. *)
Lemma hydra_create_entanglement_chain (fuel : nat) (junk : bytes) (st : hydra_state)
    (d : bytes) (rest : list bytes) :
  hydra_initialized st = true -> Adapter.le_initialized (engines st) = true ->
  forallb (fun d => negb (length d =? 0)%nat) (d :: rest) = true ->
  hydra_create_entanglement (S fuel) junk st (Some (map Some (d :: rest))) out_buffer
  = Some (0, Some (chain_root (d :: rest))).
Proof.
  intros Hh Hle Hall. unfold hydra_create_entanglement.
  rewrite Hh, Hle. cbn [negb orb out_null]. rewrite length_map. cbn [length Nat.eqb].
  rewrite (create_nodes_fresh (d :: rest) [] Hall). cbn [length app map].
  pose proof (chain_dependencies_links rest [] (fresh d)) as Hchain.
  cbn [app length] in Hchain. rewrite Hchain. cbn [Z.eqb negb].
  unfold le_create_graph. cbn [negb orb]. rewrite length_seq. cbn [Nat.eqb].
  unfold le_calculate_root_hash. cbn [nodes negb orb]. rewrite length_seq. cbn [Nat.eqb].
  pose proof (ensure_hashes_chain fuel junk rest [] (fresh d) d eq_refl eq_refl) as Hens.
  cbn [length app] in Hens. cbn zeta in Hens.
  rewrite Hens by (intros q []). cbn [Z.eqb negb root_hash].
  pose proof (hashes_of_chain rest [] (set_hash (fresh d) (Some (SHA256 (d ++ hashes_of [] []))))
                (SHA256 (d ++ hashes_of [] [])) eq_refl) as Hroot.
  cbn [length app] in Hroot. cbn [fresh deps] in *. rewrite Hroot.
  reflexivity.
Qed.

(** X25.  [hydra_create_entanglement] on one or more items, none of them
    empty: it returns 0 and writes the SHA-256 of the concatenated digests
    of a chain in which the first item is hashed alone and every further
    item is hashed together with the digest of the item before it. *)
Theorem hydra_create_entanglement_root (fuel : nat) (junk : bytes) (st : hydra_state)
    (items : list bytes) :
  all_initialized st = true ->
  (length items =? 0)%nat = false ->
  forallb (fun d => negb (length d =? 0)%nat) items = true ->
  hydra_create_entanglement (S fuel) junk st (Some (map Some items)) out_buffer
  = Some (0, Some (chain_root items)).
Proof.
  intros Hst Hlen Hall.
  destruct (all_initialized_flags st Hst) as (Hh & _ & Hle & _).
  destruct items as [|d rest]; [discriminate|].
  now apply hydra_create_entanglement_chain.
Qed.

Lemma hydra_create_entanglement_root_witness :
  all_initialized HydraScenario.state = true
  /\ (length [[1; 2; 3]; [4; 5]] =? 0)%nat = false
  /\ forallb (fun d => negb (length d =? 0)%nat) [[1; 2; 3]; [4; 5]] = true
  /\ hydra_create_entanglement 1 TestNodes.junk HydraScenario.state
       (Some (map Some [[1; 2; 3]; [4; 5]])) out_buffer
     = Some (0, Some (chain_root [[1; 2; 3]; [4; 5]])).
Proof.
  split; [reflexivity|]. split; [reflexivity|]. split; [reflexivity|].
  exact (hydra_create_entanglement_root 0 TestNodes.junk HydraScenario.state
           [[1; 2; 3]; [4; 5]] eq_refl eq_refl eq_refl).
Defined.

(** X26.  [hydra_verify_entanglement] builds the chain digest of the items
    anew and compares its 32 bytes with the hash it is given: it returns 1
    when they match and 0 when they do not, and 1 on what
    [hydra_create_entanglement] wrote for the same items. *)
Theorem hydra_verify_entanglement_recomputes (fuel : nat) (junk : bytes) (st : hydra_state)
    (items : list bytes) (expected : bytes) :
  all_initialized st = true ->
  (length items =? 0)%nat = false ->
  forallb (fun d => negb (length d =? 0)%nat) items = true ->
  hydra_verify_entanglement (S fuel) junk st (Some (map Some items)) (Some expected)
    = Some (if memcmp_eq (chain_root items) expected 32 then 1 else 0)
  /\ hydra_verify_entanglement (S fuel) junk st (Some (map Some items))
       (Some (chain_root items))
     = Some 1.
Proof.
  intros Hst Hlen Hall.
  destruct (all_initialized_flags st Hst) as (Hh & _ & Hle & _).
  destruct items as [|d rest]; [discriminate|].
  unfold hydra_verify_entanglement.
  rewrite (hydra_create_entanglement_chain fuel junk st d rest Hh Hle Hall).
  rewrite Hh, length_map. cbn [negb orb length Nat.eqb Z.eqb].
  split; [reflexivity|].
  pose proof (memcmp_eq_refl (chain_root (d :: rest))) as Hcmp.
  unfold chain_root in Hcmp at 3. rewrite SHA256_length in Hcmp.
  change SHA256_DIGEST_LENGTH with 32%nat in Hcmp. now rewrite Hcmp.
Qed.

Lemma hydra_verify_entanglement_recomputes_witness :
  all_initialized HydraScenario.state = true
  /\ (length [[1; 2; 3]; [4; 5]] =? 0)%nat = false
  /\ forallb (fun d => negb (length d =? 0)%nat) [[1; 2; 3]; [4; 5]] = true
  /\ hydra_verify_entanglement 1 TestNodes.junk HydraScenario.state
       (Some (map Some [[1; 2; 3]; [4; 5]])) (Some (repeat 0 32))
     = Some (if memcmp_eq (chain_root [[1; 2; 3]; [4; 5]]) (repeat 0 32) 32 then 1 else 0)
  /\ hydra_verify_entanglement 1 TestNodes.junk HydraScenario.state
       (Some (map Some [[1; 2; 3]; [4; 5]])) (Some (chain_root [[1; 2; 3]; [4; 5]]))
     = Some 1.
Proof.
  split; [reflexivity|]. split; [reflexivity|]. split; [reflexivity|].
  exact (hydra_verify_entanglement_recomputes 0 TestNodes.junk HydraScenario.state
           [[1; 2; 3]; [4; 5]] (repeat 0 32) eq_refl eq_refl eq_refl).
Defined.

(** X27.  [hydra_create_entanglement] returns -3 and writes nothing as
    soon as one of the items is a NULL pointer or has length zero. *)
Theorem hydra_create_entanglement_refuses (fuel : nat) (junk : bytes) (st : hydra_state)
    (items : list (option bytes)) :
  all_initialized st = true ->
  existsb refused_item items = true ->
  hydra_create_entanglement fuel junk st (Some items) out_buffer = Some (-3, None).
Proof.
  intros Hst Hex.
  destruct (all_initialized_flags st Hst) as (Hh & _ & Hle & _).
  unfold hydra_create_entanglement. rewrite Hh, Hle. cbn [negb orb out_null].
  destruct items as [|item rest]; [discriminate|]. cbn [length Nat.eqb].
  pose proof (create_nodes_refuses (item :: rest) [] Hex) as Hnone.
  destruct (create_nodes true [] (item :: rest)) as [[nodes|] s]; [discriminate|].
  reflexivity.
Qed.

Lemma hydra_create_entanglement_refuses_witness :
  all_initialized HydraScenario.state = true
  /\ existsb refused_item [Some [1; 2; 3]; Some []; Some [4; 5]] = true
  /\ hydra_create_entanglement 0 TestNodes.junk HydraScenario.state
       (Some [Some [1; 2; 3]; Some []; Some [4; 5]]) out_buffer
     = Some (-3, None).
Proof.
  split; [reflexivity|]. split; [reflexivity|].
  exact (hydra_create_entanglement_refuses 0 TestNodes.junk HydraScenario.state
           [Some [1; 2; 3]; Some []; Some [4; 5]] eq_refl eq_refl).
Defined.

End bridge_entanglement.

Section bridge_geolocation.
Import Hydra.

Lemma geolocation_digest (st : hydra_state) (latitude longitude : bytes)
    (country_code region_code : string) :
  hydra_initialized st = true -> Adapter.qzkp_initialized (engines st) = true ->
  hydra_create_geolocation_commitment st latitude longitude
    (Some country_code) (Some region_code) out_buffer
  = (0, Some (SHA256 (read_bytes 8 latitude ++ read_bytes 8 longitude
                      ++ c_str country_code ++ c_str region_code))).
Proof.
  intros Hh Hq. unfold hydra_create_geolocation_commitment.
  rewrite Hh, Hq. cbn [negb orb out_null]. cbv zeta.
  unfold QZKP.qzkp_apply_entanglement. cbn [negb orb length Nat.eqb fold_left].
  rewrite xor_state_zero
    by (rewrite !length_app, !read_bytes_length; lia).
  cbn [Nat.add Nat.eqb].
  now rewrite (read_bytes_exact 32) by apply SHA256_length.
Qed.

(** X28.  [hydra_create_geolocation_commitment] returns 0 and writes the
    SHA-256 of the 8 bytes of the latitude, the 8 bytes of the longitude,
    the country code and the region code, one after the other: the XOR
    fold over a single state leaves it unchanged.  The two codes are joined
    without a separator, so two pairs of codes with the same concatenation
    get the same commitment. *)
Theorem hydra_create_geolocation_commitment_digest (st : hydra_state)
    (latitude longitude : bytes) (country_code region_code : string) :
  all_initialized st = true ->
  hydra_create_geolocation_commitment st latitude longitude
    (Some country_code) (Some region_code) out_buffer
  = (0, Some (SHA256 (read_bytes 8 latitude ++ read_bytes 8 longitude
                      ++ c_str country_code ++ c_str region_code)))
  /\ forall country_code' region_code',
       c_str country_code' ++ c_str region_code' = c_str country_code ++ c_str region_code ->
       hydra_create_geolocation_commitment st latitude longitude
         (Some country_code') (Some region_code') out_buffer
       = hydra_create_geolocation_commitment st latitude longitude
           (Some country_code) (Some region_code) out_buffer.
Proof.
  intros Hst.
  destruct (all_initialized_flags st Hst) as (Hh & Hq & _).
  split; [now apply geolocation_digest|].
  intros cc' rc' Heq. rewrite !geolocation_digest by assumption.
  now rewrite Heq.
Qed.

Lemma hydra_create_geolocation_commitment_digest_witness :
  all_initialized HydraScenario.state = true
  /\ hydra_create_geolocation_commitment HydraScenario.state
       (repeat 0x40 8) (repeat 0xC0 8) (Some "US"%string) (Some "CA"%string) out_buffer
     = (0, Some (SHA256 (read_bytes 8 (repeat 0x40 8) ++ read_bytes 8 (repeat 0xC0 8)
                         ++ c_str "US" ++ c_str "CA")))
  /\ forall country_code' region_code',
       c_str country_code' ++ c_str region_code' = c_str "US" ++ c_str "CA" ->
       hydra_create_geolocation_commitment HydraScenario.state
         (repeat 0x40 8) (repeat 0xC0 8) (Some country_code') (Some region_code') out_buffer
       = hydra_create_geolocation_commitment HydraScenario.state
           (repeat 0x40 8) (repeat 0xC0 8) (Some "US"%string) (Some "CA"%string) out_buffer.
Proof.
  split; [reflexivity|].
  exact (hydra_create_geolocation_commitment_digest HydraScenario.state
           (repeat 0x40 8) (repeat 0xC0 8) "US" "CA" eq_refl).
Defined.

End bridge_geolocation.

(** ** crypto_adapter.c: the lifetime of a generated key *)

Section key_lifetime.
Import Adapter.

(** X29.  The lifetime of a key made by [crypto_generate_key], with
    the clock and the lifetime small enough for their sum not to wrap: a
    KEM key generated at time [now] for [expires_in_seconds] seconds carries
    [now] as its creation time and [now + expires_in_seconds] as its
    expiration time (0, no expiration, for a lifetime of 0), and
    [crypto_establish_key] under it at time [later] returns -3 exactly when
    the lifetime is positive and [later] is past [now + expires_in_seconds],
    and 0 otherwise. *)
Theorem crypto_generated_key_lifetime (w : world) (h : heap) (junk id seed drawn : bytes)
    (expires_in_seconds now later : Z) :
  is_initialized (adapter_state w) && state_use_pq_crypto (adapter_state w)
    && kyber_initialized w = true ->
  length id = 16%nat -> length seed = 32%nat -> length drawn = 32%nat ->
  (0 <=? now) && (0 <=? expires_in_seconds) && (now + expires_in_seconds <? 2 ^ 64)
    && (0 <=? later) && (later <? 2 ^ 64) = true ->
  exists h' k,
    crypto_generate_key w h KEY_TYPE_KYBER out_buffer expires_in_seconds now junk
      (Some id) (Some seed) = (0, h', Some k)
    /\ creation_time k = now
    /\ expiration_time k = (if 0 <? expires_in_seconds then now + expires_in_seconds else 0)
    /\ est_code (crypto_establish_key w out_buffer out_buffer out_buffer out_buffer
                   (Some k) later (Some drawn))
       = if (0 <? expires_in_seconds) && (now + expires_in_seconds <? later) then -3 else 0.
Proof.
  intros Hw Hid Hseed Hdrawn Hbounds.
  apply andb_prop in Hw as [Hw Hk]. apply andb_prop in Hw as [Hi Hpq].
  repeat (apply andb_prop in Hbounds as [Hbounds ?]).
  repeat match goal with
         | H : (_ <=? _) = true |- _ => apply Z.leb_le in H
         | H : (_ <? _) = true |- _ => apply Z.ltb_lt in H
         end.
  destruct (kyber_keygen_derives seed Hseed) as (sk & Hgen & _).
  unfold crypto_generate_key. rewrite Hi, Hpq, Hk. cbn [negb orb out_null].
  rewrite generate_key_id_heap. unfold RAND_bytes at 1. rewrite Hid. cbn [Nat.eqb Z.eqb negb].
  rewrite Hgen. cbn [Z.eqb negb].
  rewrite (Z.mod_small now) by lia.
  rewrite (Z.mod_small (now + expires_in_seconds)) by lia.
  eexists _, _. split; [reflexivity|].
  unfold with_key_data. cbn [creation_time expiration_time key_id key_id_size key_data].
  split; [reflexivity|]. split; [reflexivity|].
  unfold crypto_establish_key. rewrite Hi, Hk. cbn [negb orb out_null].
  cbn [type key_data key_type_eqb negb].
  unfold expired. cbn [expiration_time]. rewrite (Z.mod_small later) by lia.
  destruct (Z.ltb_spec 0 expires_in_seconds) as [He|He]; cbn [andb].
  - rewrite (proj2 (Z.ltb_lt 0 (now + expires_in_seconds))) by lia. cbn [andb].
    destruct (now + expires_in_seconds <? later); [reflexivity|].
    unfold kyber_keypair_of. cbn [key_data Kyber.public_key].
    destruct (kyber_encapsulate_layout (Kyber.derive_public_key sk) drawn Hdrawn)
      as (ct & Henc & _).
    rewrite Henc. reflexivity.
  - cbn [Z.ltb Z.compare andb].
    unfold kyber_keypair_of. cbn [key_data Kyber.public_key].
    destruct (kyber_encapsulate_layout (Kyber.derive_public_key sk) drawn Hdrawn)
      as (ct & Henc & _).
    rewrite Henc. reflexivity.
Qed.

Lemma crypto_generated_key_lifetime_witness :
  is_initialized (adapter_state Scenario.world)
    && state_use_pq_crypto (adapter_state Scenario.world)
    && kyber_initialized Scenario.world = true
  /\ length Scenario.key_id_bytes = 16%nat
  /\ length Sample.kyber_seed = 32%nat
  /\ length (Sample.entropy 32 13 1) = 32%nat
  /\ (0 <=? 1000) && (0 <=? 60) && (1000 + 60 <? 2 ^ 64) && (0 <=? 1061)
       && (1061 <? 2 ^ 64) = true
  /\ exists h' k,
       crypto_generate_key Scenario.world [] KEY_TYPE_KYBER out_buffer 60 1000
         (repeat 0xCD 32) (Some Scenario.key_id_bytes) (Some Sample.kyber_seed)
         = (0, h', Some k)
       /\ creation_time k = 1000
       /\ expiration_time k = (if 0 <? 60 then 1000 + 60 else 0)
       /\ est_code (crypto_establish_key Scenario.world out_buffer out_buffer out_buffer
                      out_buffer (Some k) 1061 (Some (Sample.entropy 32 13 1)))
          = if (0 <? 60) && (1000 + 60 <? 1061) then -3 else 0.
Proof.
  split; [reflexivity|]. split; [reflexivity|]. split; [reflexivity|].
  split; [reflexivity|]. split; [reflexivity|].
  exact (crypto_generated_key_lifetime Scenario.world [] (repeat 0xCD 32)
           Scenario.key_id_bytes Sample.kyber_seed (Sample.entropy 32 13 1) 60 1000 1061
           eq_refl eq_refl eq_refl eq_refl eq_refl).
Defined.

End key_lifetime.

(** ** falcon.c: key generation *)

Section falcon_keys.

Lemma nth_map_seq_from {A : Type} (f : nat -> A) (d : A) (a n i : nat) :
  (i < n)%nat -> nth i (map f (seq a n)) d = f (a + i)%nat.
Proof.
  intros Hi.
  rewrite (nth_indep _ d (f 0%nat)) by (rewrite length_map, length_seq; exact Hi).
  rewrite (map_nth f (seq a n) 0%nat i), seq_nth by exact Hi.
  reflexivity.
Qed.

(** X30.  The key pair [falcon_keygen] makes from 1281 drawn bytes: the
    secret key is the drawn bytes, the public key has 897 bytes, and every
    secret-key byte from index 32 to 896 can be read off the public key,
    being the public-key byte at the same index minus the index, modulo
    256. *)
Theorem falcon_public_key_reveals_secret_bytes (drawn : bytes) :
  length drawn = Falcon.FALCON_SECRET_KEY_BYTES ->
  forallb (fun b => (0 <=? b) && (b <? 256)) drawn = true ->
  exists kp,
    Falcon.falcon_keygen true out_buffer (Some drawn) = (0, Some kp)
    /\ Falcon.secret_key kp = drawn
    /\ length (Falcon.public_key kp) = Falcon.FALCON_PUBLIC_KEY_BYTES
    /\ forall i, (32 <= i < Falcon.FALCON_PUBLIC_KEY_BYTES)%nat ->
         nth i (Falcon.secret_key kp) 0
         = (nth i (Falcon.public_key kp) 0 - Z.of_nat i) mod 256.
Proof.
  intros Hlen Hbytes.
  unfold Falcon.falcon_keygen, RAND_bytes. cbn [negb orb out_null].
  rewrite Hlen, Nat.eqb_refl. cbv zeta.
  eexists. split; [reflexivity|]. cbn [Falcon.public_key Falcon.secret_key].
  split; [reflexivity|].
  assert (Hd : forall m, length (SHA256 m) = 32%nat) by (intros m; apply SHA256_length).
  split.
  - rewrite length_app, length_map, length_seq, Hd. reflexivity.
  - intros i Hi. unfold Falcon.FALCON_PUBLIC_KEY_BYTES in Hi.
    rewrite app_nth2 by (rewrite Hd; lia). rewrite !Hd.
    rewrite nth_map_seq_from by (unfold Falcon.FALCON_PUBLIC_KEY_BYTES; lia).
    replace (32 + (i - 32))%nat with i by lia.
    rewrite Nat.mod_small by (unfold Falcon.FALCON_SECRET_KEY_BYTES; lia).
    assert (Hb : 0 <= nth i drawn 0 < 256).
    { rewrite forallb_forall in Hbytes.
      assert (Hin : In (nth i drawn 0) drawn)
        by (apply nth_In; rewrite Hlen; unfold Falcon.FALCON_SECRET_KEY_BYTES; lia).
      specialize (Hbytes _ Hin). apply andb_prop in Hbytes as [H0 H1].
      apply Z.leb_le in H0. apply Z.ltb_lt in H1. lia. }
    rewrite Zminus_mod_idemp_l.
    replace (nth i drawn 0 + Z.of_nat i - Z.of_nat i) with (nth i drawn 0) by lia.
    symmetry. apply Z.mod_small. exact Hb.
Qed.

Lemma falcon_public_key_reveals_secret_bytes_witness :
  length (Sample.entropy Falcon.FALCON_SECRET_KEY_BYTES 7 3) = Falcon.FALCON_SECRET_KEY_BYTES
  /\ forallb (fun b => (0 <=? b) && (b <? 256))
       (Sample.entropy Falcon.FALCON_SECRET_KEY_BYTES 7 3) = true
  /\ exists kp,
       Falcon.falcon_keygen true out_buffer
         (Some (Sample.entropy Falcon.FALCON_SECRET_KEY_BYTES 7 3)) = (0, Some kp)
       /\ Falcon.secret_key kp = Sample.entropy Falcon.FALCON_SECRET_KEY_BYTES 7 3
       /\ length (Falcon.public_key kp) = Falcon.FALCON_PUBLIC_KEY_BYTES
       /\ forall i, (32 <= i < Falcon.FALCON_PUBLIC_KEY_BYTES)%nat ->
            nth i (Falcon.secret_key kp) 0
            = (nth i (Falcon.public_key kp) 0 - Z.of_nat i) mod 256.
Proof.
  assert (Hlen : length (Sample.entropy Falcon.FALCON_SECRET_KEY_BYTES 7 3)
                 = Falcon.FALCON_SECRET_KEY_BYTES) by (vm_compute; reflexivity).
  assert (Hbytes : forallb (fun b => (0 <=? b) && (b <? 256))
                     (Sample.entropy Falcon.FALCON_SECRET_KEY_BYTES 7 3) = true)
    by (vm_compute; reflexivity).
  split; [exact Hlen|]. split; [exact Hbytes|].
  exact (falcon_public_key_reveals_secret_bytes _ Hlen Hbytes).
Defined.

End falcon_keys.
